(** * mysqlToSQLiteParser: a shallow embedding of src/server/lib/mysqlToSQLiteParser.js

    The translator is a pipeline of JavaScript [String.prototype.replace]
    calls driven by regular expressions, followed by a shape-dependent
    formatter.  The embedding has three layers:

    - [Js]: the string primitives the source uses ([trim], [split],
      [includes], [startsWith], ...), over lists of characters;
    - [Regex]: a backtracking matcher with the priorities of the
      JavaScript engine (greedy and lazy quantifiers, ordered alternation,
      capture groups, [\b] and [$]), and the global [replace] built on it;
    - [Parser]: the rule table [functionMappings], the three formatters and
      [mysqlToSQLiteParser] itself, each written after its source function.

    Statements are modelled as lists of 8-bit characters, the code points
    U+0000 to U+00FF: of the white space of the language these are the
    codes 9 to 13, 32 and 160, and the letters with a case are those of
    ASCII and of the Latin-1 supplement. *)

From Stdlib Require Import Ascii String List Bool Arith NArith Lia.
Import ListNotations.

Local Open Scope list_scope.
Local Open Scope bool_scope.

(** A JavaScript string. *)
Definition str := list ascii.

(** String literals of the source are written [js "..."]. *)
Definition js (x : string) : str := list_ascii_of_string x.

(* ================================================================== *)
(** ** Characters *)

Module Chars.

(** The character code, as [charCodeAt] gives it. *)
Definition code (c : ascii) : N := N_of_ascii c.

Definition between (lo hi : N) (c : ascii) : bool :=
  (lo <=? code c)%N && (code c <=? hi)%N.

Definition is_code (n : N) (c : ascii) : bool := (code c =? n)%N.

Definition is_upper (c : ascii) : bool := between 65 90 c.
Definition is_lower (c : ascii) : bool := between 97 122 c.
Definition is_digit (c : ascii) : bool := between 48 57 c.

(** [\w] *)
Definition is_word (c : ascii) : bool :=
  is_upper c || is_lower c || is_digit c || is_code 95 c.

(** [\s], and the characters [trim] removes: tab, line feed, vertical tab,
    form feed, carriage return, space and the no-break space U+00A0. *)
Definition is_space (c : ascii) : bool :=
  between 9 13 c || is_code 32 c || is_code 160 c.

(** The line terminators that [.] refuses. *)
Definition is_line_terminator (c : ascii) : bool :=
  is_code 10 c || is_code 13 c.

(** The letters of the Latin-1 supplement: U+00C0 to U+00DE without the
    multiplication sign, and U+00E0 to U+00FE without the division sign. *)
Definition is_upper_latin1 (c : ascii) : bool :=
  between 192 222 c && negb (is_code 215 c).
Definition is_lower_latin1 (c : ascii) : bool :=
  between 224 254 c && negb (is_code 247 c).

(** [toLowerCase] on one character. *)
Definition to_lower (c : ascii) : ascii :=
  if is_upper c || is_upper_latin1 c then ascii_of_N (code c + 32) else c.

(** [toUpperCase] on one character.  The upper-case forms of U+00B5,
    U+00DF and U+00FF are not characters of the range (U+039C, the two
    letters SS, U+0178); these three are left as they are.  The source
    compares upper-cased text with words of ASCII letters only, which
    neither form contains, and under the [i] flag none of them is equal
    to another character of the range. *)
Definition to_upper (c : ascii) : ascii :=
  if is_lower c || is_lower_latin1 c then ascii_of_N (code c - 32) else c.

Definition eqc (a b : ascii) : bool := Ascii.eqb a b.

(** Equality of characters under the [i] flag. *)
Definition eqc_ci (a b : ascii) : bool := Ascii.eqb (to_upper a) (to_upper b).

Definition newline : ascii := ascii_of_N 10.
Definition tab : ascii := ascii_of_N 9.
Definition space : ascii := ascii_of_N 32.

End Chars.

(* ================================================================== *)
(** ** String primitives *)

Module Js.
Import Chars.

Fixpoint str_eqb (a b : str) : bool :=
  match a, b with
  | [], [] => true
  | x :: a', y :: b' => eqc x y && str_eqb a' b'
  | _, _ => false
  end.

(** [s.startsWith(p)] *)
Fixpoint startsWith (s p : str) {struct p} : bool :=
  match p, s with
  | [], _ => true
  | x :: p', y :: s' => eqc x y && startsWith s' p'
  | _ :: _, [] => false
  end.

(** [s.includes(p)] *)
Fixpoint includes (s p : str) : bool :=
  startsWith s p ||
  match s with
  | [] => false
  | _ :: s' => includes s' p
  end.

(** [s.endsWith(p)] *)
Definition endsWith (s p : str) : bool :=
  startsWith (rev s) (rev p).

Definition toLowerCase (s : str) : str := map to_lower s.
Definition toUpperCase (s : str) : str := map to_upper s.

Fixpoint trimStart (s : str) : str :=
  match s with
  | c :: s' => if is_space c then trimStart s' else s
  | [] => []
  end.

Definition trimEnd (s : str) : str := rev (trimStart (rev s)).

(** [s.trim()] *)
Definition trim (s : str) : str := trimEnd (trimStart s).

(** [s.split(sep)] for a separator of one character: never empty. *)
Fixpoint split (sep : ascii) (s : str) : list str :=
  match s with
  | [] => [[]]
  | c :: s' =>
      if eqc c sep then [] :: split sep s'
      else match split sep s' with
           | w :: ws => (c :: w) :: ws
           | [] => [[c]]
           end
  end.

(** [a.join(sep)] *)
Fixpoint join (sep : str) (l : list str) : str :=
  match l with
  | [] => []
  | [x] => x
  | x :: l' => x ++ sep ++ join sep l'
  end.

(** [a.indexOf(x)]: the first index of an element equal to [x]; [None]
    for the source's [-1]. *)
Fixpoint indexOf (l : list str) (x : str) : option nat :=
  match l with
  | [] => None
  | y :: l' =>
      if str_eqb y x then Some 0
      else match indexOf l' x with
           | Some i => Some (S i)
           | None => None
           end
  end.

(** [a.slice(i)] *)
Definition slice (i : nat) (l : list str) : list str := skipn i l.

(** [s.repeat(n)] *)
Fixpoint repeat_str (s : str) (n : nat) : str :=
  match n with
  | 0 => []
  | S n' => s ++ repeat_str s n'
  end.

(** A line is truthy when it is not the empty string. *)
Definition truthy (s : str) : bool :=
  match s with [] => false | _ => true end.

End Js.

(* ================================================================== *)
(** ** Regular expressions *)

Module Regex.
Import Chars.

(** The fragment of the pattern language that the source uses. *)
Inductive re : Type :=
| Eps : re                          (* the empty pattern *)
| Chr : (ascii -> bool) -> re       (* one character of a class *)
| Seq : re -> re -> re              (* r1 r2 *)
| Alt : re -> re -> re              (* r1|r2, r1 tried first *)
| Star : bool -> re -> re           (* r* when [true], r*? when [false] *)
| Group : nat -> re -> re           (* the n-th capturing group *)
| WordB : re                        (* \b *)
| EndA : re.                        (* $ without the m flag *)

(** Matcher state: the character before the position (for [\b]), the text
    that remains and the captures made so far, most recent first. *)
Record mstate : Type := MState {
  prev : option ascii;
  rest : str;
  caps : list (nat * str)
}.

Definition is_word_opt (o : option ascii) : bool :=
  match o with Some c => is_word c | None => false end.

Definition at_word_boundary (s : mstate) : bool :=
  xorb (is_word_opt (prev s)) (is_word_opt (hd_error (rest s))).

(** Text between two positions of the same string. *)
Definition consumed (before after : str) : str :=
  firstn (length before - length after) before.

Definition orelse {A} (a b : option A) : option A :=
  match a with Some _ => a | None => b end.

(** The loop of a quantifier over [body]: at most [fuel] iterations, each
    of which must consume something (an iteration that consumes nothing is
    refused, as in the language definition); [greedy] tries one more
    iteration before the continuation, lazy the continuation first. *)
Definition star_loop (greedy : bool)
  (body : (mstate -> option mstate) -> mstate -> option mstate)
  (k : mstate -> option mstate) : nat -> mstate -> option mstate :=
  fix loop (fuel : nat) (s : mstate) {struct fuel} : option mstate :=
    match fuel with
    | 0 => k s
    | S fuel' =>
        let again :=
          body (fun s' =>
                  if length (rest s') <? length (rest s)
                  then loop fuel' s' else None) s in
        if greedy then orelse again (k s) else orelse (k s) again
    end.

(** [rmatch r k s]: match [r] at [s], then the continuation [k]; the first
    success in the engine's backtracking order wins.  A quantifier can
    iterate at most once per remaining character. *)
Fixpoint rmatch (r : re) (k : mstate -> option mstate) (s : mstate)
  {struct r} : option mstate :=
  match r with
  | Eps => k s
  | Chr p =>
      match rest s with
      | c :: t => if p c then k (MState (Some c) t (caps s)) else None
      | [] => None
      end
  | Seq r1 r2 => rmatch r1 (rmatch r2 k) s
  | Alt r1 r2 => orelse (rmatch r1 k s) (rmatch r2 k s)
  | Star greedy r1 => star_loop greedy (rmatch r1) k (length (rest s)) s
  | Group n r1 =>
      rmatch r1
        (fun s' =>
           k (MState (prev s') (rest s')
                ((n, consumed (rest s) (rest s')) :: caps s'))) s
  | WordB => if at_word_boundary s then k s else None
  | EndA => match rest s with [] => k s | _ :: _ => None end
  end.

(** One attempt at one position: the state after the match, if any. *)
Definition exec (r : re) (p : option ascii) (l : str) : option mstate :=
  rmatch r Some (MState p l []).

(** [$n] in a replacement: the n-th capture, or the empty string when the
    group did not take part in the match. *)
Fixpoint capture (n : nat) (cs : list (nat * str)) : option str :=
  match cs with
  | [] => None
  | (m, v) :: cs' => if m =? n then Some v else capture n cs'
  end.

Definition group (n : nat) (cs : list (nat * str)) : str :=
  match capture n cs with Some v => v | None => [] end.

(** The second argument of [replace]: a template with [$1]..[$9], or a
    function of the match and its captures.  The templates of the source
    refer to groups that exist and use no other [$] form. *)
Inductive replacement : Type :=
| Template : str -> replacement
| Callback : (str -> list (nat * str) -> str) -> replacement.

Definition digit_value (c : ascii) : nat := N.to_nat (code c - 48).

Fixpoint expand (t : str) (cs : list (nat * str)) : str :=
  match t with
  | [] => []
  | c :: t' =>
      if is_code 36 c then
        match t' with
        | d :: t'' =>
            if is_digit d && negb (is_code 48 d)
            then group (digit_value d) cs ++ expand t'' cs
            else c :: expand t' cs
        | [] => [c]
        end
      else c :: expand t' cs
  end.

Definition substitute (rp : replacement) (matched : str)
  (cs : list (nat * str)) : str :=
  match rp with
  | Template t => expand t cs
  | Callback f => f matched cs
  end.

(** [s.replace(/r/g, rp)]: every match, left to right and not
    overlapping; [skip] counts the characters of the current match that
    are still to be passed over.  After an empty match the scan moves one
    character on. *)
Fixpoint scan (r : re) (rp : replacement) (p : option ascii) (l : str)
  (skip : nat) {struct l} : str :=
  match l with
  | [] =>
      match skip, exec r p [] with
      | 0, Some s' => substitute rp [] (caps s')
      | _, _ => []
      end
  | c :: t =>
      match skip with
      | S n => scan r rp (Some c) t n
      | 0 =>
          match exec r p l with
          | Some s' =>
              let m := consumed l (rest s') in
              substitute rp m (caps s') ++
              match length m with
              | 0 => c :: scan r rp (Some c) t 0
              | S n => scan r rp (Some c) t n
              end
          | None => c :: scan r rp (Some c) t 0
          end
      end
  end.

Definition replace_all (r : re) (rp : replacement) (s : str) : str :=
  scan r rp None s 0.

(** [s.replace(/r/, rp)] without the [g] flag: the first match only. *)
Fixpoint replace_first_from (r : re) (rp : replacement) (p : option ascii)
  (l : str) {struct l} : str :=
  match exec r p l with
  | Some s' => substitute rp (consumed l (rest s')) (caps s') ++ rest s'
  | None =>
      match l with
      | [] => []
      | c :: t => c :: replace_first_from r rp (Some c) t
      end
  end.

Definition replace_first (r : re) (rp : replacement) (s : str) : str :=
  replace_first_from r rp None s.

(** [s.match(/r/)] without the [g] flag: the captures of the first match,
    [None] for the source's [null]. *)
Fixpoint search (r : re) (p : option ascii) (l : str) {struct l}
  : option (list (nat * str)) :=
  match exec r p l with
  | Some s' => Some (caps s')
  | None =>
      match l with
      | [] => None
      | c :: t => search r (Some c) t
      end
  end.

(** Pattern combinators, named after the syntax they stand for. *)
Definition ch (c : ascii) : re := Chr (eqc c).
Definition chi (c : ascii) : re := Chr (eqc_ci c).

Fixpoint lit_of (l : str) : re :=
  match l with
  | [] => Eps
  | [c] => ch c
  | c :: l' => Seq (ch c) (lit_of l')
  end.

Fixpoint liti_of (l : str) : re :=
  match l with
  | [] => Eps
  | [c] => chi c
  | c :: l' => Seq (chi c) (liti_of l')
  end.

(** A literal, and a literal under the [i] flag. *)
Definition lit (x : string) : re := lit_of (js x).
Definition liti (x : string) : re := liti_of (js x).

Definition dot : re := Chr (fun c => negb (is_line_terminator c)).
Definition space_class : re := Chr is_space.           (* \s *)
Definition word_class : re := Chr is_word.             (* \w *)
Definition digit_class : re := Chr is_digit.           (* \d *)
Definition blank_class : re :=                          (* [ \t] *)
  Chr (fun c => eqc c space || eqc c tab).
Definition not_rparen : re :=                           (* [^)] *)
  Chr (fun c => negb (is_code 41 c)).

Definition star (r : re) : re := Star true r.           (* r* *)
Definition lazy_star (r : re) : re := Star false r.     (* r*? *)
Definition plus (r : re) : re := Seq r (Star true r).   (* r+ *)
Definition opt (r : re) : re := Alt r Eps.              (* r? *)

Fixpoint seq (l : list re) : re :=
  match l with
  | [] => Eps
  | [r] => r
  | r :: l' => Seq r (seq l')
  end.

Fixpoint alt (l : list re) : re :=
  match l with
  | [] => Eps
  | [r] => r
  | r :: l' => Alt r (alt l')
  end.

End Regex.

(* ================================================================== *)
(** ** The translator *)

Module Parser.
Import Chars Js Regex.

(** What a call of a source function does: return a string, or throw the
    [TypeError] of reading a property of [null]. *)
Inductive outcome : Type :=
| Returned : str -> outcome
| TypeError : outcome.

(** *** formatSQL *)

(** [/\s+/g] *)
Definition re_spaces : re := plus space_class.

Definition clause_keywords : list string :=
  ["FROM"; "WHERE"; "GROUP BY"; "HAVING"; "ORDER BY"; "LIMIT"]%string.

Definition starts_clause (line : str) : bool :=
  existsb (fun kw => startsWith (toUpperCase line) (js kw)) clause_keywords.

(** The body of the [for] loop, with [indentLevel] threaded through. *)
Fixpoint formatSQL_loop (lines : list str) (indentLevel : nat) : list str :=
  match lines with
  | [] => []
  | line :: lines' =>
      let indentLevel := if starts_clause line then 0 else indentLevel in
      let indent := repeat_str (js "    ") (Nat.max 0 indentLevel) in
      let next :=
        if startsWith (toUpperCase line) (js "SELECT") then 1
        else indentLevel in
      (indent ++ line) :: formatSQL_loop lines' next
  end.

(** The trimmed, non-empty lines of a statement. *)
Definition lines_of (sql : str) : list str :=
  filter truthy (map trim (split newline sql)).

Definition formatSQL (sql : str) : str :=
  if negb (includes sql [newline])
     && negb (includes (toLowerCase sql) (js "case when"))
     && negb (includes (toLowerCase sql) (js "group by"))
  then trim (replace_all re_spaces (Template (js " ")) sql)
  else join [newline] (formatSQL_loop (lines_of sql) 0).

(** *** formatCreateTable *)

(** [/CREATE TABLE\s+(\w+)/] *)
Definition re_table_name : re :=
  seq [lit "CREATE TABLE"; plus space_class; Group 1 (plus word_class)].

(** [/,\s*$/] *)
Definition re_trailing_comma : re :=
  seq [lit ","; star space_class; EndA].

(** [lines.slice(lines.indexOf(line) + 1)]; [indexOf] gives -1 for a
    line that is absent. *)
Definition lines_after (lines : list str) (line : str) : list str :=
  match indexOf lines line with
  | Some i => slice (i + 1) lines
  | None => slice 0 lines
  end.

Definition isLastColumn (lines : list str) (line : str) : bool :=
  negb (existsb (fun l => negb (startsWith l (js ")")))
          (lines_after lines line)).

(** The [for] loop: [lines] is the whole array, [todo] what remains of it;
    [None] when [match] returned [null] and [[1]] threw. *)
Fixpoint formatCreateTable_loop (lines todo : list str) (inColumns : bool)
  : option (list str) :=
  match todo with
  | [] => Some []
  | line :: todo' =>
      if startsWith line (js "CREATE TABLE") then
        match search re_table_name None line with
        | None => None
        | Some cs =>
            match formatCreateTable_loop lines todo' true with
            | Some out =>
                Some ((js "CREATE TABLE " ++ group 1 cs ++ js " (") :: out)
            | None => None
            end
        end
      else if endsWith line (js ");") || str_eqb line (js ");")
              || str_eqb line (js ")") then
        match formatCreateTable_loop lines todo' false with
        | Some out => Some (js "    );" :: out)
        | None => None
        end
      else if inColumns then
        let column :=
          replace_first re_trailing_comma (Template []) line
          ++ (if isLastColumn lines line then [] else js ",") in
        match formatCreateTable_loop lines todo' inColumns with
        | Some out => Some ((js "    " ++ column) :: out)
        | None => None
        end
      else
        match formatCreateTable_loop lines todo' inColumns with
        | Some out => Some (line :: out)
        | None => None
        end
  end.

Definition formatCreateTable (sql : str) : outcome :=
  let lines := lines_of sql in
  match formatCreateTable_loop lines lines false with
  | Some result => Returned (join [newline] result)
  | None => TypeError
  end.

(** *** handleGroupConcat *)

(** [/GROUP_CONCAT\((DISTINCT\s+)?([^)]+)\)/gi] *)
Definition re_group_concat : re :=
  seq [liti "GROUP_CONCAT"; ch "(";
       opt (Group 1 (seq [liti "DISTINCT"; plus space_class]));
       Group 2 (plus not_rparen); ch ")"].

(** [/GROUP_CONCAT\(([^)]+\.[^)]+)\)/gi] *)
Definition re_group_concat_dot : re :=
  seq [liti "GROUP_CONCAT"; ch "(";
       Group 1 (seq [plus not_rparen; ch "."; plus not_rparen]); ch ")"].

Definition handleGroupConcat (sql : str) : str :=
  let sql :=
    replace_all re_group_concat
      (Callback (fun _ cs =>
         js "GROUP_CONCAT(" ++ group 1 cs ++ group 2 cs ++ js ")")) sql in
  replace_all re_group_concat_dot (Template (js "GROUP_CONCAT($1)")) sql.

(** *** functionMappings *)

Record mapping : Type := Mapping {
  regex : re;
  replacement : replacement
}.

(** [NAME\((.*?)\)] *)
Definition call1 (name : string) : re :=
  seq [lit name; ch "("; Group 1 (lazy_star dot); ch ")"].

(** [NAME\((.*?),(.*?)\)] *)
Definition call2 (name : string) : re :=
  seq [lit name; ch "("; Group 1 (lazy_star dot); ch ",";
       Group 2 (lazy_star dot); ch ")"].

(** [NAME\((.*?),(.*?),(.*?)\)] *)
Definition call3 (name : string) : re :=
  seq [lit name; ch "("; Group 1 (lazy_star dot); ch ",";
       Group 2 (lazy_star dot); ch ",";
       Group 3 (lazy_star dot); ch ")"].

(** [NAME\((.*?),\s*INTERVAL\s*(\d+)\s*DAY\)] *)
Definition call_interval (name : string) : re :=
  seq [lit name; ch "("; Group 1 (lazy_star dot); ch ",";
       star space_class; lit "INTERVAL"; star space_class;
       Group 2 (plus digit_class); star space_class; lit "DAY"; ch ")"].

(** [\b(A|B|...)\(] *)
Definition call_named (names : list string) : re :=
  seq [WordB; Group 1 (alt (map lit names)); ch "("].

(** [\(\d+\)] *)
Definition width : re := seq [ch "("; plus digit_class; ch ")"].

(** [(match, args) => args.split(',').join(' || ')] *)
Definition concat_args : str -> list (nat * str) -> str :=
  fun _ cs => join (js " || ") (split "," (group 1 cs)).

Definition tpl (x : string) : Regex.replacement := Template (js x).

Definition functionMappings : list mapping := [
  (* String Functions *)
  Mapping (call1 "CONCAT") (Callback concat_args);
  Mapping (call1 "SUBSTRING") (tpl "substr($1)");
  Mapping (call_named ["LENGTH"; "UPPER"; "LOWER"; "TRIM"; "LTRIM";
                       "RTRIM"; "REPLACE"]%string) (tpl "$1(");
  (* Date/Time Functions *)
  Mapping (call_interval "DATE_ADD") (tpl "DATETIME($1, '+$2 DAY')");
  Mapping (call_interval "DATE_SUB") (tpl "DATETIME($1, '-$2 DAY')");
  Mapping (call2 "DATEDIFF")
          (tpl "CAST((JULIANDAY($1) - JULIANDAY($2)) AS INTEGER)");
  Mapping (call1 "YEAR") (tpl "CAST(strftime('%Y', $1) AS INTEGER)");
  Mapping (call1 "MONTH") (tpl "CAST(strftime('%m', $1) AS INTEGER)");
  Mapping (call1 "DAY") (tpl "CAST(strftime('%d', $1) AS INTEGER)");
  Mapping (lit "NOW()") (tpl "DATETIME('now')");
  (* Math Functions *)
  Mapping (call1 "CEIL") (tpl "CAST(ROUND($1 + 0.5) AS INTEGER)");
  Mapping (call1 "FLOOR") (tpl "CAST($1 AS INTEGER)");
  Mapping (call_named ["POW"; "ABS"; "SQRT"]%string) (tpl "$1(");
  Mapping (call2 "MOD") (tpl "($1 % $2)");
  Mapping (seq [WordB; lit "RAND()"])
          (tpl "(ABS(RANDOM()) % 1000000 + 1) / 1000000.0");
  (* Conditional Functions *)
  Mapping (call2 "IFNULL") (tpl "COALESCE($1, $2)");
  Mapping (call3 "IF") (tpl "CASE WHEN $1 THEN $2 ELSE $3 END");
  Mapping (call2 "NULLIF") (tpl "CASE WHEN $1 = $2 THEN NULL ELSE $1 END");
  (* Type Conversions *)
  Mapping (seq [WordB;
                opt (alt [lit "TINY"; lit "SMALL"; lit "MEDIUM"; lit "BIG"]);
                lit "INT"; width])
          (tpl "INTEGER");
  Mapping (Alt (seq [WordB; opt (lit "VAR"); lit "CHAR"; width])
               (seq [lit "TEXT"; width]))
          (tpl "TEXT");
  Mapping (seq [WordB; alt [lit "DECIMAL"; lit "FLOAT"; lit "DOUBLE"];
                ch "("; plus digit_class; ch ","; plus digit_class; ch ")"])
          (tpl "REAL");
  Mapping (seq [WordB; lit "TIMESTAMP"; WordB]) (tpl "DATETIME");
  Mapping (seq [WordB; lit "BINARY"; WordB]) (tpl "BLOB");
  (* Join Types *)
  Mapping (seq [WordB; alt [lit "LEFT"; lit "RIGHT"; lit "FULL"];
                plus space_class;
                opt (seq [lit "OUTER"; plus space_class]);
                lit "JOIN"; WordB])
          (tpl "LEFT JOIN");
  Mapping (Alt (seq [WordB; lit "INNER"; plus space_class; lit "JOIN"; WordB])
               (seq [WordB; lit "JOIN"; WordB]))
          (tpl "INNER JOIN");
  (* Auto-increment and Primary Key *)
  Mapping (seq [liti "AUTO"; opt (ch "_"); liti "INCREMENT";
                Alt (seq [plus space_class; liti "PRIMARY";
                          plus space_class; liti "KEY"])
                    Eps])
          (tpl "PRIMARY KEY AUTOINCREMENT");
  Mapping (seq [liti "PRIMARY"; plus space_class; liti "KEY";
                plus space_class; liti "AUTO"; opt (ch "_");
                liti "INCREMENT"])
          (tpl "PRIMARY KEY AUTOINCREMENT")
].

(** *** mysqlToSQLiteParser *)

Definition apply_mapping (q : str) (m : mapping) : str :=
  replace_all (regex m) (replacement m) q.

(** [functionMappings.forEach(...)] *)
Definition apply_mappings (ms : list mapping) (q : str) : str :=
  fold_left apply_mapping ms q.

(** [/ENGINE=\w+|DEFAULT CHARSET=\w+|COLLATE=\w+/g] *)
Definition re_table_options : re :=
  alt [seq [lit "ENGINE="; plus word_class];
       seq [lit "DEFAULT CHARSET="; plus word_class];
       seq [lit "COLLATE="; plus word_class]].

(** [/[ \t]+/g] *)
Definition re_blanks : re := plus blank_class.

(** [/\n\s*\n/g] *)
Definition re_blank_lines : re :=
  seq [ch newline; star space_class; ch newline].

(** The post-processing chain. *)
Definition cleanup (q : str) : str :=
  trim
    (replace_all re_blank_lines (Template [newline])
       (replace_all re_blanks (tpl " ")
          (replace_all re_table_options (Template []) q))).

(** The shape-dependent formatting step. *)
Definition format (q : str) : outcome :=
  if startsWith (toLowerCase q) (js "create table") then formatCreateTable q
  else if includes (toLowerCase q) (js "group_concat")
  then Returned (handleGroupConcat q)
  else Returned (formatSQL q).

Definition rollup : str := js "WITH ROLLUP".
Definition rollup_marker : str := js "/* WITH ROLLUP not supported */".
Definition rollup_warning : str :=
  js "GROUP BY WITH ROLLUP is not supported in SQLite".

(** The statement before the check for unsupported features. *)
Definition rewritten (mysqlQuery : str) : outcome :=
  format (cleanup (apply_mappings functionMappings mysqlQuery)).

(** The last step, with what it writes to the console. *)
Definition warn_rollup (q : str) : list str * str :=
  if includes q rollup
  then ([rollup_warning], replace_all (lit "WITH ROLLUP") (Template rollup_marker) q)
  else ([], q).

(** The whole function: the lines written by [console.warn] and the
    outcome. *)
Definition mysqlToSQLiteParser_console (mysqlQuery : str)
  : list str * outcome :=
  match rewritten mysqlQuery with
  | Returned q => let (w, q') := warn_rollup q in (w, Returned q')
  | TypeError => ([], TypeError)
  end.

Definition mysqlToSQLiteParser (mysqlQuery : str) : outcome :=
  snd (mysqlToSQLiteParser_console mysqlQuery).

(** [translate] of the specification, on string literals. *)
Definition translate (x : string) : outcome := mysqlToSQLiteParser (js x).

End Parser.


(* ================================================================== *)
(** ** Decidable properties of patterns and statements *)

Module Analysis.
Import Chars Js Regex Parser.

(** Does [r] match somewhere in [l]?  [p] is the character before [l]. *)
Fixpoint has_match (r : re) (p : option ascii) (l : str) {struct l} : bool :=
  match exec r p l with
  | Some _ => true
  | None =>
      match l with
      | [] => false
      | c :: t => has_match r (Some c) t
      end
  end.

Definition matches_in (r : re) (s : str) : bool := has_match r None s.

(** The 256 characters. *)
Definition all_chars : list ascii := map ascii_of_nat (List.seq 0 256).

(** A sufficient condition, read off the pattern, for every match of [r]
    to contain a character of the class [P]: on every path through [r]
    some character class accepts characters of [P] only. *)
Fixpoint needs (P : ascii -> bool) (r : re) : bool :=
  match r with
  | Eps | WordB | EndA | Star _ _ => false
  | Chr p => forallb (fun c => implb (p c) (P c)) all_chars
  | Seq r1 r2 => needs P r1 || needs P r2
  | Alt r1 r2 => needs P r1 && needs P r2
  | Group _ r1 => needs P r1
  end.

(** Does [s] contain a character of the class [P]? *)
Definition has (P : ascii -> bool) (s : str) : bool := existsb P s.

Definition needs_upper (r : re) : bool := needs is_upper r.
Definition has_upper (s : str) : bool := has is_upper s.

(** The characters that occur in no spelling of [u], in any letter case. *)
Definition foreign_to (u : str) (c : ascii) : bool :=
  negb (existsb (eqc (to_upper c)) u).

(** The characters [d] with [to_upper d = c]. *)
Definition preimages (c : ascii) : list ascii :=
  filter (fun d => eqc (to_upper d) c) all_chars.

(** All the spellings of the upper-case word [u] in other letter cases. *)
Fixpoint spellings (u : str) : list str :=
  match u with
  | [] => [[]]
  | c :: u' => flat_map (fun d => map (cons d) (spellings u')) (preimages c)
  end.

(** The rules written without the [i] flag: all but the last two. *)
Definition case_sensitive_mappings : list mapping :=
  firstn 25 functionMappings.

(** The two auto-increment rules, written with [gi]. *)
Definition auto_increment_mappings : list mapping :=
  skipn 25 functionMappings.

(** No pattern of the rule table, of the table options or of
    [handleGroupConcat] matches in [s]. *)
Definition no_mapped_construct (s : str) : bool :=
  forallb (fun m => negb (matches_in (regex m) s)) functionMappings
  && negb (matches_in re_table_options s)
  && negb (matches_in re_group_concat s)
  && negb (matches_in re_group_concat_dot s).

(** The compact one-line form that the plain strategy produces: the only
    white space is single spaces between other characters. *)
Fixpoint compact_from (after_char : bool) (s : str) : bool :=
  match s with
  | [] => after_char
  | c :: t =>
      if is_space c
      then eqc c space && after_char && compact_from false t
      else compact_from true t
  end.

Definition compact (s : str) : bool :=
  match s with [] => true | _ => compact_from false s end.

(** An occurrence of [w] at offset [i] of [s]. *)
Definition occurs_at (w s : str) (i : nat) : Prop :=
  startsWith (skipn i s) w = true.

(** An occurrence of [WITH ROLLUP] at offset [i] that is the one inside a
    marker comment, which starts three characters before it. *)
Definition inside_marker (s : str) (i : nat) : Prop :=
  3 <= i /\ occurs_at rollup_marker s (i - 3).

(** The character before the position that follows [w], when [p] is the
    character before [w]. *)
Definition last_char (w : str) (p : option ascii) : option ascii :=
  fold_left (fun _ c => Some c) w p.

(** The characters that [(.*?)] passes over before a closing parenthesis:
    anything but a line terminator and the parenthesis itself. *)
Definition plain_char (c : ascii) : bool :=
  negb (is_line_terminator c) && negb (eqc c ")").

(** The characters of one argument of a call: no comma either. *)
Definition arg_char (c : ascii) : bool :=
  plain_char c && negb (eqc c ",").

(** The i-th rule of the table, counted from 0. *)
Definition mapping_at (i : nat) : mapping :=
  nth i functionMappings (Mapping Eps (Template [])).

(** The replacement of [warn_rollup], from any position of the scan. *)
Definition rollup_scan (p : option ascii) (l : str) : str :=
  scan (lit "WITH ROLLUP") (Template rollup_marker) p l 0.

Definition nl : string := String newline EmptyString.

End Analysis.

(* ================================================================== *)
(** ** Shapes of statements, lines and matches *)

Module Shapes.
Import Chars Js Regex Parser Analysis.

(** *** Runs of characters *)

(** The characters a lazy [(.*?)] passes before it reaches [d]. *)
Definition upto (d : ascii) (c : ascii) : bool :=
  negb (is_line_terminator c) && negb (eqc c d).

(** What stops a greedy run of the class [C]: the end of the text or a
    character outside [C]. *)
Definition stops (C : ascii -> bool) (tail : str) : bool :=
  match tail with [] => true | d :: _ => negb (C d) end.

Definition not_space (c : ascii) : bool := negb (is_space c).

Definition not_tab (c : ascii) : bool := negb (eqc c tab).

(** The class [[ \t]] of the cleanup steps. *)
Definition is_blank (c : ascii) : bool := eqc c space || eqc c tab.

(** What a global replacement of [C+] by one space computes: every
    maximal run of [C] becomes a single space. *)
Fixpoint squeeze (C : ascii -> bool) (in_run : bool) (l : str) : str :=
  match l with
  | [] => []
  | c :: t =>
      if C c then (if in_run then squeeze C true t
                   else space :: squeeze C true t)
      else c :: squeeze C false t
  end.

(** Every white-space character is a space and no two are adjacent;
    [after_space] tells whether the character before [s] was one. *)
Fixpoint single_spaced (after_space : bool) (s : str) : bool :=
  match s with
  | [] => true
  | c :: t =>
      if is_space c
      then eqc c space && negb after_space && single_spaced true t
      else single_spaced false t
  end.

(** The text does not end with white space; [a] answers for the empty
    text. *)
Definition ends_ok (a : bool) (s : str) : bool :=
  match s with
  | [] => a
  | c :: _ => negb (is_space (last s c))
  end.

(** No white space at either end: the fixed points of [trim]. *)
Definition no_edge_space (s : str) : bool :=
  match s with
  | [] => true
  | c :: _ => negb (is_space c) && negb (is_space (last s c))
  end.

Definition no_newline (s : str) : bool :=
  forallb (fun c => negb (eqc c newline)) s.

(** *** Matcher states *)

(** Two matcher states that differ at most in the character before the
    position, and there only in a way [\b] cannot see. *)
Definition alike (s s' : mstate) : Prop :=
  is_word_opt (prev s) = is_word_opt (prev s')
  /\ rest s = rest s' /\ caps s = caps s'.

Definition alike_opt (o o' : option mstate) : Prop :=
  match o, o' with
  | Some s, Some s' => alike s s'
  | None, None => True
  | _, _ => False
  end.

(** A pattern without capture groups. *)
Fixpoint groupless (r : re) : bool :=
  match r with
  | Eps | WordB | EndA | Chr _ => true
  | Seq r1 r2 | Alt r1 r2 => groupless r1 && groupless r2
  | Star _ r1 => groupless r1
  | Group _ _ => false
  end.

(** The continuation [k] gives [out] from a state further on in the text
    of [s], with the captures of [s]. *)
Definition reaches (k : mstate -> option mstate) (s : mstate)
  (out : mstate) : Prop :=
  exists s' m, k s' = Some out /\ rest s = m ++ rest s' /\ caps s' = caps s.

(** The replacement [rp] writes every match of [r] back up to letter
    case. *)
Definition case_only (r : re) (rp : Regex.replacement) : Prop :=
  forall p l s', exec r p l = Some s' ->
    toUpperCase (substitute rp (consumed l (rest s')) (caps s'))
    = toUpperCase (consumed l (rest s')).

(** The replacement [rp] writes every match of [r] back as it was. *)
Definition writes_back (r : re) (rp : Regex.replacement) : Prop :=
  forall p l s', exec r p l = Some s' ->
    substitute rp (consumed l (rest s')) (caps s') = consumed l (rest s').

(** The callback of the first replacement of [handleGroupConcat]. *)
Definition group_concat_callback : str -> list (nat * str) -> str :=
  fun _ cs => js "GROUP_CONCAT(" ++ group 1 cs ++ group 2 cs ++ js ")".

(** *** Lines *)

(** An element of [lines_of]: trimmed, not empty, on one line. *)
Definition clean_line (l : str) : bool :=
  truthy l && no_edge_space l && no_newline l.

(** The first branch of [formatSQL]: the statement is put on one line. *)
Definition one_line_shape (sql : str) : bool :=
  negb (includes sql [newline])
  && negb (includes (toLowerCase sql) (js "case when"))
  && negb (includes (toLowerCase sql) (js "group by")).

(** Indentation of one output line [o] for the input line [l]. *)
Definition indented_as (o l : str) : Prop :=
  (o = l \/ o = js "    " ++ l) /\ (starts_clause l = true -> o = l).

(** *** Lines of a table definition *)

(** A line on which [line.match(/CREATE TABLE\s+(\w+)/)] is [null]. *)
Definition nameless_header (line : str) : bool :=
  startsWith line (js "CREATE TABLE")
  && match search re_table_name None line with
     | None => true
     | Some _ => false
     end.

(** [line.replace(/,\s*$/, '')] *)
Definition strip_comma (line : str) : str :=
  replace_first re_trailing_comma (Template []) line.

(** A line that takes the third branch of the loop of
    [formatCreateTable]. *)
Definition column_line (c : str) : bool :=
  clean_line c && negb (startsWith c (js "CREATE TABLE"))
  && negb (endsWith c (js ");")) && negb (startsWith c (js ")")).

(** A line that takes the second branch and starts with [)], so that no
    column line before it looks ahead past it. *)
Definition closing_line (cl : str) : bool :=
  clean_line cl && startsWith cl (js ")")
  && (endsWith cl (js ");") || str_eqb cl (js ")")).

(** The last column line is not a copy of an earlier one: [indexOf]
    finds it at its own position. *)
Definition last_is_new (cols : list str) : bool :=
  match rev cols with
  | [] => true
  | l :: earlier => negb (existsb (str_eqb l) earlier)
  end.

(** The column lines as they are emitted: each behind four spaces, its
    trailing comma removed and, on every line but the last, one comma
    added. *)
Fixpoint columns (cols : list str) : list str :=
  match cols with
  | [] => []
  | [c] => [js "    " ++ strip_comma c]
  | c :: rest => (js "    " ++ strip_comma c ++ js ",") :: columns rest
  end.

(** *** Shapes of whole statements *)

(** Every character of the class [C] in [s] is a space, and no two of
    them are adjacent; [after] tells whether a character of [C] comes
    just before [s]. *)
Fixpoint sparse (C : ascii -> bool) (after : bool) (s : str) : bool :=
  match s with
  | [] => true
  | c :: t =>
      if C c then eqc c space && negb after && sparse C true t
      else sparse C false t
  end.

(** A word that cannot lie across a line break or across the trimmed end
    of a line: it has no line feed and neither starts nor ends with white
    space. *)
Definition solid (w : str) : bool :=
  match w with
  | [] => false
  | c :: _ => negb (is_space c) && negb (is_space (last w c))
              && forallb (fun d => negb (eqc d newline)) w
  end.

(** A line feed is the first character of [s] that is not other white
    space. *)
Fixpoint leading_newline (s : str) : bool :=
  match s with
  | [] => false
  | c :: t => if eqc c newline then true
              else if is_space c then leading_newline t else false
  end.

(** No two line feeds of [s] have only white space between them;
    [after] tells whether only white space has come since a line feed
    before [s]. *)
Fixpoint no_blank_line (after : bool) (s : str) : bool :=
  match s with
  | [] => true
  | c :: t =>
      if eqc c newline then negb after && no_blank_line true t
      else if is_space c then no_blank_line after t
      else no_blank_line false t
  end.

(** The header line that [formatCreateTable] writes for the table
    [name]. *)
Definition header_of (name : str) : str :=
  js "CREATE TABLE " ++ name ++ js " (".

(** The layout that [formatCreateTable] gives a well-formed table
    definition: the header with the name, the column lines behind four
    spaces, each but the last with its comma, and the closing line. *)
Definition table_layout_of (name : str) (cols : list str) : str :=
  join [newline]
    ((js "CREATE TABLE " ++ name ++ js " (")
     :: map (app (js "    ")) cols ++ [js "    );"]).

(** The characters of a statement other than white space, in order. *)
Definition ink (s : str) : str := filter not_space s.

(** [o] is [c], or the upper-case form of [c] as a letter of
    [GROUP_CONCAT]: what [handleGroupConcat] can make of a character. *)
Definition upcased (o c : ascii) : Prop :=
  o = c \/ (o = to_upper c /\ In o (js "GROUP_CONCAT")).

End Shapes.

(* ================================================================== *)
(** ** Facts about the string primitives *)

Module StringFacts.
Import Chars Js Regex Parser Analysis.

(** *** startsWith and includes *)

Lemma startsWith_app : forall w r, startsWith (w ++ r) w = true.
Proof.
  induction w as [|c w IH]; intro r; [destruct r; reflexivity|].
  simpl. unfold eqc. rewrite Ascii.eqb_refl. apply IH.
Qed.

Lemma startsWith_split : forall w l,
  startsWith l w = true -> l = w ++ skipn (length w) l.
Proof.
  induction w as [|c w IH]; intros l H; [reflexivity|].
  destruct l as [|d l]; simpl in H; [discriminate|].
  apply andb_true_iff in H. destruct H as [Hc Hw].
  apply Ascii.eqb_eq in Hc. subst d. simpl. f_equal. apply IH, Hw.
Qed.

Lemma includes_cons c s w : includes s w = true -> includes (c :: s) w = true.
Proof. intro H. simpl. rewrite H. apply orb_true_r. Qed.

Lemma includes_starts s w : startsWith s w = true -> includes s w = true.
Proof. intro H. destruct s; simpl in *; rewrite H; reflexivity. Qed.

Lemma no_occurrence : forall i s w,
  includes s w = false -> startsWith (skipn i s) w = false.
Proof.
  induction i as [|i IH]; intros s w H.
  - simpl. destruct s; simpl in H; apply orb_false_iff in H; apply H.
  - destruct s as [|c s]; simpl.
    + simpl in H. apply orb_false_iff in H. apply H.
    + apply IH. simpl in H. apply orb_false_iff in H. apply H.
Qed.

(** *** split and join *)

Lemma split_no_sep sep : forall a,
  forallb (fun c => negb (eqc c sep)) a = true -> split sep a = [a].
Proof.
  induction a as [|c a IH]; intro H; [reflexivity|].
  simpl in *. apply andb_true_iff in H. destruct H as [Hc Ha].
  apply negb_true_iff in Hc. rewrite Hc, (IH Ha). reflexivity.
Qed.

Lemma split_app_sep sep s : forall a,
  forallb (fun c => negb (eqc c sep)) a = true ->
  split sep (a ++ sep :: s) = a :: split sep s.
Proof.
  induction a as [|c a IH]; intro H; simpl in *.
  - unfold eqc. rewrite Ascii.eqb_refl. reflexivity.
  - apply andb_true_iff in H. destruct H as [Hc Ha].
    apply negb_true_iff in Hc. rewrite Hc, (IH Ha). reflexivity.
Qed.

Lemma arg_char_no_comma a :
  forallb arg_char a = true ->
  forallb (fun c => negb (eqc c ","%char)) a = true.
Proof.
  intro H. rewrite forallb_forall in *. intros c Hc.
  specialize (H c Hc). unfold arg_char in H.
  apply andb_true_iff in H. apply H.
Qed.

Lemma arg_char_plain a :
  forallb arg_char a = true -> forallb plain_char a = true.
Proof.
  intro H. rewrite forallb_forall in *. intros c Hc.
  specialize (H c Hc). unfold arg_char in H.
  apply andb_true_iff in H. apply H.
Qed.

(** Splitting at the commas gives back the arguments that were joined. *)
Lemma split_join_args : forall l,
  l <> [] -> forallb (forallb arg_char) l = true ->
  split ","%char (join (js ",") l) = l.
Proof.
  induction l as [|a l IH]; intros Hne H; [congruence|].
  simpl in H. apply andb_true_iff in H. destruct H as [Ha Hl].
  destruct l as [|b l].
  - simpl. apply split_no_sep, arg_char_no_comma, Ha.
  - change (join (js ",") (a :: b :: l))
      with (a ++ ","%char :: join (js ",") (b :: l)).
    rewrite split_app_sep by (apply arg_char_no_comma, Ha).
    rewrite IH; auto. discriminate.
Qed.

Lemma join_args_plain : forall l,
  forallb (forallb arg_char) l = true ->
  forallb plain_char (join (js ",") l) = true.
Proof.
  induction l as [|a l IH]; intro H; [reflexivity|].
  simpl in H. apply andb_true_iff in H. destruct H as [Ha Hl].
  destruct l as [|b l].
  - simpl. apply arg_char_plain, Ha.
  - change (join (js ",") (a :: b :: l))
      with (a ++ ","%char :: join (js ",") (b :: l)).
    rewrite forallb_app. rewrite (arg_char_plain _ Ha).
    cbn [forallb andb]. rewrite (IH Hl). reflexivity.
Qed.

End StringFacts.

(* ================================================================== *)
(** ** Facts about the matcher and the replacement *)

Module RegexFacts.
Import Chars Js Regex Parser Analysis.
Import StringFacts.

(** *** Where a match ends *)

(** Whatever [rmatch] returns was returned by its continuation, at a
    state further on in the same text; if the pattern needs an upper-case
    letter, the text passed over contains one. *)
Lemma star_loop_reach greedy body k :
  (forall k' s out, body k' s = Some out ->
     exists s' m, k' s' = Some out /\ rest s = m ++ rest s') ->
  forall fuel s out, star_loop greedy body k fuel s = Some out ->
  exists s' m, k s' = Some out /\ rest s = m ++ rest s'.
Proof.
  intros Hbody fuel; induction fuel as [|fuel IH]; intros s out H; simpl in H.
  - exists s, []; auto.
  - assert (Hk : k s = Some out -> exists s' m, k s' = Some out /\ rest s = m ++ rest s')
      by (intro; exists s, []; auto).
    assert (Hagain : forall o,
      body (fun s' => if length (rest s') <? length (rest s)
                      then star_loop greedy body k fuel s' else None) s = Some o ->
      exists s' m, k s' = Some o /\ rest s = m ++ rest s').
    { intros o Ho. apply Hbody in Ho. destruct Ho as (s1 & m1 & Hs1 & E1).
      destruct (length (rest s1) <? length (rest s)); [|discriminate].
      apply IH in Hs1. destruct Hs1 as (s2 & m2 & Hs2 & E2).
      exists s2, (m1 ++ m2). split; auto. rewrite E1, E2, app_assoc; reflexivity. }
    destruct greedy; unfold orelse in H.
    + destruct (body _ s) eqn:E.
      * inversion H; subst. apply Hagain. reflexivity.
      * auto.
    + destruct (k s) eqn:E.
      * inversion H; subst. apply Hk. reflexivity.
      * auto.
Qed.

Lemma rmatch_reach P r :
  forall k s out, rmatch r k s = Some out ->
  exists s' m, k s' = Some out /\ rest s = m ++ rest s'
               /\ (needs P r = true -> has P m = true).
Proof.
  induction r as [|p|r1 IH1 r2 IH2|r1 IH1 r2 IH2|g r1 IH1|n r1 IH1| |];
    intros k s out H; simpl in H.
  - exists s, []; repeat split; auto; try discriminate.
  - destruct s as [pv [|c t] cs]; simpl in H; [discriminate|].
    destruct (p c) eqn:Ep; [|discriminate].
    exists (MState (Some c) t cs), [c]; repeat split; auto.
    intro Hn. cbn [needs] in Hn. rewrite forallb_forall in Hn.
    assert (Hin : In c all_chars).
    { unfold all_chars. rewrite <- (ascii_nat_embedding c).
      apply in_map, in_seq. pose proof (nat_ascii_bounded c). lia. }
    specialize (Hn c Hin). rewrite Ep in Hn. simpl in Hn.
    unfold has; simpl. rewrite Hn; reflexivity.
  - apply IH1 in H. destruct H as (s1 & m1 & H1 & E1 & U1).
    apply IH2 in H1. destruct H1 as (s2 & m2 & H2 & E2 & U2).
    exists s2, (m1 ++ m2). split; auto. split.
    + rewrite E1, E2, app_assoc; reflexivity.
    + simpl. intro Hn. unfold has. rewrite existsb_app.
      apply orb_true_iff in Hn. apply orb_true_iff.
      destruct Hn; [left; apply U1|right; apply U2]; assumption.
  - unfold orelse in H. destruct (rmatch r1 k s) eqn:E.
    + inversion H; subst. apply IH1 in E. destruct E as (s1 & m1 & H1 & E1 & U1).
      exists s1, m1; repeat split; auto. simpl. intro Hn.
      apply andb_true_iff in Hn. apply U1, Hn.
    + apply IH2 in H. destruct H as (s1 & m1 & H1 & E1 & U1).
      exists s1, m1; repeat split; auto. simpl. intro Hn.
      apply andb_true_iff in Hn. apply U1, Hn.
  - apply star_loop_reach in H.
    + destruct H as (s1 & m1 & H1 & E1). exists s1, m1; repeat split; auto.
      simpl; discriminate.
    + intros k' s0 o Ho. apply IH1 in Ho. destruct Ho as (s1 & m1 & H1 & E1 & _).
      exists s1, m1; auto.
  - apply IH1 in H. destruct H as (s1 & m1 & H1 & E1 & U1).
    eexists _, m1. split; [exact H1|]. simpl. auto.
  - destruct (at_word_boundary s); [|discriminate].
    exists s, []; repeat split; auto; try discriminate.
  - destruct (rest s) eqn:E; [|discriminate].
    exists s, []; repeat split; auto; try discriminate.
Qed.

Lemma consumed_app (m l : str) : consumed (m ++ l) l = m.
Proof.
  unfold consumed. rewrite length_app.
  replace (length m + length l - length l) with (length m) by lia.
  rewrite firstn_app, firstn_all, Nat.sub_diag. simpl. apply app_nil_r.
Qed.

(** A match of a pattern that needs a character of [P] contains one. *)
Lemma exec_has P r p l s' :
  needs P r = true -> exec r p l = Some s' ->
  has P (consumed l (rest s')) = true.
Proof.
  unfold exec. intros Hn H. apply (rmatch_reach P) in H.
  destruct H as (s1 & m & H1 & E & U). inversion H1; subst. simpl in E.
  rewrite E, consumed_app. auto.
Qed.

(** *** Replacing where nothing matches *)

Lemma scan_no_match r rp : forall l p,
  has_match r p l = false -> scan r rp p l 0 = l.
Proof.
  induction l as [|c t IH]; intros p H; simpl in *.
  - destruct (exec r p []); [discriminate|reflexivity].
  - destruct (exec r p (c :: t)); [discriminate|].
    rewrite IH; auto.
Qed.

Lemma replace_all_no_match r rp s :
  matches_in r s = false -> replace_all r rp s = s.
Proof. apply scan_no_match. Qed.

Lemma has_firstn P n : forall l,
  has P l = false -> has P (firstn n l) = false.
Proof.
  unfold has. induction n as [|n IH]; intros [|c t] H; simpl in *; auto.
  apply orb_false_iff in H. destruct H as [Hc Ht].
  rewrite Hc, IH; auto.
Qed.

(** A pattern that needs a character of [P] matches nowhere in a text
    without one. *)
Lemma needs_no_match P r : needs P r = true ->
  forall l p, has P l = false -> has_match r p l = false.
Proof.
  intros Hn. induction l as [|c t IH]; intros p Hl; simpl.
  - destruct (exec r p []) eqn:E; auto.
    apply (exec_has _ _ _ _ _ Hn) in E.
    unfold consumed in E. rewrite has_firstn in E by assumption. discriminate.
  - destruct (exec r p (c :: t)) eqn:E.
    + apply (exec_has _ _ _ _ _ Hn) in E.
      unfold consumed in E. rewrite has_firstn in E by assumption. discriminate.
    + apply IH. unfold has in *. simpl in Hl.
      apply orb_false_iff in Hl. apply Hl.
Qed.

(** *** Literals *)

Lemma rmatch_lit_of : forall w k p r cs,
  rmatch (lit_of w) k (MState p (w ++ r) cs) = k (MState (last_char w p) r cs).
Proof.
  induction w as [|c w IH]; intros k p r cs; [reflexivity|].
  destruct w as [|d w].
  - simpl. unfold eqc. rewrite Ascii.eqb_refl. reflexivity.
  - change (lit_of (c :: d :: w)) with (Seq (ch c) (lit_of (d :: w))).
    change ((c :: d :: w) ++ r) with (c :: (d :: w) ++ r).
    cbn [rmatch ch rest caps]. unfold eqc at 1. rewrite Ascii.eqb_refl.
    rewrite IH. reflexivity.
Qed.

(** *** The lazy capture [(.*?)] before a closing parenthesis *)

Lemma lazy_dot_stops_at_rparen K tail out : forall args fuel p cs,
  length args <= fuel ->
  forallb plain_char args = true ->
  (forall p' c r cs', eqc c ")" = false -> K (MState p' (c :: r) cs') = None) ->
  K (MState (last_char args p) (")"%char :: tail) cs) = Some out ->
  star_loop false (rmatch dot) K fuel (MState p (args ++ ")"%char :: tail) cs)
  = Some out.
Proof.
  induction args as [|c a IH]; intros fuel p cs Hlen Hargs HK Hout.
  - simpl in *. destruct fuel; simpl; [assumption|].
    rewrite Hout. reflexivity.
  - destruct fuel as [|fuel]; [simpl in Hlen; lia|].
    simpl in Hargs. apply andb_true_iff in Hargs. destruct Hargs as [Hc Ha].
    unfold plain_char in Hc. apply andb_true_iff in Hc. destruct Hc as [Hc1 Hc2].
    apply negb_true_iff in Hc2.
    cbn [star_loop app]. rewrite (HK _ _ _ _ Hc2). cbn [orelse].
    cbn [rmatch dot rest caps]. rewrite Hc1.
    replace (length (a ++ ")"%char :: tail) <? length (c :: a ++ ")"%char :: tail))
      with true by (symmetry; apply Nat.ltb_lt; simpl; lia).
    apply IH; auto. simpl in Hlen; lia.
Qed.

(** A one-capture rule at a call: the capture is the text up to the first
    closing parenthesis. *)
Lemma exec_call1 name p args tail :
  forallb plain_char args = true ->
  exec (call1 name) p (js name ++ "("%char :: args ++ ")"%char :: tail)
  = Some (MState (Some ")"%char) tail [(1, args)]).
Proof.
  intro Hargs. unfold exec, call1, lit.
  cbn [seq]. cbn [rmatch]. rewrite rmatch_lit_of.
  cbn [rmatch ch rest caps prev]. unfold eqc at 1. rewrite Ascii.eqb_refl.
  unfold lazy_star. cbn [rmatch rest].
  apply lazy_dot_stops_at_rparen.
  - rewrite length_app. lia.
  - exact Hargs.
  - intros p' c r cs' Hc. cbn [rmatch ch rest prev caps].
    unfold eqc in *. rewrite Ascii.eqb_sym, Hc. reflexivity.
  - cbn [rmatch ch rest prev caps]. unfold eqc. rewrite Ascii.eqb_refl.
    rewrite (consumed_app args (")"%char :: tail)). reflexivity.
Qed.

(** *** Replacing at a match *)

Lemma scan_skip r rp : forall a b p,
  scan r rp p (a ++ b) (length a) = scan r rp (last_char a p) b 0.
Proof.
  induction a as [|c a IH]; intros b p; [reflexivity|].
  simpl. apply IH.
Qed.

Lemma scan_at_match r rp p m tail cs p' :
  m <> [] ->
  exec r p (m ++ tail) = Some (MState p' tail cs) ->
  scan r rp p (m ++ tail) 0
  = substitute rp m cs ++ scan r rp (last_char m p) tail 0.
Proof.
  intros Hm H. destruct m as [|c m]; [congruence|].
  change ((c :: m) ++ tail) with (c :: m ++ tail) in *.
  cbn [scan]. rewrite H. cbn [rest caps].
  change (c :: m ++ tail) with ((c :: m) ++ tail).
  rewrite consumed_app. cbn [length]. rewrite scan_skip. reflexivity.
Qed.

Lemma call_text name args tail :
  js name ++ "("%char :: args ++ ")"%char :: tail
  = (js name ++ "("%char :: args ++ [")"%char]) ++ tail.
Proof.
  rewrite <- app_assoc. simpl. rewrite <- app_assoc. reflexivity.
Qed.

Lemma last_char_call name args p :
  last_char (js name ++ "("%char :: args ++ [")"%char]) p = Some ")"%char.
Proof.
  unfold last_char. rewrite fold_left_app. simpl.
  rewrite fold_left_app. reflexivity.
Qed.

(** The global replacement at a call of a one-capture rule. *)
Lemma replace_call1 name rp p args tail :
  forallb plain_char args = true ->
  scan (call1 name) rp p (js name ++ "("%char :: args ++ ")"%char :: tail) 0
  = substitute rp (js name ++ "("%char :: args ++ [")"%char]) [(1, args)]
    ++ scan (call1 name) rp (Some ")"%char) tail 0.
Proof.
  intro Hargs. pose proof (exec_call1 name p args tail Hargs) as He.
  rewrite call_text in *.
  assert (Hne : js name ++ "("%char :: args ++ [")"%char] <> [])
    by (destruct (js name); discriminate).
  rewrite (scan_at_match _ _ _ _ _ _ _ Hne He).
  rewrite last_char_call. reflexivity.
Qed.

(** *** A literal pattern *)

Lemma rmatch_lit_of_miss : forall w k p l cs,
  startsWith l w = false -> rmatch (lit_of w) k (MState p l cs) = None.
Proof.
  induction w as [|c w IH]; intros k p l cs H; [discriminate|].
  destruct l as [|d l].
  - destruct w; reflexivity.
  - simpl in H. unfold eqc in H. destruct (Ascii.eqb c d) eqn:E.
    + simpl in H. destruct w as [|e w]; [discriminate|].
      change (lit_of (c :: e :: w)) with (Seq (ch c) (lit_of (e :: w))).
      cbn [rmatch ch rest caps]. unfold eqc. rewrite E. apply IH, H.
    + destruct w as [|e w].
      * cbn [lit_of rmatch ch rest]. unfold eqc. rewrite E. reflexivity.
      * change (lit_of (c :: e :: w)) with (Seq (ch c) (lit_of (e :: w))).
        cbn [rmatch ch rest]. unfold eqc. rewrite E. reflexivity.
Qed.

Section Literal.
Variables (w m : str).
Hypothesis w_not_empty : w <> [].

Lemma scan_lit_hit p l :
  startsWith l w = true ->
  scan (lit_of w) (Template m) p l 0
  = expand m [] ++ scan (lit_of w) (Template m) (last_char w p) (skipn (length w) l) 0.
Proof.
  intro H. pose proof (startsWith_split _ _ H) as E.
  set (tail := skipn (length w) l) in *. clearbody tail. subst l.
  assert (He : exec (lit_of w) p (w ++ tail) = Some (MState (last_char w p) tail [])).
  { unfold exec. rewrite rmatch_lit_of. reflexivity. }
  rewrite (scan_at_match _ _ _ _ _ _ _ w_not_empty He). reflexivity.
Qed.

Lemma scan_lit_miss p c t :
  startsWith (c :: t) w = false ->
  scan (lit_of w) (Template m) p (c :: t) 0 = c :: scan (lit_of w) (Template m) (Some c) t 0.
Proof.
  intro H. cbn [scan]. unfold exec.
  rewrite rmatch_lit_of_miss by exact H. reflexivity.
Qed.

Lemma scan_lit_nil p : scan (lit_of w) (Template m) p [] 0 = [].
Proof.
  cbn [scan]. unfold exec. rewrite rmatch_lit_of_miss; [reflexivity|].
  destruct w; [congruence|reflexivity].
Qed.

(** Every occurrence of the word in the text is replaced: the first one
    already puts the replacement in the output. *)
Lemma scan_lit_includes : forall l p,
  includes l w = true -> includes (scan (lit_of w) (Template m) p l 0) (expand m []) = true.
Proof.
  induction l as [|c t IH]; intros p H.
  - simpl in H. rewrite orb_false_r in H.
    destruct w; [congruence|discriminate].
  - destruct (startsWith (c :: t) w) eqn:E.
    + rewrite scan_lit_hit by exact E.
      apply includes_starts, startsWith_app.
    + rewrite scan_lit_miss by exact E.
      apply includes_cons, IH.
      simpl in H. simpl in E. rewrite E in H. exact H.
Qed.
End Literal.

End RegexFacts.

(* ================================================================== *)
(** ** Facts about the rules and the formatters *)

Module ParserFacts.
Import Chars Js Regex Parser Analysis.
Import StringFacts RegexFacts.

Lemma apply_mappings_fixed ms x :
  (forall m, In m ms -> apply_mapping x m = x) -> apply_mappings ms x = x.
Proof.
  unfold apply_mappings. induction ms as [|m ms IH]; intro H; simpl; auto.
  rewrite (H m) by (left; reflexivity). apply IH.
  intros m' Hm'. apply H. right; assumption.
Qed.

Lemma apply_mappings_split x :
  apply_mappings functionMappings x
  = apply_mappings auto_increment_mappings
      (apply_mappings case_sensitive_mappings x).
Proof.
  unfold apply_mappings, auto_increment_mappings, case_sensitive_mappings.
  rewrite <- fold_left_app, firstn_skipn. reflexivity.
Qed.

(** The rules without the [i] flag all need an upper-case letter, and a
    character that no spelling of [AUTO_INCREMENT] has. *)
Lemma case_sensitive_need_foreign :
  forallb (fun m => needs (foreign_to (js "AUTO_INCREMENT")) (regex m))
          case_sensitive_mappings = true.
Proof. vm_cast_no_check (eq_refl true). Qed.

Lemma case_sensitive_need_upper :
  forallb (fun m => needs_upper (regex m)) case_sensitive_mappings = true.
Proof. vm_cast_no_check (eq_refl true). Qed.

(** *** Spellings of a word in other letter cases *)

Lemma in_all_chars c : In c all_chars.
Proof.
  unfold all_chars. rewrite <- (ascii_nat_embedding c).
  apply in_map, in_seq. pose proof (nat_ascii_bounded c). lia.
Qed.

Lemma in_spellings : forall v, In v (spellings (toUpperCase v)).
Proof.
  induction v as [|c v IH]; simpl; [left; reflexivity|].
  apply in_flat_map. exists c. split.
  - unfold preimages. apply filter_In. split; [apply in_all_chars|].
    unfold eqc. apply Ascii.eqb_refl.
  - apply in_map, IH.
Qed.

Lemma str_eqb_eq : forall a b, str_eqb a b = true -> a = b.
Proof.
  induction a as [|x a IH]; intros [|y b] H; simpl in H; try discriminate; auto.
  apply andb_true_iff in H. destruct H as [H1 H2].
  apply Ascii.eqb_eq in H1. apply IH in H2. subst. reflexivity.
Qed.

Lemma has_foreign_spelling : forall v,
  has (foreign_to (toUpperCase v)) v = false.
Proof.
  intro v. unfold has. apply not_true_is_false. intro H.
  apply existsb_exists in H. destruct H as (c & Hin & Hc).
  unfold foreign_to in Hc. apply negb_true_iff in Hc.
  apply not_true_iff_false in Hc. apply Hc.
  apply existsb_exists. exists (to_upper c). split.
  - unfold toUpperCase. apply in_map, Hin.
  - unfold eqc. apply Ascii.eqb_refl.
Qed.

Lemma auto_increment_spellings :
  forallb (fun v => str_eqb (apply_mappings auto_increment_mappings v)
                      (js "PRIMARY KEY AUTOINCREMENT"))
          (spellings (js "AUTO_INCREMENT")) = true.
Proof. vm_cast_no_check (eq_refl true). Qed.

(** The rules without the [i] flag leave a text alone when it lacks a
    character that each of them needs. *)
Lemma case_sensitive_fixed P x :
  forallb (fun m => needs P (regex m)) case_sensitive_mappings = true ->
  has P x = false ->
  apply_mappings case_sensitive_mappings x = x.
Proof.
  intros Hall Hx. apply apply_mappings_fixed. intros m Hm.
  rewrite forallb_forall in Hall. specialize (Hall m Hm).
  unfold apply_mapping. apply replace_all_no_match.
  apply (needs_no_match P); assumption.
Qed.

(** *** The rollup marker *)

Lemma rollup_not_empty : rollup <> [].
Proof. discriminate. Qed.

Lemma rollup_hit p l :
  startsWith l rollup = true ->
  rollup_scan p l
  = rollup_marker ++ rollup_scan (Some "P"%char) (skipn 11 l).
Proof.
  intro H. exact (scan_lit_hit rollup rollup_marker rollup_not_empty p l H).
Qed.

Lemma rollup_miss p c t :
  startsWith (c :: t) rollup = false ->
  rollup_scan p (c :: t) = c :: rollup_scan (Some c) t.
Proof. exact (scan_lit_miss rollup rollup_marker p c t). Qed.

Lemma rollup_nil p : rollup_scan p [] = [].
Proof. exact (scan_lit_nil rollup rollup_marker rollup_not_empty p). Qed.

(** The output starts with a text that has no slash only where the input
    does: a replacement starts with a slash. *)
Lemma rollup_scan_starts : forall v l p,
  forallb (fun c => negb (eqc c "/"%char)) v = true ->
  startsWith (rollup_scan p l) v = true -> startsWith l v = true.
Proof.
  induction v as [|x v IH]; intros l p Hv H; [reflexivity|].
  simpl in Hv. apply andb_true_iff in Hv. destruct Hv as [Hx Hv].
  destruct l as [|c t].
  - rewrite rollup_nil in H. discriminate.
  - destruct (startsWith (c :: t) rollup) eqn:E.
    + rewrite rollup_hit in H by exact E.
      cbn [rollup_marker js list_ascii_of_string app startsWith] in H.
      apply andb_true_iff in H. destruct H as [H _].
      apply negb_true_iff in Hx. congruence.
    + rewrite rollup_miss in H by exact E.
      cbn [startsWith] in *. apply andb_true_iff in H. destruct H as [H1 H2].
      rewrite H1. apply (IH _ _ Hv H2).
Qed.

Lemma skipn_marker_app i out :
  skipn (31 + i) (rollup_marker ++ out) = skipn i out.
Proof. reflexivity. Qed.

(** In the output of the replacement, [WITH ROLLUP] occurs only inside the
    marker comments. *)
Lemma rollup_scan_safe : forall n l p i,
  length l <= n ->
  occurs_at rollup (rollup_scan p l) i -> inside_marker (rollup_scan p l) i.
Proof.
  unfold inside_marker, occurs_at.
  induction n as [|n IH]; intros l p i Hlen H.
  - destruct l; [|simpl in Hlen; lia].
    rewrite rollup_nil in H. destruct i; discriminate.
  - destruct l as [|c t].
    { rewrite rollup_nil in H. destruct i; discriminate. }
    destruct (startsWith (c :: t) rollup) eqn:E.
    + rewrite rollup_hit in * by exact E.
      set (out := rollup_scan (Some "P"%char) (skipn 11 (c :: t))) in *.
      assert (Hout : forall j, startsWith (skipn j out) rollup = true ->
                3 <= j /\ startsWith (skipn (j - 3) out) rollup_marker = true).
      { intros j Hj. apply IH; auto.
        pose proof (startsWith_split _ _ E) as Es.
        apply (f_equal (@length ascii)) in Es.
        rewrite length_app in Es. simpl in Es, Hlen. simpl. lia. }
      clearbody out.
      destruct (le_lt_dec 31 i) as [Hi|Hi].
      * replace i with (31 + (i - 31)) in H |- * by lia.
        rewrite skipn_marker_app in H. apply Hout in H. destruct H as [H3 H].
        split; [lia|].
        replace (31 + (i - 31) - 3) with (31 + (i - 31 - 3)) by lia.
        rewrite skipn_marker_app. exact H.
      * do 31 (destruct i as [|i];
               [ first [ cbn in H; discriminate
                       | split; [lia | apply (startsWith_app rollup_marker)] ]
               | ]).
        lia.
    + destruct i as [|i].
      * simpl skipn in H. apply rollup_scan_starts in H; [congruence|reflexivity].
      * rewrite rollup_miss in * by exact E.
        simpl skipn in H. apply IH in H; [|simpl in Hlen; lia].
        destruct H as [H3 H]. split; [lia|].
        replace (S i - 3) with (S (i - 3)) by lia. exact H.
Qed.

(** *** Compact one-line statements *)

Lemma compact_from_head b c t :
  compact_from b (c :: t) = true ->
  (is_space c = false /\ compact_from true t = true)
  \/ (c = space /\ b = true /\ compact_from false t = true).
Proof.
  simpl. destruct (is_space c) eqn:E; intro H.
  - right. apply andb_true_iff in H. destruct H as [H Ht].
    apply andb_true_iff in H. destruct H as [Hc Hb].
    apply Ascii.eqb_eq in Hc. auto.
  - left. auto.
Qed.

Lemma compact_from_false_head t :
  compact_from false t = true ->
  exists d t', t = d :: t' /\ is_space d = false.
Proof.
  destruct t as [|d t']; [discriminate|]. intro H.
  apply compact_from_head in H. destruct H as [[H _]|(_ & H & _)].
  - eauto.
  - discriminate.
Qed.

Lemma scan_step_none r rp p c t :
  exec r p (c :: t) = None ->
  scan r rp p (c :: t) 0 = c :: scan r rp (Some c) t 0.
Proof. intro H. cbn [scan]. rewrite H. reflexivity. Qed.

(** A run of white space in a compact statement is one space, which the
    replacement by a space writes back. *)
Lemma compact_scan_class (C : ascii -> bool) :
  (forall c, C c = true -> is_space c = true) ->
  forall s b p,
    compact_from b s = true ->
    scan (plus (Chr C)) (Template [space]) p s 0 = s.
Proof.
  intros HC. induction s as [|c t IH]; intros b p H.
  - reflexivity.
  - apply compact_from_head in H.
    destruct H as [[Hc Ht]|(Hc & Hb & Ht)].
    + assert (E : C c = false).
      { destruct (C c) eqn:E; auto. apply HC in E. congruence. }
      rewrite scan_step_none.
      * rewrite (IH _ _ Ht). reflexivity.
      * unfold exec, plus. cbn [rmatch rest]. rewrite E. reflexivity.
    + subst c. destruct (compact_from_false_head _ Ht) as (d & t' & -> & Hd).
      assert (E : C d = false).
      { destruct (C d) eqn:E; auto. apply HC in E. congruence. }
      destruct (C space) eqn:Es.
      * assert (He : exec (plus (Chr C)) p ([space] ++ d :: t')
                     = Some (MState (Some space) (d :: t') [])).
        { unfold exec, plus. cbn [app rmatch rest caps]. rewrite Es.
          cbn [star_loop length rmatch rest]. rewrite E. reflexivity. }
        change (space :: d :: t') with ([space] ++ d :: t').
        assert (Hne : [space] <> []) by discriminate.
        rewrite (scan_at_match _ _ _ _ _ _ _ Hne He).
        rewrite (IH _ _ Ht). reflexivity.
      * rewrite scan_step_none.
        -- rewrite (IH _ _ Ht). reflexivity.
        -- unfold exec, plus. cbn [rmatch rest]. rewrite Es. reflexivity.
Qed.

Lemma compact_from_spaces : forall s b,
  compact_from b s = true ->
  forallb (fun c => negb (is_space c) || eqc c space) s = true.
Proof.
  induction s as [|c t IH]; intros b H; [reflexivity|].
  apply compact_from_head in H. simpl.
  destruct H as [[Hc Ht]|(Hc & Hb & Ht)].
  - rewrite Hc, (IH _ Ht). reflexivity.
  - subst c. rewrite (IH _ Ht). reflexivity.
Qed.

Lemma compact_from_last : forall s b,
  compact_from b s = true -> s <> [] ->
  exists s' c, s = s' ++ [c] /\ is_space c = false.
Proof.
  induction s as [|c t IH]; intros b H Hne; [congruence|].
  apply compact_from_head in H. destruct t as [|d t].
  - destruct H as [[Hc _]|(_ & _ & Ht)]; [|discriminate].
    exists [], c. auto.
  - assert (Ht : exists b', compact_from b' (d :: t) = true)
      by (destruct H as [[_ Ht]|(_ & _ & Ht)]; eauto).
    destruct Ht as (b' & Ht).
    destruct (IH _ Ht) as (s' & e & Es & He); [discriminate|].
    exists (c :: s'), e. rewrite Es. auto.
Qed.

Lemma compact_trim s : compact s = true -> trim s = s.
Proof.
  destruct s as [|c t]; [reflexivity|]. unfold compact. intro H.
  destruct (compact_from_false_head _ H) as (d & t' & E & Hd).
  injection E as <- <-.
  unfold trim. cbn [trimStart]. rewrite Hd.
  destruct (compact_from_last _ _ H) as (s' & e & Es & He); [discriminate|].
  unfold trimEnd. rewrite Es, rev_app_distr. cbn [rev app trimStart].
  rewrite He. change (e :: rev s') with (rev [e] ++ rev s').
  rewrite <- rev_app_distr, rev_involutive. reflexivity.
Qed.

Lemma compact_no_newline s :
  compact s = true -> forallb (fun c => negb (eqc c newline)) s = true.
Proof.
  intro H. assert (Hs : forallb (fun c => negb (is_space c) || eqc c space) s = true).
  { destruct s; [reflexivity|]. apply (compact_from_spaces _ false H). }
  rewrite forallb_forall in *. intros c Hc. specialize (Hs c Hc).
  destruct (eqc c newline) eqn:E; [|reflexivity].
  apply Ascii.eqb_eq in E. subst c. discriminate.
Qed.

Lemma blank_lines_need_newline :
  needs (eqc newline) re_blank_lines = true.
Proof. vm_cast_no_check (eq_refl true). Qed.

Lemma cleanup_compact s :
  matches_in re_table_options s = false ->
  compact s = true -> cleanup s = s.
Proof.
  intros Hopt Hc. unfold cleanup.
  rewrite (replace_all_no_match _ _ _ Hopt).
  assert (Hb : replace_all re_blanks (tpl " ") s = s).
  { destruct s as [|c t]; [reflexivity|].
    apply (compact_scan_class _) with (b := false); [|exact Hc].
    intros c0 H. apply orb_true_iff in H.
    destruct H as [H|H]; apply Ascii.eqb_eq in H; subst; reflexivity. }
  rewrite Hb.
  rewrite replace_all_no_match.
  - apply compact_trim, Hc.
  - apply (needs_no_match (eqc newline)); [apply blank_lines_need_newline|].
    apply not_true_is_false. intro H. apply existsb_exists in H.
    destruct H as (c & Hin & Hc').
    pose proof (compact_no_newline s Hc) as Hn.
    rewrite forallb_forall in Hn. specialize (Hn c Hin).
    unfold eqc in *. rewrite Ascii.eqb_sym, Hc' in Hn. discriminate.
Qed.

Lemma formatSQL_compact s : compact s = true -> formatSQL s = s.
Proof.
  intro Hc. unfold formatSQL.
  destruct (negb (includes s [newline])
            && negb (includes (toLowerCase s) (js "case when"))
            && negb (includes (toLowerCase s) (js "group by"))).
  - assert (Hs : replace_all re_spaces (Template (js " ")) s = s).
    { destruct s as [|c t]; [reflexivity|].
      apply (compact_scan_class _) with (b := false); [|exact Hc]. auto. }
    rewrite Hs. apply compact_trim, Hc.
  - unfold lines_of.
    rewrite (split_no_sep _ _ (compact_no_newline s Hc)).
    cbn [map]. rewrite (compact_trim s Hc).
    destruct s as [|c t]; [reflexivity|].
    cbn [filter truthy formatSQL_loop join].
    destruct (starts_clause (c :: t)); reflexivity.
Qed.

End ParserFacts.

(* ================================================================== *)
(** ** Facts about runs of characters and the character before a match *)

Module RunFacts.
Import Chars Js Regex Parser Analysis Shapes.
Import StringFacts RegexFacts ParserFacts.

(** *** Quantifiers over a run of characters *)

(** The lazy [.*?] before a delimiter [d]: it passes over a text without
    [d] and without line terminators when the continuation accepts only
    at [d]. *)
Lemma lazy_dot_stops_at d K tail out : forall args fuel p cs,
  length args <= fuel ->
  forallb (upto d) args = true ->
  (forall p' c r cs', eqc c d = false -> K (MState p' (c :: r) cs') = None) ->
  K (MState (last_char args p) (d :: tail) cs) = Some out ->
  star_loop false (rmatch dot) K fuel (MState p (args ++ d :: tail) cs)
  = Some out.
Proof.
  induction args as [|c a IH]; intros fuel p cs Hlen Hargs HK Hout.
  - simpl in *. destruct fuel; simpl; [assumption|].
    rewrite Hout. reflexivity.
  - destruct fuel as [|fuel]; [simpl in Hlen; lia|].
    simpl in Hargs. apply andb_true_iff in Hargs. destruct Hargs as [Hc Ha].
    unfold upto in Hc. apply andb_true_iff in Hc. destruct Hc as [Hc1 Hc2].
    apply negb_true_iff in Hc2.
    cbn [star_loop app]. rewrite (HK _ _ _ _ Hc2). cbn [orelse].
    cbn [rmatch dot rest caps]. rewrite Hc1.
    replace (length (a ++ d :: tail) <? length (c :: a ++ d :: tail))
      with true by (symmetry; apply Nat.ltb_lt; simpl; lia).
    apply IH; auto. simpl in Hlen; lia.
Qed.

Lemma orelse_some {A} (a b : option A) x :
  a = Some x -> orelse a b = Some x.
Proof. intros ->. reflexivity. Qed.

(** The greedy [C*] takes the whole run when the continuation accepts
    after it. *)
Lemma greedy_run C k tail out : forall run fuel p cs,
  length run <= fuel ->
  forallb C run = true ->
  stops C tail = true ->
  k (MState (last_char run p) tail cs) = Some out ->
  star_loop true (rmatch (Chr C)) k fuel (MState p (run ++ tail) cs) = Some out.
Proof.
  induction run as [|c r IH]; intros fuel p cs Hlen Hrun Hstop Hout.
  - simpl in *. destruct fuel; simpl; [assumption|].
    destruct tail as [|d t]; cbn [rmatch rest orelse]; [assumption|].
    simpl in Hstop. apply negb_true_iff in Hstop. rewrite Hstop.
    cbn [orelse]. assumption.
  - destruct fuel as [|fuel]; [simpl in Hlen; lia|].
    simpl in Hrun. apply andb_true_iff in Hrun. destruct Hrun as [Hc Hr].
    cbn [star_loop app rmatch rest caps]. rewrite Hc.
    replace (length (r ++ tail) <? length (c :: r ++ tail))
      with true by (symmetry; apply Nat.ltb_lt; simpl; lia).
    apply orelse_some. apply IH; auto. simpl in Hlen; lia.
Qed.

(** [C+] on a non-empty run. *)
Lemma plus_run C k tail out c run p cs :
  C c = true -> forallb C run = true -> stops C tail = true ->
  k (MState (last_char (c :: run) p) tail cs) = Some out ->
  rmatch (plus (Chr C)) k (MState p (c :: run ++ tail) cs) = Some out.
Proof.
  intros Hc Hrun Hstop Hout. unfold plus. cbn [rmatch rest caps]. rewrite Hc.
  apply greedy_run; auto. rewrite length_app. lia.
Qed.

(** [C*] on a run that may be empty. *)
Lemma star_run C k tail out run p cs :
  forallb C run = true -> stops C tail = true ->
  k (MState (last_char run p) tail cs) = Some out ->
  rmatch (star (Chr C)) k (MState p (run ++ tail) cs) = Some out.
Proof.
  intros Hrun Hstop Hout. unfold star. cbn [rmatch rest].
  apply greedy_run; auto. rewrite length_app. lia.
Qed.

Lemma arg_char_upto_comma a :
  forallb arg_char a = true -> forallb (upto ","%char) a = true.
Proof.
  intro H. rewrite forallb_forall in *. intros c Hc. specialize (H c Hc).
  unfold arg_char, plain_char, upto in *.
  apply andb_true_iff in H. destruct H as [H1 H2].
  apply andb_true_iff in H1. destruct H1 as [H1 _].
  rewrite H1, H2. reflexivity.
Qed.

Lemma arg_char_upto_rparen a :
  forallb arg_char a = true -> forallb (upto ")"%char) a = true.
Proof.
  intro H. rewrite forallb_forall in *. intros c Hc. specialize (H c Hc).
  unfold arg_char, plain_char, upto in *.
  apply andb_true_iff in H. destruct H as [H1 _]. exact H1.
Qed.

Ltac chr_ok := cbn [rmatch ch rest prev caps]; unfold eqc at 1;
               rewrite Ascii.eqb_refl.
Ltac chr_fails Hc := intros; cbn [rmatch ch rest prev caps];
                     unfold eqc in *; rewrite Ascii.eqb_sym, Hc; reflexivity.

(** A two-capture rule at a call with two arguments. *)
Lemma exec_call2 name p a b tail :
  forallb arg_char a = true -> forallb arg_char b = true ->
  exec (call2 name) p
       (js name ++ "("%char :: a ++ ","%char :: b ++ ")"%char :: tail)
  = Some (MState (Some ")"%char) tail [(2, b); (1, a)]).
Proof.
  intros Ha Hb. unfold exec, call2, lit.
  cbn [seq]. cbn [rmatch]. rewrite rmatch_lit_of.
  chr_ok. unfold lazy_star. cbn [rmatch rest].
  apply lazy_dot_stops_at.
  - rewrite length_app. lia.
  - apply arg_char_upto_comma, Ha.
  - intros p' c r cs' Hc. chr_fails Hc.
  - cbn [prev rest caps].
    rewrite (consumed_app a (","%char :: b ++ ")"%char :: tail)).
    chr_ok. cbn [rmatch rest].
    apply lazy_dot_stops_at.
    + rewrite length_app. lia.
    + apply arg_char_upto_rparen, Hb.
    + intros p' c r cs' Hc. chr_fails Hc.
    + cbn [prev rest caps].
      rewrite (consumed_app b (")"%char :: tail)).
      chr_ok. reflexivity.
Qed.

(** The three-capture rule at a call with three arguments. *)
Lemma exec_call3 name p a b c tail :
  forallb arg_char a = true -> forallb arg_char b = true ->
  forallb arg_char c = true ->
  exec (call3 name) p
       (js name ++ "("%char :: a ++ ","%char :: b ++ ","%char :: c
        ++ ")"%char :: tail)
  = Some (MState (Some ")"%char) tail [(3, c); (2, b); (1, a)]).
Proof.
  intros Ha Hb Hc. unfold exec, call3, lit.
  cbn [seq]. cbn [rmatch]. rewrite rmatch_lit_of.
  chr_ok. unfold lazy_star. cbn [rmatch rest].
  apply lazy_dot_stops_at.
  - rewrite length_app. lia.
  - apply arg_char_upto_comma, Ha.
  - intros p' c0 r cs' H0. chr_fails H0.
  - cbn [prev rest caps].
    rewrite (consumed_app a (","%char :: b ++ ","%char :: c ++ ")"%char :: tail)).
    chr_ok. cbn [rmatch rest].
    apply lazy_dot_stops_at.
    + rewrite length_app. lia.
    + apply arg_char_upto_comma, Hb.
    + intros p' c0 r cs' H0. chr_fails H0.
    + cbn [prev rest caps].
      rewrite (consumed_app b (","%char :: c ++ ")"%char :: tail)).
      chr_ok. cbn [rmatch rest].
      apply lazy_dot_stops_at.
      * rewrite length_app. lia.
      * apply arg_char_upto_rparen, Hc.
      * intros p' c0 r cs' H0. chr_fails H0.
      * cbn [prev rest caps].
        rewrite (consumed_app c (")"%char :: tail)).
        chr_ok. reflexivity.
Qed.

Lemma alike_orelse a a' b b' :
  alike_opt a a' -> alike_opt b b' -> alike_opt (orelse a b) (orelse a' b').
Proof. destruct a, a'; simpl; intros; tauto. Qed.

Lemma star_loop_alike greedy body body' k k' :
  (forall k1 k1' s s',
     (forall t t', alike t t' -> alike_opt (k1 t) (k1' t')) ->
     alike s s' -> alike_opt (body k1 s) (body' k1' s')) ->
  (forall t t', alike t t' -> alike_opt (k t) (k' t')) ->
  forall fuel s s', alike s s' ->
  alike_opt (star_loop greedy body k fuel s) (star_loop greedy body' k' fuel s').
Proof.
  intros Hbody Hk. induction fuel as [|fuel IH]; intros s s' Hs; simpl.
  - apply Hk, Hs.
  - assert (Hagain : alike_opt
      (body (fun t => if length (rest t) <? length (rest s)
                      then star_loop greedy body k fuel t else None) s)
      (body' (fun t => if length (rest t) <? length (rest s')
                       then star_loop greedy body' k' fuel t else None) s')).
    { apply Hbody; [|exact Hs]. intros t t' Ht.
      destruct Hs as (_ & Hr & _). destruct Ht as (Hp & Hr' & Hc').
      rewrite Hr, Hr'. destruct (length (rest t') <? length (rest s')).
      - apply IH. repeat split; assumption.
      - exact I. }
    destruct greedy; apply alike_orelse; auto.
Qed.

Lemma rmatch_alike r : forall k k' s s',
  (forall t t', alike t t' -> alike_opt (k t) (k' t')) ->
  alike s s' -> alike_opt (rmatch r k s) (rmatch r k' s').
Proof.
  induction r as [|p|r1 IH1 r2 IH2|r1 IH1 r2 IH2|g r1 IH1|n r1 IH1| |];
    intros k k' s s' Hk Hs; cbn [rmatch].
  - apply Hk, Hs.
  - destruct Hs as (Hp & Hr & Hc). rewrite Hr, Hc.
    destruct (rest s') as [|c t]; [exact I|].
    destruct (p c); [|exact I]. apply Hk. repeat split.
  - apply IH1; [|exact Hs]. intros t t' Ht. apply IH2; assumption.
  - apply alike_orelse; [apply IH1|apply IH2]; assumption.
  - destruct Hs as (Hp & Hr & Hc). rewrite Hr.
    apply star_loop_alike.
    + intros k1 k1' t t' Hk1 Ht. apply IH1; assumption.
    + exact Hk.
    + repeat split; assumption.
  - apply IH1; [|exact Hs]. intros t t' Ht. apply Hk.
    destruct Hs as (_ & Hr & _). destruct Ht as (Hp' & Hr' & Hc').
    unfold alike; cbn [prev rest caps]. rewrite Hr, Hr', Hc'. auto.
  - unfold at_word_boundary. destruct Hs as (Hp & Hr & Hc).
    rewrite Hp, Hr.
    destruct (xorb (is_word_opt (prev s')) (is_word_opt (hd_error (rest s'))));
      [|exact I].
    apply Hk. repeat split; assumption.
  - destruct Hs as (Hp & Hr & Hc). rewrite Hr.
    destruct (rest s') eqn:E; [|exact I]. apply Hk.
    repeat split; try assumption. congruence.
Qed.

Lemma exec_alike r p p' l :
  is_word_opt p = is_word_opt p' -> alike_opt (exec r p l) (exec r p' l).
Proof.
  intro H. unfold exec. apply rmatch_alike.
  - intros t t' Ht. exact Ht.
  - repeat split. exact H.
Qed.

Lemma scan_alike r rp : forall l n p p',
  is_word_opt p = is_word_opt p' -> scan r rp p l n = scan r rp p' l n.
Proof.
  induction l as [|c t IH]; intros n p p' H.
  - cbn [scan]. destruct n; [|reflexivity].
    pose proof (exec_alike r p p' [] H) as Ha.
    destruct (exec r p []) as [s|], (exec r p' []) as [s'|];
      simpl in Ha; try contradiction; [|reflexivity].
    destruct Ha as (_ & _ & Hc). rewrite Hc. reflexivity.
  - cbn [scan]. destruct n; [|reflexivity].
    pose proof (exec_alike r p p' (c :: t) H) as Ha.
    destruct (exec r p (c :: t)) as [s|], (exec r p' (c :: t)) as [s'|];
      simpl in Ha; try contradiction; [|reflexivity].
    destruct Ha as (_ & Hr & Hc). rewrite Hr, Hc. reflexivity.
Qed.

(** After a character that is not a word character the scan goes on as
    from the start of a text. *)
Lemma scan_after_nonword r rp c tail :
  is_word c = false -> scan r rp (Some c) tail 0 = replace_all r rp tail.
Proof. intro H. apply scan_alike. simpl. exact H. Qed.

End RunFacts.

(* ================================================================== *)
(** ** Facts about the rules of [functionMappings] *)

Module RuleFacts.
Import Chars Js Regex Parser Analysis Shapes.
Import StringFacts RegexFacts ParserFacts RunFacts.

(** *** Rewriting a call at the start of a text *)

Lemma replace_at_start r rp m tail cs c p' :
  m <> [] -> last_char m None = Some c -> is_word c = false ->
  exec r None (m ++ tail) = Some (MState p' tail cs) ->
  replace_all r rp (m ++ tail)
  = substitute rp m cs ++ replace_all r rp tail.
Proof.
  intros Hm Hl Hc He. unfold replace_all at 1.
  rewrite (scan_at_match _ _ _ _ _ _ _ Hm He), Hl.
  rewrite (scan_after_nonword _ _ _ _ Hc). reflexivity.
Qed.

Lemma last_char_snoc m c p : last_char (m ++ [c]) p = Some c.
Proof. unfold last_char. rewrite fold_left_app. reflexivity. Qed.

Ltac norm_app :=
  repeat (rewrite <- app_assoc || rewrite <- app_comm_cons); cbn [app].

Ltac app_eq := norm_app; reflexivity.

Lemma replace_call2 name rp a b tail :
  forallb arg_char a = true -> forallb arg_char b = true ->
  replace_all (call2 name) rp
    (js name ++ "("%char :: a ++ ","%char :: b ++ ")"%char :: tail)
  = substitute rp (js name ++ "("%char :: a ++ ","%char :: b ++ [")"%char])
      [(2, b); (1, a)]
    ++ replace_all (call2 name) rp tail.
Proof.
  intros Ha Hb. pose proof (exec_call2 name None a b tail Ha Hb) as He.
  assert (E : js name ++ "("%char :: a ++ ","%char :: b ++ ")"%char :: tail
              = (js name ++ "("%char :: a ++ ","%char :: b ++ [")"%char]) ++ tail)
    by app_eq.
  rewrite E in *.
  apply (replace_at_start _ _ _ _ _ ")"%char (Some ")"%char)); auto.
  - destruct (js name); discriminate.
  - replace (js name ++ "("%char :: a ++ ","%char :: b ++ [")"%char])
      with ((js name ++ "("%char :: a ++ ","%char :: b) ++ [")"%char])
      by app_eq.
    apply last_char_snoc.
Qed.

Lemma replace_call3 name rp a b c tail :
  forallb arg_char a = true -> forallb arg_char b = true ->
  forallb arg_char c = true ->
  replace_all (call3 name) rp
    (js name ++ "("%char :: a ++ ","%char :: b ++ ","%char :: c
     ++ ")"%char :: tail)
  = substitute rp
      (js name ++ "("%char :: a ++ ","%char :: b ++ ","%char :: c
       ++ [")"%char])
      [(3, c); (2, b); (1, a)]
    ++ replace_all (call3 name) rp tail.
Proof.
  intros Ha Hb Hc. pose proof (exec_call3 name None a b c tail Ha Hb Hc) as He.
  assert (E : js name ++ "("%char :: a ++ ","%char :: b ++ ","%char :: c
              ++ ")"%char :: tail
              = (js name ++ "("%char :: a ++ ","%char :: b ++ ","%char :: c
                 ++ [")"%char]) ++ tail) by app_eq.
  rewrite E in *.
  apply (replace_at_start _ _ _ _ _ ")"%char (Some ")"%char)); auto.
  - destruct (js name); discriminate.
  - replace (js name ++ "("%char :: a ++ ","%char :: b ++ ","%char :: c
             ++ [")"%char])
      with ((js name ++ "("%char :: a ++ ","%char :: b ++ ","%char :: c)
            ++ [")"%char]) by app_eq.
    apply last_char_snoc.
Qed.

Lemma digit_not_space c : is_digit c = true -> is_space c = false.
Proof.
  pose proof (in_all_chars c) as Hin. revert c Hin.
  assert (H : forallb (fun c => implb (is_digit c) (negb (is_space c)))
                all_chars = true) by (vm_compute; reflexivity).
  rewrite forallb_forall in H. intros c Hin Hd. specialize (H c Hin).
  rewrite Hd in H. simpl in H. apply negb_true_iff in H. exact H.
Qed.

Lemma space_not_digit c : is_space c = true -> is_digit c = false.
Proof.
  intro Hs. destruct (is_digit c) eqn:E; [|reflexivity].
  apply digit_not_space in E. congruence.
Qed.

Lemma stops_digit_before w (k : str) :
  forallb is_space w = true ->
  stops is_digit k = true -> stops is_digit (w ++ k) = true.
Proof.
  destruct w as [|c w]; intros Hw Hk; [exact Hk|].
  simpl in *. apply andb_true_iff in Hw. destruct Hw as [Hc _].
  rewrite (space_not_digit _ Hc). reflexivity.
Qed.

Lemma snoc_not_nil (m : str) c : m ++ [c] <> [].
Proof. intro H. apply app_eq_nil in H. destruct H. discriminate. Qed.

(** The day-interval rules at a call: any white space (also none) after
    the comma and around the number. *)
Lemma exec_call_interval name p a w1 w2 d n w3 tail :
  forallb arg_char a = true ->
  forallb is_space w1 = true -> forallb is_space w2 = true ->
  forallb is_space w3 = true ->
  is_digit d = true -> forallb is_digit n = true ->
  exec (call_interval name) p
    (js name ++ "("%char :: a ++ ","%char :: w1 ++ js "INTERVAL" ++ w2
     ++ (d :: n) ++ w3 ++ js "DAY" ++ ")"%char :: tail)
  = Some (MState (Some ")"%char) tail [(2, d :: n); (1, a)]).
Proof.
  intros Ha H1 H2 H3 Hd Hn. unfold exec, call_interval, lit.
  cbn [seq]. cbn [rmatch]. rewrite rmatch_lit_of.
  chr_ok. unfold lazy_star. cbn [rmatch rest].
  apply lazy_dot_stops_at.
  - rewrite length_app. lia.
  - apply arg_char_upto_comma, Ha.
  - intros p' c r cs' Hc. chr_fails Hc.
  - cbn [prev rest caps]. rewrite consumed_app. chr_ok.
    apply star_run; [exact H1|reflexivity|].
    rewrite rmatch_lit_of.
    apply star_run; [exact H2| |].
    { cbn [app stops]. rewrite (digit_not_space _ Hd). reflexivity. }
    cbn [rmatch rest app].
    apply plus_run; [exact Hd|exact Hn| |].
    { apply stops_digit_before; [exact H3|reflexivity]. }
    cbn [prev rest caps].
    change (d :: n ++ w3 ++ js "DAY" ++ ")"%char :: tail)
      with ((d :: n) ++ w3 ++ js "DAY" ++ ")"%char :: tail).
    rewrite consumed_app.
    apply star_run; [exact H3|reflexivity|].
    rewrite rmatch_lit_of. chr_ok. reflexivity.
Qed.

(** [\(\d+\)] at a width. *)
Lemma rmatch_width k out p d n tail cs :
  is_digit d = true -> forallb is_digit n = true ->
  k (MState (Some ")"%char) tail cs) = Some out ->
  rmatch width k (MState p ("("%char :: (d :: n) ++ ")"%char :: tail) cs)
  = Some out.
Proof.
  intros Hd Hn Hk. unfold width. cbn [seq rmatch]. chr_ok.
  cbn [app]. apply plus_run; [exact Hd|exact Hn|reflexivity|].
  chr_ok. exact Hk.
Qed.

Ltac through_width HW :=
  cbn; repeat apply orelse_some; apply HW; reflexivity.

Lemma exec_int_types pre d n tail :
  In pre ["INT"; "TINYINT"; "SMALLINT"; "MEDIUMINT"; "BIGINT"]%string ->
  is_digit d = true -> forallb is_digit n = true ->
  exec (regex (mapping_at 18)) None
       (js pre ++ "("%char :: (d :: n) ++ ")"%char :: tail)
  = Some (MState (Some ")"%char) tail []).
Proof.
  intros Hpre Hd Hn.
  pose proof (fun k out p cs => rmatch_width k out p d n tail cs Hd Hn) as HW.
  unfold mapping_at. cbn [nth functionMappings regex]. unfold exec.
  remember width as W eqn:EW. simpl in Hpre.
  destruct Hpre as [<-|[<-|[<-|[<-|[<-|[]]]]]]; through_width HW.
Qed.

Lemma exec_char_types pre d n tail :
  In pre ["CHAR"; "VARCHAR"; "TEXT"]%string ->
  is_digit d = true -> forallb is_digit n = true ->
  exec (regex (mapping_at 19)) None
       (js pre ++ "("%char :: (d :: n) ++ ")"%char :: tail)
  = Some (MState (Some ")"%char) tail []).
Proof.
  intros Hpre Hd Hn.
  pose proof (fun k out p cs => rmatch_width k out p d n tail cs Hd Hn) as HW.
  unfold mapping_at. cbn [nth functionMappings regex]. unfold exec.
  remember width as W eqn:EW. simpl in Hpre.
  destruct Hpre as [<-|[<-|[<-|[]]]]; through_width HW.
Qed.

Lemma exec_real_types pre d n e m tail :
  In pre ["DECIMAL"; "FLOAT"; "DOUBLE"]%string ->
  is_digit d = true -> forallb is_digit n = true ->
  is_digit e = true -> forallb is_digit m = true ->
  exec (regex (mapping_at 20)) None
       (js pre ++ "("%char :: (d :: n) ++ ","%char :: (e :: m)
        ++ ")"%char :: tail)
  = Some (MState (Some ")"%char) tail []).
Proof.
  intros Hpre Hd Hn He Hm.
  pose proof (fun k out p tl cs => plus_run is_digit k tl out d n p cs Hd Hn)
    as H1.
  pose proof (fun k out p tl cs => plus_run is_digit k tl out e m p cs He Hm)
    as H2.
  unfold mapping_at. cbn [nth functionMappings regex]. unfold exec.
  unfold digit_class. remember (plus (Chr is_digit)) as D eqn:ED.
  simpl in Hpre.
  destruct Hpre as [<-|[<-|[<-|[]]]];
    (cbn; repeat apply orelse_some;
     apply H1; [reflexivity|]; cbn;
     apply H2; [reflexivity|]; cbn; reflexivity).
Qed.

Lemma type_text pre (w tail : str) :
  js pre ++ "("%char :: w ++ ")"%char :: tail
  = (js pre ++ "("%char :: w ++ [")"%char]) ++ tail.
Proof. norm_app. reflexivity. Qed.

Lemma type_text_last pre (w : str) :
  last_char (js pre ++ "("%char :: w ++ [")"%char]) None = Some ")"%char.
Proof.
  replace (js pre ++ "("%char :: w ++ [")"%char])
    with ((js pre ++ "("%char :: w) ++ [")"%char]) by app_eq.
  apply last_char_snoc.
Qed.

Lemma replace_type r rp pre w tail :
  exec r None (js pre ++ "("%char :: w ++ ")"%char :: tail)
  = Some (MState (Some ")"%char) tail []) ->
  replace_all r rp (js pre ++ "("%char :: w ++ ")"%char :: tail)
  = substitute rp (js pre ++ "("%char :: w ++ [")"%char]) []
    ++ replace_all r rp tail.
Proof.
  intro He. rewrite type_text in *.
  apply (replace_at_start _ _ _ _ _ ")"%char (Some ")"%char)).
  - destruct (js pre); discriminate.
  - apply type_text_last.
  - reflexivity.
  - exact He.
Qed.

(** A rule leaves a text alone when it lacks a character the rule needs. *)
Lemma mappings_fixed P ms x :
  forallb (fun m => needs P (regex m)) ms = true ->
  has P x = false -> apply_mappings ms x = x.
Proof.
  intros Hall Hx. apply apply_mappings_fixed. intros m Hm.
  rewrite forallb_forall in Hall. specialize (Hall m Hm).
  unfold apply_mapping. apply replace_all_no_match.
  apply (needs_no_match P); assumption.
Qed.

Lemma paren_rules_need_paren :
  forallb (fun m => needs (eqc "("%char) (regex m))
          (firstn 21 functionMappings) = true.
Proof. vm_cast_no_check (eq_refl true). Qed.

(** *** The join rules *)

Lemma word_differs c d :
  is_word c = true -> is_word d = false -> eqc c d = false.
Proof.
  intros Hc Hd. destruct (eqc c d) eqn:E; [|reflexivity].
  unfold eqc in E. apply Ascii.eqb_eq in E. subst d. congruence.
Qed.

Lemma scan_from_nonword r rp :
  (forall p d t, is_word d = false -> exec r p (d :: t) = None) ->
  (forall p, exec r p [] = None) ->
  forall tail p, stops is_word tail = true ->
  scan r rp p tail 0 = replace_all r rp tail.
Proof.
  intros Hd Hn tail p Hs. unfold replace_all. destruct tail as [|d t].
  - cbn [scan]. rewrite !Hn. reflexivity.
  - simpl in Hs. apply negb_true_iff in Hs.
    rewrite !scan_step_none by (apply Hd, Hs). reflexivity.
Qed.

Lemma outer_join_rule_nonword p d t :
  is_word d = false -> exec (regex (mapping_at 23)) p (d :: t) = None.
Proof.
  intro H. unfold mapping_at. cbn [nth functionMappings regex]. unfold exec.
  cbn [seq alt rmatch lit js list_ascii_of_string lit_of ch rest caps].
  destruct (at_word_boundary _); [|reflexivity].
  rewrite (word_differs "L"%char d eq_refl H),
          (word_differs "R"%char d eq_refl H),
          (word_differs "F"%char d eq_refl H). reflexivity.
Qed.

Lemma bare_join_rule_nonword p d t :
  is_word d = false -> exec (regex (mapping_at 24)) p (d :: t) = None.
Proof.
  intro H. unfold mapping_at. cbn [nth functionMappings regex]. unfold exec.
  cbn [seq alt rmatch lit js list_ascii_of_string lit_of ch rest caps].
  destruct (at_word_boundary _); [|reflexivity].
  rewrite (word_differs "I"%char d eq_refl H),
          (word_differs "J"%char d eq_refl H). reflexivity.
Qed.

Lemma outer_join_rule_nil p : exec (regex (mapping_at 23)) p [] = None.
Proof.
  unfold mapping_at. cbn [nth functionMappings regex]. unfold exec.
  cbn [seq alt rmatch lit js list_ascii_of_string lit_of ch rest caps].
  destruct (at_word_boundary _); reflexivity.
Qed.

Lemma bare_join_rule_nil p : exec (regex (mapping_at 24)) p [] = None.
Proof.
  unfold mapping_at. cbn [nth functionMappings regex]. unfold exec.
  cbn [seq alt rmatch lit js list_ascii_of_string lit_of ch rest caps].
  destruct (at_word_boundary _); reflexivity.
Qed.

Lemma exec_outer_join kind w ws outer tail :
  In kind ["LEFT"; "RIGHT"; "FULL"]%string ->
  is_space w = true -> forallb is_space ws = true ->
  (outer = [] \/
   exists w' ws', is_space w' = true /\ forallb is_space ws' = true
                  /\ outer = js "OUTER" ++ w' :: ws') ->
  stops is_word tail = true ->
  exec (regex (mapping_at 23)) None
       (js kind ++ (w :: ws) ++ outer ++ js "JOIN" ++ tail)
  = Some (MState (Some "N"%char) tail []).
Proof.
  intros Hk Hw Hws Ho Ht.
  pose proof (fun k out p tl cs =>
                plus_run is_space k tl out w ws p cs Hw Hws) as H1.
  assert (Hb : is_word_opt (hd_error tail) = false).
  { destruct tail as [|d t]; [reflexivity|]. simpl in Ht.
    apply negb_true_iff in Ht. exact Ht. }
  unfold mapping_at. cbn [nth functionMappings regex]. unfold exec.
  unfold space_class. remember (plus (Chr is_space)) as SP eqn:ESP.
  simpl in Hk.
  destruct Ho as [->|(w' & ws' & Hw' & Hws' & ->)].
  - destruct Hk as [<-|[<-|[<-|[]]]];
      (cbn; repeat apply orelse_some; apply H1; [reflexivity|];
       cbn; rewrite Hb; reflexivity).
  - pose proof (fun k out p tl cs =>
                  plus_run is_space k tl out w' ws' p cs Hw' Hws') as H2.
    rewrite <- ESP in H2.
    destruct Hk as [<-|[<-|[<-|[]]]];
      (cbn; repeat apply orelse_some; apply H1; [reflexivity|];
       cbn; repeat apply orelse_some; apply H2; [reflexivity|];
       cbn; rewrite Hb; reflexivity).
Qed.

Lemma nonempty_cons (l : str) : l <> [] -> exists c t, l = c :: t.
Proof. destruct l as [|c t]; [congruence|eauto]. Qed.

Lemma replace_outer_join kind ws outer tail :
  In kind ["LEFT"; "RIGHT"; "FULL"]%string ->
  ws <> [] -> forallb is_space ws = true ->
  (outer = [] \/
   exists ws', ws' <> [] /\ forallb is_space ws' = true
               /\ outer = js "OUTER" ++ ws') ->
  stops is_word tail = true ->
  replace_all (regex (mapping_at 23)) (replacement (mapping_at 23))
    (js kind ++ ws ++ outer ++ js "JOIN" ++ tail)
  = js "LEFT JOIN"
    ++ replace_all (regex (mapping_at 23)) (replacement (mapping_at 23)) tail.
Proof.
  intros Hk Hw0 Hws Ho Ht.
  destruct (nonempty_cons ws Hw0) as (w & ws1 & ->).
  simpl in Hws. apply andb_true_iff in Hws. destruct Hws as [Hw Hws].
  assert (Ho' : outer = [] \/
    exists w' ws', is_space w' = true /\ forallb is_space ws' = true
                   /\ outer = js "OUTER" ++ w' :: ws').
  { destruct Ho as [->|(ws' & Hn & Hs & ->)]; [left; reflexivity|right].
    destruct (nonempty_cons ws' Hn) as (w' & ws2 & ->).
    simpl in Hs. apply andb_true_iff in Hs. destruct Hs as [Hs1 Hs2].
    exists w', ws2. auto. }
  pose proof (exec_outer_join kind w ws1 outer tail Hk Hw Hws Ho' Ht) as He.
  set (m := js kind ++ (w :: ws1) ++ outer ++ js "JOIN") in *.
  replace (js kind ++ (w :: ws1) ++ outer ++ js "JOIN" ++ tail)
    with (m ++ tail) in * by (subst m; norm_app; reflexivity).
  unfold replace_all at 1.
  assert (Hm : m <> []).
  { subst m. simpl in Hk. destruct Hk as [<-|[<-|[<-|[]]]]; discriminate. }
  rewrite (scan_at_match _ _ _ _ _ _ _ Hm He).
  rewrite (scan_from_nonword _ _ outer_join_rule_nonword outer_join_rule_nil)
    by exact Ht.
  reflexivity.
Qed.

Lemma replace_left_join tail :
  stops is_word tail = true ->
  replace_all (regex (mapping_at 24)) (replacement (mapping_at 24))
    (js "LEFT JOIN" ++ tail)
  = js "LEFT INNER JOIN"
    ++ replace_all (regex (mapping_at 24)) (replacement (mapping_at 24)) tail.
Proof.
  intro Ht.
  assert (Hb : is_word_opt (hd_error tail) = false).
  { destruct tail as [|d t]; [reflexivity|]. simpl in Ht.
    apply negb_true_iff in Ht. exact Ht. }
  unfold replace_all at 1.
  change (js "LEFT JOIN" ++ tail)
    with ("L"%char :: "E"%char :: "F"%char :: "T"%char :: " "%char
          :: js "JOIN" ++ tail).
  do 5 (rewrite scan_step_none by reflexivity).
  assert (He : exec (regex (mapping_at 24)) (Some " "%char) (js "JOIN" ++ tail)
               = Some (MState (Some "N"%char) tail [])).
  { unfold mapping_at. cbn [nth functionMappings regex]. unfold exec.
    cbn. rewrite Hb. reflexivity. }
  assert (Hm : js "JOIN" <> []) by discriminate.
  rewrite (scan_at_match _ _ _ _ _ _ _ Hm He).
  rewrite (scan_from_nonword _ _ bare_join_rule_nonword bare_join_rule_nil)
    by exact Ht.
  reflexivity.
Qed.

Lemma outer_join_rule_keeps_stop tail :
  stops is_word tail = true ->
  stops is_word
    (replace_all (regex (mapping_at 23)) (replacement (mapping_at 23)) tail)
  = true.
Proof.
  intro Ht. unfold replace_all. destruct tail as [|d t]; [reflexivity|].
  simpl in Ht. apply negb_true_iff in Ht.
  rewrite scan_step_none by (apply outer_join_rule_nonword, Ht).
  simpl. rewrite Ht. reflexivity.
Qed.

End RuleFacts.

(* ================================================================== *)
(** ** Facts about lines and the two formatters *)

Module LineFacts.
Import Chars Js Regex Parser Analysis Shapes.
Import StringFacts RegexFacts ParserFacts RunFacts RuleFacts.

(** *** trim *)

Lemma trimStart_split : forall s,
  exists ws, s = ws ++ trimStart s /\ forallb is_space ws = true.
Proof.
  induction s as [|c t IH]; [exists []; auto|].
  simpl. destruct (is_space c) eqn:E.
  - destruct IH as (ws & E1 & E2). exists (c :: ws). simpl.
    rewrite E, E2. rewrite <- E1. auto.
  - exists []. auto.
Qed.

Lemma trimStart_head : forall s,
  match trimStart s with [] => True | c :: _ => is_space c = false end.
Proof.
  induction s as [|c t IH]; [exact I|].
  simpl. destruct (is_space c) eqn:E; [exact IH|exact E].
Qed.

Lemma trimStart_fixed c t : is_space c = false -> trimStart (c :: t) = c :: t.
Proof. intro H. simpl. rewrite H. reflexivity. Qed.

Lemma trimStart_spaces : forall ws s,
  forallb is_space ws = true -> trimStart (ws ++ s) = trimStart s.
Proof.
  induction ws as [|c ws IH]; intros s H; [reflexivity|].
  simpl in *. apply andb_true_iff in H. destruct H as [Hc Hw].
  rewrite Hc. apply IH, Hw.
Qed.

Lemma last_snoc (s : str) e d : last (s ++ [e]) d = e.
Proof. apply last_last. Qed.

Lemma no_edge_space_trimEnd s :
  no_edge_space s = true -> trimEnd s = s.
Proof.
  destruct s as [|c t]; [reflexivity|]. intro H. simpl in H.
  apply andb_true_iff in H. destruct H as [_ Hl].
  apply negb_true_iff in Hl.
  assert (Hne : c :: t <> []) by discriminate.
  pose proof (app_removelast_last c Hne) as E.
  unfold trimEnd. rewrite E at 1. rewrite rev_app_distr. cbn [rev app].
  change (match t with [] => c | _ :: _ => last t c end) with (last (c :: t) c) in Hl.
  rewrite trimStart_fixed by exact Hl.
  change (last (c :: t) c :: rev (removelast (c :: t)))
    with (rev [last (c :: t) c] ++ rev (removelast (c :: t))).
  rewrite <- rev_app_distr, rev_involutive. symmetry. exact E.
Qed.

Lemma no_edge_space_trim s : no_edge_space s = true -> trim s = s.
Proof.
  intro H. unfold trim.
  destruct s as [|c t]; [reflexivity|].
  pose proof H as H'. simpl in H'. apply andb_true_iff in H'.
  destruct H' as [Hc _]. apply negb_true_iff in Hc.
  rewrite trimStart_fixed by exact Hc. apply no_edge_space_trimEnd, H.
Qed.

Lemma trimEnd_split s :
  exists ws, s = trimEnd s ++ ws /\ forallb is_space ws = true.
Proof.
  unfold trimEnd. destruct (trimStart_split (rev s)) as (ws & E1 & E2).
  exists (rev ws). split.
  - rewrite <- rev_app_distr, <- E1, rev_involutive. reflexivity.
  - rewrite forallb_forall in *. intros x Hx. apply E2, in_rev, Hx.
Qed.

Lemma trimEnd_last s :
  match trimEnd s with
  | [] => True
  | c :: t => is_space (last (c :: t) c) = false
  end.
Proof.
  unfold trimEnd. pose proof (trimStart_head (rev s)) as H.
  destruct (trimStart (rev s)) as [|e r] eqn:E; [exact I|].
  cbn [rev]. destruct (rev r ++ [e]) as [|c t] eqn:E'.
  - destruct (rev r); discriminate.
  - rewrite <- E'. rewrite last_snoc. exact H.
Qed.

Lemma trim_no_edge_space s : no_edge_space (trim s) = true.
Proof.
  unfold trim. pose proof (trimStart_head s) as Hh.
  pose proof (trimEnd_last (trimStart s)) as Hl.
  destruct (trimEnd_split (trimStart s)) as (ws & E & _).
  destruct (trimEnd (trimStart s)) as [|c t] eqn:Et; [reflexivity|].
  rewrite E in Hh. cbn [app] in Hh.
  unfold no_edge_space. rewrite Hh, Hl. reflexivity.
Qed.

(** [trim] is idempotent. *)
Lemma trim_idempotent s : trim (trim s) = trim s.
Proof. apply no_edge_space_trim, trim_no_edge_space. Qed.

Lemma forallb_trim P s : forallb P s = true -> forallb P (trim s) = true.
Proof.
  intro H. unfold trim.
  destruct (trimStart_split s) as (ws & E1 & _).
  destruct (trimEnd_split (trimStart s)) as (ws' & E2 & _).
  rewrite E1, E2 in H. rewrite !forallb_app in H.
  apply andb_true_iff in H. destruct H as [_ H].
  apply andb_true_iff in H. apply H.
Qed.

Lemma trim_indented ws l :
  forallb is_space ws = true -> no_edge_space l = true -> trim (ws ++ l) = l.
Proof.
  intros Hw Hl. unfold trim. rewrite trimStart_spaces by exact Hw.
  apply no_edge_space_trim, Hl.
Qed.

(** *** Lines *)

Lemma split_pieces sep : forall s piece,
  In piece (split sep s) -> forallb (fun c => negb (eqc c sep)) piece = true.
Proof.
  induction s as [|c t IH]; intros piece H; simpl in H.
  - destruct H as [<-|[]]. reflexivity.
  - destruct (eqc c sep) eqn:E.
    + destruct H as [<-|H]; [reflexivity|apply IH, H].
    + destruct (split sep t) as [|w ws] eqn:Es.
      * destruct H as [<-|[]]. simpl. rewrite E. reflexivity.
      * destruct H as [<-|H].
        -- simpl. rewrite E. apply IH. left; reflexivity.
        -- apply IH. right; exact H.
Qed.

Lemma split_join sep : forall l,
  l <> [] -> forallb (forallb (fun c => negb (eqc c sep))) l = true ->
  split sep (join [sep] l) = l.
Proof.
  induction l as [|a l IH]; intros Hne H; [congruence|].
  simpl in H. apply andb_true_iff in H. destruct H as [Ha Hl].
  destruct l as [|b l].
  - simpl. apply split_no_sep, Ha.
  - change (join [sep] (a :: b :: l)) with (a ++ sep :: join [sep] (b :: l)).
    rewrite split_app_sep by exact Ha.
    rewrite IH; auto. discriminate.
Qed.

Lemma lines_of_clean sql : forallb clean_line (lines_of sql) = true.
Proof.
  unfold lines_of. apply forallb_forall. intros l Hl.
  apply filter_In in Hl. destruct Hl as [Hin Ht].
  apply in_map_iff in Hin. destruct Hin as (piece & <- & Hp).
  unfold clean_line. rewrite Ht, trim_no_edge_space. simpl.
  apply forallb_trim, (split_pieces _ _ _ Hp).
Qed.

Lemma clean_line_parts l :
  clean_line l = true ->
  l <> [] /\ no_edge_space l = true /\ no_newline l = true.
Proof.
  unfold clean_line. intro H. apply andb_true_iff in H. destruct H as [H H3].
  apply andb_true_iff in H. destruct H as [H1 H2].
  repeat split; auto. destruct l; [discriminate|discriminate].
Qed.

(** The trimmed non-empty lines of a text made of clean lines are those
    lines. *)
Lemma lines_of_join l :
  forallb clean_line l = true -> lines_of (join [newline] l) = l.
Proof.
  intro H. destruct l as [|a l]; [reflexivity|].
  unfold lines_of. rewrite split_join; [|discriminate|].
  - induction (a :: l) as [|x xs IH]; [reflexivity|].
    simpl in H. apply andb_true_iff in H. destruct H as [Hx Hxs].
    destruct (clean_line_parts _ Hx) as (Hne & He & _).
    cbn [map filter]. rewrite (no_edge_space_trim _ He).
    destruct x; [congruence|]. cbn [truthy]. rewrite (IH Hxs). reflexivity.
  - rewrite forallb_forall in *. intros x Hx.
    destruct (clean_line_parts _ (H x Hx)) as (_ & _ & Hn). exact Hn.
Qed.

(** *** formatSQL on several lines *)

Lemma repeat_str_spaces n : forallb is_space (repeat_str (js "    ") n) = true.
Proof. induction n as [|n IH]; [reflexivity|]. simpl. exact IH. Qed.

Lemma repeat_str_no_newline n : no_newline (repeat_str (js "    ") n) = true.
Proof. induction n as [|n IH]; [reflexivity|]. simpl. exact IH. Qed.

Lemma formatSQL_loop_trim : forall l n,
  forallb clean_line l = true -> map trim (formatSQL_loop l n) = l.
Proof.
  induction l as [|x xs IH]; intros n H; [reflexivity|].
  simpl in H. apply andb_true_iff in H. destruct H as [Hx Hxs].
  destruct (clean_line_parts _ Hx) as (_ & He & _).
  cbn [formatSQL_loop map].
  rewrite trim_indented; [|apply repeat_str_spaces|exact He].
  rewrite IH by exact Hxs. reflexivity.
Qed.

Lemma formatSQL_loop_no_newline : forall l n,
  forallb clean_line l = true ->
  forallb no_newline (formatSQL_loop l n) = true.
Proof.
  induction l as [|x xs IH]; intros n H; [reflexivity|].
  simpl in H. apply andb_true_iff in H. destruct H as [Hx Hxs].
  destruct (clean_line_parts _ Hx) as (_ & _ & Hn).
  cbn [formatSQL_loop forallb]. rewrite IH by exact Hxs.
  unfold no_newline at 1. rewrite forallb_app.
  fold (no_newline (repeat_str (js "    ")
          (Nat.max 0 (if starts_clause x then 0 else n)))).
  rewrite repeat_str_no_newline. fold (no_newline x). rewrite Hn. reflexivity.
Qed.

Lemma filter_truthy_clean l :
  forallb clean_line l = true -> filter truthy l = l.
Proof.
  induction l as [|x xs IH]; intro H; [reflexivity|].
  simpl in H. apply andb_true_iff in H. destruct H as [Hx Hxs].
  destruct (clean_line_parts _ Hx) as (Hne & _ & _).
  destruct x; [congruence|]. cbn [filter truthy]. rewrite IH by exact Hxs.
  reflexivity.
Qed.

Lemma lines_of_formatSQL_loop l n :
  forallb clean_line l = true ->
  lines_of (join [newline] (formatSQL_loop l n)) = l.
Proof.
  intro H. destruct l as [|x xs]; [reflexivity|].
  unfold lines_of. rewrite split_join.
  - rewrite formatSQL_loop_trim by exact H. apply filter_truthy_clean, H.
  - discriminate.
  - apply (formatSQL_loop_no_newline _ n H).
Qed.

Lemma formatSQL_loop_indent : forall l n,
  n <= 1 -> Forall2 indented_as (formatSQL_loop l n) l.
Proof.
  induction l as [|x xs IH]; intros n Hn; [constructor|].
  cbn [formatSQL_loop]. constructor.
  - unfold indented_as. destruct (starts_clause x).
    + split; auto.
    + split; [|discriminate].
      destruct n as [|[|n]]; [left; reflexivity|right; reflexivity|lia].
  - apply IH. destruct (startsWith (toUpperCase x) (js "SELECT")); [lia|].
    destruct (starts_clause x); lia.
Qed.

(** *** When formatCreateTable throws *)

Lemma formatCreateTable_loop_throws lines : forall todo b,
  formatCreateTable_loop lines todo b = None
  <-> existsb nameless_header todo = true.
Proof.
  induction todo as [|line todo IH]; intro b.
  - simpl. split; discriminate.
  - cbn [formatCreateTable_loop existsb]. unfold nameless_header at 1.
    destruct (startsWith line (js "CREATE TABLE")).
    + destruct (search re_table_name None line).
      * cbn [andb orb]. rewrite <- (IH true).
        destruct (formatCreateTable_loop lines todo true); split; congruence.
      * cbn [andb orb]. split; reflexivity.
    + cbn [andb orb].
      destruct (endsWith line (js ");") || str_eqb line (js ");")
                || str_eqb line (js ")")).
      * rewrite <- (IH false).
        destruct (formatCreateTable_loop lines todo false); split; congruence.
      * destruct b.
        -- rewrite <- (IH true).
           destruct (formatCreateTable_loop lines todo true); split; congruence.
        -- rewrite <- (IH false).
           destruct (formatCreateTable_loop lines todo false); split; congruence.
Qed.

(** *** The trailing comma *)

(** [\s*$] fails before a text with a character that is not white space. *)
Lemma spaces_to_end_fails : forall t fuel p cs,
  existsb (fun c => negb (is_space c)) t = true ->
  star_loop true (rmatch (Chr is_space)) (rmatch EndA Some) fuel
    (MState p t cs) = None.
Proof.
  induction t as [|c t IH]; intros fuel p cs H; [discriminate|].
  destruct fuel as [|fuel]; [reflexivity|].
  cbn [star_loop rmatch rest caps orelse].
  destruct (is_space c) eqn:E.
  - simpl in H. rewrite E in H. simpl in H.
    replace (length t <? length (c :: t)) with true
      by (symmetry; apply Nat.ltb_lt; simpl; lia).
    rewrite IH by exact H. reflexivity.
  - reflexivity.
Qed.

Lemma exec_trailing_comma_fails p c t :
  existsb (fun c => negb (is_space c)) t = true ->
  exec re_trailing_comma p (c :: t) = None.
Proof.
  intro H. unfold exec, re_trailing_comma, lit, star, space_class.
  cbn [seq js list_ascii_of_string lit_of rmatch ch rest caps].
  destruct (eqc "," c); [|reflexivity].
  apply spaces_to_end_fails, H.
Qed.

Lemma exec_trailing_comma_other p c t :
  eqc ","%char c = false -> exec re_trailing_comma p (c :: t) = None.
Proof.
  intro H. unfold exec, re_trailing_comma, lit, star, space_class.
  cbn [seq js list_ascii_of_string lit_of rmatch ch rest caps].
  rewrite H. reflexivity.
Qed.

Lemma strip_from_final_comma : forall l p,
  replace_first_from re_trailing_comma (Template []) p (l ++ [","%char]) = l.
Proof.
  induction l as [|c l IH]; intro p.
  - reflexivity.
  - cbn [app replace_first_from].
    rewrite exec_trailing_comma_fails.
    + rewrite IH. reflexivity.
    + rewrite existsb_app. simpl. apply orb_true_r.
Qed.

Lemma strip_from_no_comma e : 
  is_space e = false -> eqc ","%char e = false ->
  forall l p,
  replace_first_from re_trailing_comma (Template []) p (l ++ [e]) = l ++ [e].
Proof.
  intros He Hc. induction l as [|c l IH]; intro p.
  - cbn [app replace_first_from]. rewrite exec_trailing_comma_other by exact Hc.
    cbn [replace_first_from]. reflexivity.
  - cbn [app replace_first_from].
    rewrite exec_trailing_comma_fails.
    + rewrite IH. reflexivity.
    + rewrite existsb_app. simpl. rewrite He. simpl. apply orb_true_r.
Qed.

(** *** The header line *)

Lemma word_not_space c : is_word c = true -> is_space c = false.
Proof.
  pose proof (in_all_chars c) as Hin. revert c Hin.
  assert (H : forallb (fun c => implb (is_word c) (negb (is_space c)))
                all_chars = true) by (vm_compute; reflexivity).
  rewrite forallb_forall in H. intros c Hin Hd. specialize (H c Hin).
  rewrite Hd in H. simpl in H. apply negb_true_iff in H. exact H.
Qed.

Lemma search_at_start r p l s' :
  exec r p l = Some s' -> search r p l = Some (caps s').
Proof. intro H. destruct l; simpl; rewrite H; reflexivity. Qed.

(** The name of the table is the run of word characters after the white
    space that follows [CREATE TABLE]. *)
Lemma search_table_name w ws c name after :
  is_space w = true -> forallb is_space ws = true ->
  is_word c = true -> forallb is_word name = true ->
  stops is_word after = true ->
  search re_table_name None
    (js "CREATE TABLE" ++ (w :: ws) ++ (c :: name) ++ after)
  = Some [(1, c :: name)].
Proof.
  intros Hw Hws Hc Hn Hr.
  assert (He : exists pv,
    exec re_table_name None
      (js "CREATE TABLE" ++ (w :: ws) ++ (c :: name) ++ after)
    = Some (MState pv after [(1, c :: name)])).
  { eexists. unfold exec, re_table_name, lit. cbn [seq rmatch].
    rewrite rmatch_lit_of. unfold space_class.
    cbn [app]. apply plus_run; [exact Hw|exact Hws| |].
    { cbn [app stops]. rewrite (word_not_space _ Hc). reflexivity. }
    cbn [rmatch rest]. unfold word_class.
    apply plus_run; [exact Hc|exact Hn|exact Hr|].
    cbn [prev rest caps].
    change (c :: name ++ after) with ((c :: name) ++ after).
    rewrite consumed_app. reflexivity. }
  destruct He as (pv & He). apply (search_at_start _ _ _ _ He).
Qed.

(** *** indexOf *)

Lemma str_eqb_refl : forall a, str_eqb a a = true.
Proof.
  induction a as [|c a IH]; [reflexivity|].
  simpl. unfold eqc. rewrite Ascii.eqb_refl. exact IH.
Qed.

Lemma indexOf_first c post : forall pre,
  (forall x, In x pre -> str_eqb x c = false) ->
  indexOf (pre ++ c :: post) c = Some (length pre).
Proof.
  induction pre as [|y pre IH]; intro H.
  - simpl. rewrite str_eqb_refl. reflexivity.
  - simpl. rewrite (H y) by (left; reflexivity).
    rewrite IH; [reflexivity|]. intros x Hx. apply H. right; exact Hx.
Qed.

Lemma indexOf_bound c post : forall pre,
  exists i, indexOf (pre ++ c :: post) c = Some i /\ i <= length pre.
Proof.
  induction pre as [|y pre IH].
  - exists 0. simpl. rewrite str_eqb_refl. auto.
  - simpl. destruct (str_eqb y c).
    + exists 0. split; [reflexivity|lia].
    + destruct IH as (i & -> & Hi). exists (S i). split; [reflexivity|lia].
Qed.

Lemma skipn_keeps_post (c : str) post pre i :
  i <= length pre ->
  exists mid, skipn (i + 1) (pre ++ c :: post) = mid ++ post.
Proof.
  intro Hi. exists (skipn (i + 1) (pre ++ [c])).
  change (c :: post) with ([c] ++ post). rewrite app_assoc.
  rewrite skipn_app.
  replace (i + 1 - length (pre ++ [c])) with 0
    by (rewrite length_app; simpl; lia).
  reflexivity.
Qed.

(** A line is judged the last column by what follows its first
    occurrence. *)
Lemma isLastColumn_not_last pre c d post :
  startsWith d (js ")") = false ->
  isLastColumn (pre ++ c :: d :: post) c = false.
Proof.
  intro Hd. unfold isLastColumn, lines_after.
  destruct (indexOf_bound c (d :: post) pre) as (i & -> & Hi).
  destruct (skipn_keeps_post c (d :: post) pre i Hi) as (mid & E).
  unfold slice. rewrite E, existsb_app. cbn [existsb]. rewrite Hd.
  cbn [negb]. rewrite orb_true_r. reflexivity.
Qed.

Lemma isLastColumn_last pre c cl :
  (forall x, In x pre -> str_eqb x c = false) ->
  startsWith cl (js ")") = true ->
  isLastColumn (pre ++ [c; cl]) c = true.
Proof.
  intros Hpre Hcl. unfold isLastColumn, lines_after.
  rewrite (indexOf_first c [cl] pre Hpre). unfold slice.
  change (pre ++ [c; cl]) with (pre ++ [c] ++ [cl]). rewrite app_assoc.
  rewrite skipn_app.
  replace (length pre + 1 - length (pre ++ [c])) with 0
    by (rewrite length_app; simpl; lia).
  rewrite skipn_all2 by (rewrite length_app; simpl; lia).
  cbn [app skipn existsb]. rewrite Hcl. reflexivity.
Qed.

(** *** The layout of a table definition *)

Lemma column_line_parts c :
  column_line c = true ->
  clean_line c = true /\ startsWith c (js "CREATE TABLE") = false
  /\ endsWith c (js ");") = false /\ startsWith c (js ")") = false.
Proof.
  unfold column_line. intro H.
  apply andb_true_iff in H. destruct H as [H H4].
  apply andb_true_iff in H. destruct H as [H H3].
  apply andb_true_iff in H. destruct H as [H1 H2].
  apply negb_true_iff in H2, H3, H4. auto.
Qed.

Lemma not_starting_rparen c :
  startsWith c (js ")") = false ->
  str_eqb c (js ");") = false /\ str_eqb c (js ")") = false.
Proof.
  destruct c as [|x c]; [split; reflexivity|].
  unfold js. cbn [list_ascii_of_string startsWith str_eqb].
  destruct (eqc ")" x) eqn:E; intro H.
  - destruct c; discriminate H.
  - unfold eqc in *. rewrite Ascii.eqb_sym, E. auto.
Qed.

Lemma starting_rparen_not_header cl :
  startsWith cl (js ")") = true -> startsWith cl (js "CREATE TABLE") = false.
Proof.
  destruct cl as [|x cl]; [discriminate|].
  unfold js. cbn [list_ascii_of_string startsWith].
  destruct (eqc ")" x) eqn:E; intro H; [|discriminate H].
  unfold eqc in E. apply Ascii.eqb_eq in E. subst x. reflexivity.
Qed.

Section Layout.
Variables (header cl : str) (cols : list str).
Hypothesis header_starts : startsWith header (js "CREATE TABLE") = true.
Hypothesis cols_ok : forallb column_line cols = true.
Hypothesis cl_ok : closing_line cl = true.
Hypothesis last_new : last_is_new cols = true.

Lemma header_differs c :
  column_line c = true -> str_eqb header c = false.
Proof.
  intro Hc. destruct (column_line_parts _ Hc) as (_ & H & _).
  destruct (str_eqb header c) eqn:E; [|reflexivity].
  apply str_eqb_eq in E. subst c. congruence.
Qed.

Lemma closing_parts :
  startsWith cl (js ")") = true
  /\ (endsWith cl (js ");") || str_eqb cl (js ");") || str_eqb cl (js ")"))
     = true.
Proof.
  unfold closing_line in cl_ok.
  apply andb_true_iff in cl_ok. destruct cl_ok as [H H3].
  apply andb_true_iff in H. destruct H as [_ H2]. split; [exact H2|].
  apply orb_true_iff in H3. destruct H3 as [E|E]; rewrite E;
    [reflexivity|apply orb_true_r].
Qed.

Lemma columns_loop : forall todo done,
  cols = done ++ todo ->
  formatCreateTable_loop (header :: cols ++ [cl]) (todo ++ [cl]) true
  = Some (columns todo ++ [js "    );"]).
Proof.
  destruct closing_parts as (Hcl1 & Hcl2).
  induction todo as [|c todo IH]; intros done E.
  - cbn [app formatCreateTable_loop].
    rewrite (starting_rparen_not_header _ Hcl1), Hcl2. reflexivity.
  - assert (Hc : column_line c = true).
    { rewrite forallb_forall in cols_ok. apply cols_ok. rewrite E.
      apply in_or_app. right. left. reflexivity. }
    destruct (column_line_parts _ Hc) as (_ & H1 & H2 & H3).
    destruct (not_starting_rparen _ H3) as (H4 & H5).
    cbn [app formatCreateTable_loop]. rewrite H1, H2, H4, H5. cbn [orb].
    rewrite (IH (done ++ [c])) by (rewrite <- app_assoc; exact E).
    assert (EL : header :: cols ++ [cl]
                 = (header :: done) ++ c :: (todo ++ [cl])).
    { rewrite E. cbn [app]. rewrite <- app_assoc. reflexivity. }
    destruct todo as [|d todo].
    + assert (Hpre : forall x, In x (header :: done) -> str_eqb x c = false);
        [|pose proof (isLastColumn_last (header :: done) c cl Hpre Hcl1) as Hl;
          rewrite EL; cbn [app columns] in *; rewrite Hl, app_nil_r;
          reflexivity].
      intros x [<-|Hx]; [apply header_differs, Hc|].
      unfold last_is_new in last_new. rewrite E, rev_app_distr in last_new.
      cbn [rev app] in last_new. apply negb_true_iff in last_new.
      destruct (str_eqb x c) eqn:Ex; [|reflexivity].
      apply str_eqb_eq in Ex. subst x.
      assert (Hin : existsb (str_eqb c) (rev done) = true).
      { apply existsb_exists. exists c. split; [apply in_rev in Hx; exact Hx|].
        apply str_eqb_refl. }
      congruence.
    + assert (Hd : column_line d = true).
      { rewrite forallb_forall in cols_ok. apply cols_ok. rewrite E.
        apply in_or_app. right. right. left. reflexivity. }
      destruct (column_line_parts _ Hd) as (_ & _ & _ & Hd3).
      pose proof (isLastColumn_not_last (header :: done) c d (todo ++ [cl]) Hd3)
        as Hl.
      rewrite EL. cbn [app] in *. rewrite Hl.
      cbn [columns app]. reflexivity.
Qed.
End Layout.

Lemma header_search ws name after :
  ws <> [] -> forallb is_space ws = true ->
  name <> [] -> forallb is_word name = true ->
  stops is_word after = true ->
  search re_table_name None (js "CREATE TABLE" ++ ws ++ name ++ after)
  = Some [(1, name)].
Proof.
  intros Hw0 Hw Hn0 Hn Ha.
  destruct ws as [|w ws]; [congruence|]. destruct name as [|c name]; [congruence|].
  simpl in Hw, Hn. apply andb_true_iff in Hw, Hn.
  destruct Hw as [Hw Hws]. destruct Hn as [Hc Hn].
  apply search_table_name; assumption.
Qed.

Lemma closing_clean cl : closing_line cl = true -> clean_line cl = true.
Proof.
  unfold closing_line. intro H.
  apply andb_true_iff in H. destruct H as [H _].
  apply andb_true_iff in H. apply H.
Qed.

Lemma table_lines_clean header cols cl :
  clean_line header = true -> forallb column_line cols = true ->
  closing_line cl = true ->
  forallb clean_line (header :: cols ++ [cl]) = true.
Proof.
  intros Hh Hc Hcl. cbn [forallb]. rewrite Hh, forallb_app. cbn [forallb andb].
  rewrite (closing_clean _ Hcl), andb_true_r.
  rewrite forallb_forall in *. intros x Hx.
  destruct (column_line_parts _ (Hc x Hx)) as (H & _). exact H.
Qed.

(** The table formatter on a header line, column lines and a closing
    line. *)
Lemma formatCreateTable_lines ws name after cols cl :
  ws <> [] -> forallb is_space ws = true ->
  name <> [] -> forallb is_word name = true ->
  stops is_word after = true ->
  clean_line (js "CREATE TABLE" ++ ws ++ name ++ after) = true ->
  forallb column_line cols = true ->
  closing_line cl = true ->
  last_is_new cols = true ->
  formatCreateTable
    (join [newline]
       ((js "CREATE TABLE" ++ ws ++ name ++ after) :: cols ++ [cl]))
  = Returned
      (join [newline]
         ((js "CREATE TABLE " ++ name ++ js " (")
          :: columns cols ++ [js "    );"])).
Proof.
  intros Hw0 Hw Hn0 Hn Ha Hh Hc Hcl Hl.
  unfold formatCreateTable.
  rewrite lines_of_join by (apply table_lines_clean; assumption).
  set (header := js "CREATE TABLE" ++ ws ++ name ++ after) in *.
  assert (Hs : startsWith header (js "CREATE TABLE") = true)
    by apply startsWith_app.
  cbn [formatCreateTable_loop]. rewrite Hs.
  unfold header at 1. rewrite (header_search ws name after) by assumption.
  pose proof (columns_loop header cl cols Hs Hc Hcl Hl cols [] eq_refl) as HL.
  unfold str in *. rewrite HL. reflexivity.
Qed.

Lemma columns_cons c x xs :
  columns (c :: x :: xs)
  = (js "    " ++ strip_comma c ++ js ",") :: columns (x :: xs).
Proof. reflexivity. Qed.

Lemma columns_well_formed e :
  is_space e = false -> eqc ","%char e = false ->
  forall init lst,
  columns (map (fun c => c ++ js ",") init ++ [lst ++ [e]])
  = map (app (js "    ")) (map (fun c => c ++ js ",") init ++ [lst ++ [e]]).
Proof.
  intros He Hc. induction init as [|c init IH]; intro lst.
  - cbn [map app columns]. unfold strip_comma, replace_first.
    rewrite strip_from_no_comma by assumption. reflexivity.
  - cbn [map app]. destruct (map (fun c0 => c0 ++ js ",") init ++ [lst ++ [e]])
      as [|x xs] eqn:E.
    + destruct (map (fun c0 => c0 ++ js ",") init); discriminate E.
    + rewrite columns_cons. unfold str in *. rewrite <- E, IH.
      unfold strip_comma, replace_first. rewrite strip_from_final_comma.
      reflexivity.
Qed.

(** *** Runs of a class replaced by one space *)

Lemma span_run C : forall l : str,
  exists run tail, l = run ++ tail /\ forallb C run = true
                   /\ stops C tail = true.
Proof.
  induction l as [|c t IH].
  - exists [], []. auto.
  - destruct (C c) eqn:E.
    + destruct IH as (run & tail & -> & Hr & Ht).
      exists (c :: run), tail. simpl. rewrite E, Hr. auto.
    + exists [], (c :: t). simpl. rewrite E. auto.
Qed.

Lemma squeeze_run C tail : stops C tail = true ->
  forall run, forallb C run = true ->
  squeeze C true (run ++ tail) = squeeze C false tail.
Proof.
  intros Ht. induction run as [|c run IH]; intro Hr.
  - destruct tail as [|d t]; [reflexivity|].
    simpl in *. apply negb_true_iff in Ht. rewrite Ht. reflexivity.
  - simpl in *. apply andb_true_iff in Hr. destruct Hr as [Hc Hr].
    rewrite Hc. apply IH, Hr.
Qed.

Lemma scan_squeeze C : forall n l p,
  length l <= n ->
  scan (plus (Chr C)) (Template [space]) p l 0 = squeeze C false l.
Proof.
  induction n as [|n IH]; intros l p Hlen.
  - destruct l; [reflexivity|simpl in Hlen; lia].
  - destruct l as [|c t]; [reflexivity|].
    destruct (C c) eqn:E.
    + destruct (span_run C t) as (run & tail & -> & Hr & Ht).
      assert (He : exec (plus (Chr C)) p ((c :: run) ++ tail)
                   = Some (MState (last_char (c :: run) p) tail [])).
      { unfold exec. cbn [app]. apply plus_run; auto. }
      assert (Hne : c :: run <> []) by discriminate.
      change (c :: run ++ tail) with ((c :: run) ++ tail).
      rewrite (scan_at_match _ _ _ _ _ _ _ Hne He).
      rewrite IH by (simpl in Hlen; rewrite length_app in Hlen; lia).
      cbn [app squeeze]. rewrite E, (squeeze_run C tail Ht run Hr).
      reflexivity.
    + rewrite scan_step_none.
      * rewrite IH by (simpl in Hlen; lia). cbn [squeeze]. rewrite E.
        reflexivity.
      * unfold exec, plus. cbn [rmatch rest]. rewrite E. reflexivity.
Qed.

Lemma squeeze_single_spaced : forall l b,
  single_spaced b (squeeze is_space b l) = true.
Proof.
  induction l as [|c t IH]; intro b; [reflexivity|].
  cbn [squeeze]. destruct (is_space c) eqn:E.
  - destruct b; [apply IH|]. cbn [single_spaced]. rewrite IH. reflexivity.
  - cbn [single_spaced]. rewrite E. apply IH.
Qed.

(** *** From single spaces to the compact form *)

Lemma last_default (l : str) : forall x y, l <> [] -> last l x = last l y.
Proof.
  induction l as [|c l IH]; intros x y H; [congruence|].
  destruct l as [|d l]; [reflexivity|].
  change (last (c :: d :: l) x) with (last (d :: l) x).
  change (last (c :: d :: l) y) with (last (d :: l) y).
  apply IH. discriminate.
Qed.

Lemma last_cons_cons (c d : ascii) t x : last (c :: d :: t) x = last (d :: t) d.
Proof.
  change (last (c :: d :: t) x) with (last (d :: t) x).
  apply last_default. discriminate.
Qed.

Lemma single_spaced_compact : forall s a,
  single_spaced (negb a) s = true -> ends_ok a s = true ->
  compact_from a s = true.
Proof.
  induction s as [|c t IH]; intros a Hs He; [exact He|].
  cbn [single_spaced compact_from] in *.
  destruct (is_space c) eqn:E.
  - apply andb_true_iff in Hs. destruct Hs as [Hs Ht].
    apply andb_true_iff in Hs. destruct Hs as [Hc Ha].
    rewrite negb_involutive in Ha. rewrite Hc, Ha. cbn [andb].
    apply (IH false); [exact Ht|].
    destruct t as [|d t].
    + simpl in He. rewrite E in He. discriminate.
    + cbn [ends_ok] in *. rewrite last_cons_cons in He. exact He.
  - apply (IH true); [exact Hs|].
    destruct t as [|d t]; [reflexivity|].
    cbn [ends_ok] in *. rewrite last_cons_cons in He. exact He.
Qed.

Lemma single_spaced_app : forall z ws b,
  single_spaced b (z ++ ws) = true -> single_spaced b z = true.
Proof.
  induction z as [|c z IH]; intros ws b H; [reflexivity|].
  cbn [app single_spaced] in *. destruct (is_space c).
  - apply andb_true_iff in H. destruct H as [H1 H2].
    rewrite H1, (IH _ _ H2). reflexivity.
  - apply (IH _ _ H).
Qed.

Lemma single_spaced_trimStart s :
  single_spaced false s = true -> single_spaced false (trimStart s) = true.
Proof.
  destruct s as [|c t]; [reflexivity|]. cbn [single_spaced trimStart].
  destruct (is_space c) eqn:E;
    [|intro H; cbn [single_spaced]; rewrite E; exact H].
  intro H. apply andb_true_iff in H. destruct H as [_ Ht].
  destruct t as [|d t]; [reflexivity|].
  cbn [single_spaced trimStart] in *. destruct (is_space d) eqn:Ed.
  - apply andb_true_iff in Ht. destruct Ht as [Ht _].
    apply andb_true_iff in Ht. destruct Ht as [_ Ht]. discriminate.
  - cbn [single_spaced]. rewrite Ed. exact Ht.
Qed.

Lemma single_spaced_trim_compact s :
  single_spaced false s = true -> compact (trim s) = true.
Proof.
  intro H. apply single_spaced_trimStart in H.
  pose proof (trim_no_edge_space s) as He.
  unfold trim in *.
  destruct (trimEnd_split (trimStart s)) as (ws & E & _).
  rewrite E in H. apply single_spaced_app in H.
  destruct (trimEnd (trimStart s)) as [|c t]; [reflexivity|].
  unfold compact. cbn [no_edge_space] in He.
  apply andb_true_iff in He. destruct He as [Hc Hl].
  apply single_spaced_compact.
  - cbn [negb single_spaced] in *. apply negb_true_iff in Hc.
    rewrite Hc in *. exact H.
  - exact Hl.
Qed.

Lemma squeezed_compact sql :
  compact (trim (replace_all re_spaces (Template (js " ")) sql)) = true.
Proof.
  apply single_spaced_trim_compact. unfold replace_all, re_spaces, space_class.
  change (Template (js " ")) with (Template [space]).
  rewrite (scan_squeeze is_space (length sql)) by lia.
  apply squeeze_single_spaced.
Qed.

End LineFacts.

(* ================================================================== *)
(** ** Facts about letter case, blank statements and the cleanup *)

Module CleanupFacts.
Import Chars Js Regex Parser Analysis Shapes.
Import StringFacts RegexFacts ParserFacts RunFacts RuleFacts LineFacts.

Lemma star_loop_keeps greedy body k :
  (forall k' s out, body k' s = Some out -> reaches k' s out) ->
  forall fuel s out, star_loop greedy body k fuel s = Some out ->
  reaches k s out.
Proof.
  intros Hbody fuel; induction fuel as [|fuel IH]; intros s out H; simpl in H.
  - exists s, []; auto.
  - assert (Hk : k s = Some out -> reaches k s out)
      by (intro; exists s, []; auto).
    assert (Hagain : forall o,
      body (fun s' => if length (rest s') <? length (rest s)
                      then star_loop greedy body k fuel s' else None) s = Some o ->
      reaches k s o).
    { intros o Ho. apply Hbody in Ho. destruct Ho as (s1 & m1 & Hs1 & E1 & C1).
      destruct (length (rest s1) <? length (rest s)); [|discriminate].
      apply IH in Hs1. destruct Hs1 as (s2 & m2 & Hs2 & E2 & C2).
      exists s2, (m1 ++ m2). split; auto. split.
      - rewrite E1, E2, app_assoc; reflexivity.
      - congruence. }
    destruct greedy; unfold orelse in H.
    + destruct (body _ s) eqn:E.
      * inversion H; subst. apply Hagain. reflexivity.
      * auto.
    + destruct (k s) eqn:E.
      * inversion H; subst. apply Hk. reflexivity.
      * auto.
Qed.

Lemma rmatch_keeps r : groupless r = true ->
  forall k s out, rmatch r k s = Some out -> reaches k s out.
Proof.
  induction r as [|p|r1 IH1 r2 IH2|r1 IH1 r2 IH2|g r1 IH1|n r1 IH1| |];
    intros Hg k s out H; simpl in H, Hg.
  - exists s, []; auto.
  - destruct s as [pv [|c t] cs]; simpl in H; [discriminate|].
    destruct (p c); [|discriminate].
    exists (MState (Some c) t cs), [c]; auto.
  - apply andb_true_iff in Hg. destruct Hg as [G1 G2].
    apply (IH1 G1) in H. destruct H as (s1 & m1 & H1 & E1 & C1).
    apply (IH2 G2) in H1. destruct H1 as (s2 & m2 & H2 & E2 & C2).
    exists s2, (m1 ++ m2). split; auto. split.
    + rewrite E1, E2, app_assoc; reflexivity.
    + congruence.
  - apply andb_true_iff in Hg. destruct Hg as [G1 G2].
    unfold orelse in H. destruct (rmatch r1 k s) eqn:E.
    + inversion H; subst. apply (IH1 G1 _ _ _ E).
    + apply (IH2 G2 _ _ _ H).
  - apply star_loop_keeps in H; auto.
  - discriminate.
  - destruct (at_word_boundary s); [|discriminate]. exists s, []; auto.
  - destruct (rest s) eqn:E; [|discriminate]. exists s, []; auto.
Qed.

(** A group around a pattern without groups records what it passed over. *)
Lemma rmatch_group_inv n r k s out :
  groupless r = true -> rmatch (Group n r) k s = Some out ->
  exists p' m tail,
    k (MState p' tail ((n, m) :: caps s)) = Some out
    /\ rest s = m ++ tail.
Proof.
  intros Hg H. cbn [rmatch] in H. apply (rmatch_keeps r Hg) in H.
  destruct H as (s1 & m & H & E & C).
  exists (prev s1), m, (rest s1). split; [|exact E].
  rewrite E, consumed_app, C in H. exact H.
Qed.

Lemma rmatch_ch_inv c k s out :
  rmatch (ch c) k s = Some out ->
  exists tail, rest s = c :: tail /\ k (MState (Some c) tail (caps s)) = Some out.
Proof.
  cbn [rmatch ch]. destruct (rest s) as [|d t]; [discriminate|].
  destruct (eqc c d) eqn:E; [|discriminate].
  unfold eqc in E. apply Ascii.eqb_eq in E. subst d. eauto.
Qed.

Lemma rmatch_chi_inv c k s out :
  rmatch (chi c) k s = Some out ->
  exists d tail, rest s = d :: tail /\ to_upper d = to_upper c
                 /\ k (MState (Some d) tail (caps s)) = Some out.
Proof.
  cbn [rmatch chi]. destruct (rest s) as [|d t]; [discriminate|].
  destruct (eqc_ci c d) eqn:E; [|discriminate].
  unfold eqc_ci in E. apply Ascii.eqb_eq in E. eauto.
Qed.

(** A literal under the [i] flag matches a spelling of it. *)
Lemma rmatch_liti_inv : forall w k s out,
  rmatch (liti_of w) k s = Some out ->
  exists v p' tail,
    rest s = v ++ tail /\ toUpperCase v = toUpperCase w
    /\ k (MState p' tail (caps s)) = Some out.
Proof.
  induction w as [|c w IH]; intros k s out H.
  - exists [], (prev s), (rest s). repeat split. destruct s; exact H.
  - destruct w as [|d w].
    + apply rmatch_chi_inv in H. destruct H as (x & t & E & U & H).
      exists [x], (Some x), t. simpl. rewrite U. auto.
    + change (liti_of (c :: d :: w)) with (Seq (chi c) (liti_of (d :: w))) in H.
      cbn [rmatch] in H. apply rmatch_chi_inv in H.
      destruct H as (x & t & E & U & H).
      apply IH in H. destruct H as (v & p' & tail & E' & U' & H).
      cbn [rest caps] in *.
      exists (x :: v), p', tail. repeat split.
      * rewrite E, E'. reflexivity.
      * unfold toUpperCase in *. cbn [map]. rewrite U. f_equal. exact U'.
      * exact H.
Qed.

Lemma exec_text r p l s' :
  exec r p l = Some s' -> l = consumed l (rest s') ++ rest s'.
Proof.
  unfold exec. intro H. apply (rmatch_reach is_upper) in H.
  destruct H as (s1 & m & H1 & E & _). inversion H1; subst. simpl in E.
  rewrite E at 1. rewrite E, consumed_app. reflexivity.
Qed.

Lemma scan_case_only r rp : case_only r rp ->
  forall l n p, toUpperCase (scan r rp p l n) = toUpperCase (skipn n l).
Proof.
  unfold case_only, toUpperCase. intros Hco.
  induction l as [|c t IH]; intros n p.
  - cbn [scan]. destruct n; [|reflexivity].
    destruct (exec r p []) as [s'|] eqn:E; [|reflexivity].
    specialize (Hco _ _ _ E). unfold consumed in Hco.
    cbn [length Nat.sub firstn] in Hco. exact Hco.
  - cbn [scan]. destruct n as [|n]; [|apply IH].
    destruct (exec r p (c :: t)) as [s'|] eqn:E.
    + pose proof (exec_text _ _ _ _ E) as Et.
      rewrite map_app, (Hco _ _ _ E).
      destruct (consumed (c :: t) (rest s')) as [|x m] eqn:Em.
      * cbn [length app skipn map]. f_equal. apply (IH 0).
      * cbn [length]. cbn [app] in Et. injection Et as -> Et.
        rewrite IH. cbn [skipn]. rewrite Et at 1 2.
        rewrite skipn_app, skipn_all, Nat.sub_diag. cbn [skipn app].
        rewrite <- map_app. reflexivity.
    + cbn [skipn map]. f_equal. apply (IH 0).
Qed.

Lemma replace_all_case_only r rp s :
  case_only r rp -> toUpperCase (replace_all r rp s) = toUpperCase s.
Proof. intro H. apply (scan_case_only r rp H s 0 None). Qed.

(** A match of the first pattern: a spelling of the name, and between the
    parentheses the two captures. *)
Lemma group_concat_match p l s' :
  exec re_group_concat p l = Some s' ->
  exists v,
    toUpperCase v = js "GROUP_CONCAT"
    /\ consumed l (rest s')
       = v ++ "("%char :: group 1 (caps s') ++ group 2 (caps s') ++ [")"%char].
Proof.
  intro H.
  set (G1 := Group 1 (seq [liti "DISTINCT"; plus space_class])).
  set (K := rmatch (Group 2 (plus not_rparen)) (rmatch (ch ")"%char) Some)).
  change (rmatch (liti_of (js "GROUP_CONCAT"))
            (rmatch (ch "("%char)
               (fun s => orelse (rmatch G1 K s) (K s)))
            (MState p l []) = Some s') in H.
  apply rmatch_liti_inv in H. destruct H as (v & p1 & r1 & E1 & U & H).
  apply rmatch_ch_inv in H. destruct H as (r2 & E2 & H).
  cbn [rest caps] in *.
  assert (Hg : exists p3 m3 r3 cs3,
    K (MState p3 r3 cs3) = Some s'
    /\ r2 = m3 ++ r3 /\ group 1 cs3 = m3).
  { unfold orelse in H.
    destruct (rmatch G1 K _) eqn:EG.
    - injection H as <-. apply rmatch_group_inv in EG; [|reflexivity].
      destruct EG as (p3 & m3 & r3 & HK & E3). cbn [rest caps] in *.
      exists p3, m3, r3, [(1, m3)]. auto.
    - exists (Some "("%char), [], r2, []. auto. }
  destruct Hg as (p3 & m3 & r3 & cs3 & HK & E3 & G).
  unfold K in HK. apply rmatch_group_inv in HK; [|reflexivity].
  destruct HK as (p4 & m4 & r4 & HK & E4). cbn [rest caps] in *.
  apply rmatch_ch_inv in HK. destruct HK as (r5 & E5 & HK).
  cbn [rest caps] in *. injection HK as <-. cbn [rest caps].
  exists v. split; [exact U|].
  assert (El : l = (v ++ "("%char :: m3 ++ m4 ++ [")"%char]) ++ r5).
  { rewrite E1, E2, E3, E4, E5. norm_app. reflexivity. }
  rewrite El at 1. rewrite consumed_app.
  change (group 1 ((2, m4) :: cs3)) with (group 1 cs3).
  change (group 2 ((2, m4) :: cs3)) with m4.
  rewrite G. reflexivity.
Qed.

Lemma group_concat_dot_match p l s' :
  exec re_group_concat_dot p l = Some s' ->
  exists v,
    toUpperCase v = js "GROUP_CONCAT"
    /\ consumed l (rest s')
       = v ++ "("%char :: group 1 (caps s') ++ [")"%char].
Proof.
  intro H.
  set (G1 := Group 1 (seq [plus not_rparen; ch "."%char; plus not_rparen])).
  change (rmatch (liti_of (js "GROUP_CONCAT"))
            (rmatch (ch "("%char) (rmatch G1 (rmatch (ch ")"%char) Some)))
            (MState p l []) = Some s') in H.
  apply rmatch_liti_inv in H. destruct H as (v & p1 & r1 & E1 & U & H).
  apply rmatch_ch_inv in H. destruct H as (r2 & E2 & H).
  cbn [rest caps] in *.
  apply rmatch_group_inv in H; [|reflexivity].
  destruct H as (p3 & m3 & r3 & HK & E3). cbn [rest caps] in *.
  apply rmatch_ch_inv in HK. destruct HK as (r4 & E4 & HK).
  cbn [rest caps] in *. injection HK as <-. cbn [rest caps].
  exists v. split; [exact U|].
  assert (El : l = (v ++ "("%char :: m3 ++ [")"%char]) ++ r4).
  { rewrite E1, E2, E3, E4. norm_app. reflexivity. }
  rewrite El at 1. rewrite consumed_app. reflexivity.
Qed.

Lemma group_concat_case_only :
  case_only re_group_concat (Callback group_concat_callback).
Proof.
  intros p l s' H. destruct (group_concat_match _ _ _ H) as (v & U & ->).
  cbn [substitute]. unfold group_concat_callback, toUpperCase in *.
  rewrite !map_app. cbn [map]. rewrite !map_app. rewrite U. reflexivity.
Qed.

Lemma group_concat_dot_case_only :
  case_only re_group_concat_dot (Template (js "GROUP_CONCAT($1)")).
Proof.
  intros p l s' H. destruct (group_concat_dot_match _ _ _ H) as (v & U & ->).
  cbn [substitute]. unfold toUpperCase in *.
  rewrite !map_app. cbn [map]. rewrite !map_app. rewrite U.
  cbn. rewrite map_app. reflexivity.
Qed.

Lemma rules_need_text :
  forallb (fun m => needs not_space (regex m)) functionMappings = true.
Proof. vm_cast_no_check (eq_refl true). Qed.

Lemma table_options_need_text : needs not_space re_table_options = true.
Proof. vm_cast_no_check (eq_refl true). Qed.

Lemma all_space_has_no_text x :
  forallb is_space x = true -> has not_space x = false.
Proof.
  intro H. unfold has. apply not_true_is_false. intro E.
  apply existsb_exists in E. destruct E as (c & Hin & Hc).
  rewrite forallb_forall in H. unfold not_space in Hc.
  rewrite (H c Hin) in Hc. discriminate.
Qed.

Lemma scan_forallb P r rp :
  (forall m cs, forallb P (substitute rp m cs) = true) ->
  forall l n p, forallb P l = true -> forallb P (scan r rp p l n) = true.
Proof.
  intros Hs. induction l as [|c t IH]; intros n p Hl.
  - cbn [scan]. destruct n; [|reflexivity].
    destruct (exec r p []); [apply Hs|reflexivity].
  - simpl in Hl. apply andb_true_iff in Hl. destruct Hl as [Hc Ht].
    cbn [scan]. destruct n; [|apply IH, Ht].
    destruct (exec r p (c :: t)).
    + rewrite forallb_app, Hs. cbn [andb].
      destruct (length _); [|apply IH, Ht].
      cbn [forallb]. rewrite Hc. apply IH, Ht.
    + cbn [forallb]. rewrite Hc. apply IH, Ht.
Qed.

Lemma trim_all_space x : forallb is_space x = true -> trim x = [].
Proof.
  intro H. unfold trim.
  rewrite <- (app_nil_r x), trimStart_spaces by exact H. reflexivity.
Qed.

Lemma cleanup_all_space x : forallb is_space x = true -> cleanup x = [].
Proof.
  intro H. unfold cleanup.
  rewrite (replace_all_no_match re_table_options)
    by (apply (needs_no_match not_space);
        [apply table_options_need_text|apply all_space_has_no_text, H]).
  apply trim_all_space. unfold replace_all.
  apply scan_forallb; [intros; reflexivity|].
  apply scan_forallb; [intros; reflexivity|exact H].
Qed.

Lemma squeeze_blank_no_tab : forall l b,
  forallb not_tab (squeeze is_blank b l) = true.
Proof.
  induction l as [|c t IH]; intro b; [reflexivity|].
  cbn [squeeze]. destruct (is_blank c) eqn:E.
  - destruct b; [apply IH|]. cbn [forallb]. rewrite IH. reflexivity.
  - cbn [forallb]. rewrite IH, andb_true_r.
    unfold is_blank in E. apply orb_false_iff in E. destruct E as [_ E].
    unfold not_tab. rewrite E. reflexivity.
Qed.

End CleanupFacts.

(* ================================================================== *)
(** ** Facts about the rules for names and words *)

Module WordRuleFacts.
Import Chars Js Regex Parser Analysis Shapes.
Import StringFacts RegexFacts ParserFacts RunFacts RuleFacts LineFacts CleanupFacts.

(** *** Replacements that write the match back *)

Lemma scan_writes_back r rp : writes_back r rp ->
  forall l n p, scan r rp p l n = skipn n l.
Proof.
  intro Hw. induction l as [|c t IH]; intros n p.
  - cbn [scan]. destruct n; [|reflexivity].
    destruct (exec r p []) as [s'|] eqn:E; [|reflexivity].
    specialize (Hw _ _ _ E). unfold consumed in Hw.
    cbn [length Nat.sub firstn] in Hw. exact Hw.
  - cbn [scan]. destruct n as [|n]; [|apply IH].
    destruct (exec r p (c :: t)) as [s'|] eqn:E.
    + pose proof (exec_text _ _ _ _ E) as Et.
      rewrite (Hw _ _ _ E).
      destruct (consumed (c :: t) (rest s')) as [|x m] eqn:Em.
      * cbn [length app skipn]. f_equal. apply (IH 0).
      * cbn [length]. cbn [app] in Et. injection Et as -> Et.
        rewrite IH. cbn [skipn]. rewrite Et at 1 2.
        rewrite skipn_app, skipn_all, Nat.sub_diag. reflexivity.
    + cbn [skipn]. f_equal. apply (IH 0).
Qed.

Lemma groupless_lit_of : forall l, groupless (lit_of l) = true.
Proof.
  induction l as [|c l IH]; [reflexivity|].
  destruct l as [|d l]; [reflexivity|].
  change (groupless (Seq (ch c) (lit_of (d :: l))) = true).
  cbn [groupless ch]. exact IH.
Qed.

Lemma groupless_names : forall names, groupless (alt (map lit names)) = true.
Proof.
  induction names as [|a names IH]; [reflexivity|].
  destruct names as [|b names]; [apply groupless_lit_of|].
  change (groupless (Alt (lit a) (alt (map lit (b :: names)))) = true).
  cbn [groupless]. unfold lit at 1. rewrite groupless_lit_of. exact IH.
Qed.

(** A match of [\b(A|B|...)\(] is its capture and the parenthesis, which
    is what [$1(] writes. *)
Lemma call_named_writes_back names :
  writes_back (call_named names) (tpl "$1(").
Proof.
  intros p l s' H. unfold exec, call_named in H.
  cbn [seq rmatch] in H.
  destruct (at_word_boundary _); [|discriminate].
  change (rmatch (Group 1 (alt (map lit names))) (rmatch (ch "("%char) Some)
            (MState p l []) = Some s') in H.
  apply (rmatch_group_inv _ _ _ _ _ (groupless_names names)) in H.
  destruct H as (p' & m & tail & H & E). cbn [rest caps] in *.
  apply rmatch_ch_inv in H. destruct H as (tail' & Et & H).
  cbn [rest caps] in *. injection H as <-. cbn [rest caps].
  subst l tail.
  replace (m ++ "("%char :: tail') with ((m ++ ["("%char]) ++ tail')
    by (rewrite <- app_assoc; reflexivity).
  rewrite consumed_app. reflexivity.
Qed.

(** *** Rules for a fixed word *)

Lemma timestamp_rule_nonword p d t :
  is_word d = false -> exec (regex (mapping_at 21)) p (d :: t) = None.
Proof.
  intro H. unfold mapping_at. cbn [nth functionMappings regex]. unfold exec.
  cbn [seq alt rmatch lit js list_ascii_of_string lit_of ch rest caps].
  destruct (at_word_boundary _); [|reflexivity].
  rewrite (word_differs "T"%char d eq_refl H). reflexivity.
Qed.

Lemma timestamp_rule_nil p : exec (regex (mapping_at 21)) p [] = None.
Proof.
  unfold mapping_at. cbn [nth functionMappings regex]. unfold exec.
  cbn [seq alt rmatch lit js list_ascii_of_string lit_of ch rest caps].
  destruct (at_word_boundary _); reflexivity.
Qed.

Lemma binary_rule_nonword p d t :
  is_word d = false -> exec (regex (mapping_at 22)) p (d :: t) = None.
Proof.
  intro H. unfold mapping_at. cbn [nth functionMappings regex]. unfold exec.
  cbn [seq alt rmatch lit js list_ascii_of_string lit_of ch rest caps].
  destruct (at_word_boundary _); [|reflexivity].
  rewrite (word_differs "B"%char d eq_refl H). reflexivity.
Qed.

Lemma binary_rule_nil p : exec (regex (mapping_at 22)) p [] = None.
Proof.
  unfold mapping_at. cbn [nth functionMappings regex]. unfold exec.
  cbn [seq alt rmatch lit js list_ascii_of_string lit_of ch rest caps].
  destruct (at_word_boundary _); reflexivity.
Qed.

Lemma stops_word_hd tail :
  stops is_word tail = true -> is_word_opt (hd_error tail) = false.
Proof.
  destruct tail as [|d t]; [reflexivity|]. simpl. apply negb_true_iff.
Qed.

(** *** The table options *)

Lemma table_options_nonword p d t :
  is_word d = false -> exec re_table_options p (d :: t) = None.
Proof.
  intro H. unfold re_table_options, exec.
  cbn [seq alt rmatch lit js list_ascii_of_string lit_of ch rest caps].
  rewrite (word_differs "E"%char d eq_refl H),
          (word_differs "D"%char d eq_refl H),
          (word_differs "C"%char d eq_refl H). reflexivity.
Qed.

Lemma table_options_nil p : exec re_table_options p [] = None.
Proof. reflexivity. Qed.

Lemma exec_table_option key c w tail :
  In key ["ENGINE="; "DEFAULT CHARSET="; "COLLATE="]%string ->
  is_word c = true -> forallb is_word w = true -> stops is_word tail = true ->
  exec re_table_options None (js key ++ (c :: w) ++ tail)
  = Some (MState (last_char (c :: w) (Some "="%char)) tail []).
Proof.
  intros Hk Hc Hw Ht.
  pose proof (fun p => plus_run is_word Some tail _ c w p [] Hc Hw Ht eq_refl)
    as HW.
  unfold re_table_options, exec, word_class.
  remember (plus (Chr is_word)) as W eqn:EW. simpl in Hk.
  destruct Hk as [<-|[<-|[<-|[]]]]; cbn; repeat apply orelse_some; apply HW.
Qed.

End WordRuleFacts.

(* ================================================================== *)
(** ** Facts about single spaces and the lines of a text *)

Module SparseFacts.
Import Chars Js Regex Parser Analysis Shapes.
Import StringFacts RegexFacts ParserFacts RunFacts RuleFacts LineFacts CleanupFacts WordRuleFacts.

(** *** Occurrences *)

Lemma includes_app_intro : forall a w b, includes (a ++ w ++ b) w = true.
Proof.
  induction a as [|c a IH]; intros w b.
  - cbn [app]. apply includes_starts, startsWith_app.
  - cbn [app]. apply includes_cons, IH.
Qed.

Lemma includes_app_elim : forall s w,
  includes s w = true -> exists a b, s = a ++ w ++ b.
Proof.
  induction s as [|c s IH]; intros w H.
  - cbn [includes] in H. rewrite orb_false_r in H.
    exists [], []. apply startsWith_split in H.
    rewrite H at 1. cbn [app]. destruct w; [reflexivity|discriminate].
  - cbn [includes] in H. apply orb_true_iff in H. destruct H as [H|H].
    + exists [], (skipn (length w) (c :: s)). apply startsWith_split, H.
    + destruct (IH w H) as (a & b & E). exists (c :: a), b.
      rewrite E. reflexivity.
Qed.

Lemma includes_trans s m w :
  includes s m = true -> includes m w = true -> includes s w = true.
Proof.
  intros H1 H2. apply includes_app_elim in H1, H2.
  destruct H1 as (a & b & ->). destruct H2 as (a' & b' & ->).
  replace (a ++ (a' ++ w ++ b') ++ b) with ((a ++ a') ++ w ++ (b' ++ b))
    by (rewrite <- !app_assoc; reflexivity).
  apply includes_app_intro.
Qed.

(** *** Statements without runs of blanks *)

Section Sparse.
Variable C : ascii -> bool.
Hypothesis C_space : C space = true.

Lemma eqc_eq a b : eqc a b = true -> a = b.
Proof. unfold eqc. apply Ascii.eqb_eq. Qed.

Lemma sparse_weaken : forall s a, sparse C a s = true -> sparse C false s = true.
Proof.
  intros [|c t] a H; [reflexivity|]. cbn [sparse] in *.
  destruct (C c); [|exact H].
  apply andb_true_iff in H. destruct H as [H Ht].
  apply andb_true_iff in H. destruct H as [Hc _].
  rewrite Hc, Ht. reflexivity.
Qed.

Lemma sparse_squeeze : forall l b, sparse C b (squeeze C b l) = true.
Proof.
  induction l as [|c t IH]; intro b; [reflexivity|].
  cbn [squeeze]. destruct (C c) eqn:Ec.
  - destruct b; [apply IH|].
    cbn [sparse]. rewrite C_space. unfold eqc. rewrite Ascii.eqb_refl.
    cbn [andb negb]. apply IH.
  - cbn [sparse]. rewrite Ec. apply IH.
Qed.

Lemma squeeze_sparse : forall l b, sparse C b l = true -> squeeze C b l = l.
Proof.
  induction l as [|c t IH]; intros b H; [reflexivity|].
  cbn [sparse] in H. cbn [squeeze]. destruct (C c).
  - apply andb_true_iff in H. destruct H as [H Ht].
    apply andb_true_iff in H. destruct H as [Hc Hb].
    apply negb_true_iff in Hb. subst b. apply eqc_eq in Hc. subst c.
    rewrite (IH true Ht). reflexivity.
  - rewrite (IH false H). reflexivity.
Qed.

Lemma sparse_app_l : forall x y a, sparse C a (x ++ y) = true -> sparse C a x = true.
Proof.
  induction x as [|c x IH]; intros y a H; [reflexivity|].
  cbn [app sparse] in *. destruct (C c).
  - apply andb_true_iff in H. destruct H as [H Ht]. rewrite H.
    apply (IH y true Ht).
  - apply (IH y false H).
Qed.

Lemma sparse_app_r : forall x y a,
  sparse C a (x ++ y) = true -> sparse C false y = true.
Proof.
  induction x as [|c x IH]; intros y a H.
  - apply (sparse_weaken y a H).
  - cbn [app sparse] in H. destruct (C c).
    + apply andb_true_iff in H. destruct H as [_ Ht]. apply (IH y true Ht).
    + apply (IH y false H).
Qed.

Lemma sparse_trim s : sparse C false s = true -> sparse C false (trim s) = true.
Proof.
  intro H. unfold trim.
  destruct (trimStart_split s) as (ws & E & _).
  destruct (trimEnd_split (trimStart s)) as (ws' & E' & _).
  rewrite E in H. apply sparse_app_r in H. rewrite E' in H.
  apply sparse_app_l in H. exact H.
Qed.

(** A replacement by one character outside [C] keeps the property. *)
Lemma scan_sparse r d :
  C d = false -> is_code 36 d = false ->
  (forall p l s', exec r p l = Some s' -> consumed l (rest s') <> []) ->
  forall l n p a, sparse C a l = true ->
  sparse C (match n with 0 => a | _ => false end)
    (scan r (Template [d]) p l n) = true.
Proof.
  intros Hd H36 Hne. induction l as [|c t IH]; intros n p a H.
  - cbn [scan]. destruct n; [|reflexivity].
    destruct (exec r p []) as [s'|] eqn:E; [|reflexivity].
    exfalso. apply (Hne _ _ _ E). reflexivity.
  - cbn [scan]. destruct n as [|n].
    + destruct (exec r p (c :: t)) as [s'|] eqn:E.
      * pose proof (Hne _ _ _ E) as Hm.
        destruct (consumed (c :: t) (rest s')) as [|x m]; [congruence|].
        cbn [substitute expand length]. rewrite H36. cbn [app sparse].
        rewrite Hd.
        assert (Ht : sparse C (C c) t = true).
        { cbn [sparse] in H. destruct (C c); [|exact H].
          apply andb_true_iff in H. apply H. }
        specialize (IH (length m) (Some c) (C c) Ht).
        destruct (length m); [apply (sparse_weaken _ _ IH)|exact IH].
      * cbn [sparse] in *. destruct (C c).
        -- apply andb_true_iff in H. destruct H as [H Ht]. rewrite H.
           apply (IH 0 (Some c) true Ht).
        -- apply (IH 0 (Some c) false H).
    + assert (Ht : sparse C (C c) t = true).
      { cbn [sparse] in H. destruct (C c); [|exact H].
        apply andb_true_iff in H. apply H. }
      specialize (IH n (Some c) (C c) Ht).
      destruct n; [apply (sparse_weaken _ _ IH)|exact IH].
Qed.

End Sparse.

(** *** Lines of a text *)

Lemma split_not_nil sep : forall s, split sep s <> [].
Proof.
  induction s as [|c s IH]; [discriminate|]. cbn [split].
  destruct (eqc c sep); [discriminate|].
  destruct (split sep s); discriminate.
Qed.

Lemma split_cons_other sep c s :
  eqc c sep = false ->
  exists w ws, split sep s = w :: ws /\ split sep (c :: s) = (c :: w) :: ws.
Proof.
  intro H. cbn [split]. rewrite H.
  destruct (split sep s) as [|w ws] eqn:E.
  - exfalso. apply (split_not_nil sep s E).
  - exists w, ws. split; reflexivity.
Qed.

Lemma split_app sep : forall a b,
  split sep (a ++ sep :: b) = split sep a ++ split sep b.
Proof.
  induction a as [|c a IH]; intro b.
  - cbn [app split]. unfold eqc. rewrite Ascii.eqb_refl. reflexivity.
  - cbn [app split]. destruct (eqc c sep).
    + rewrite IH. reflexivity.
    + rewrite IH. destruct (split sep a) as [|w ws] eqn:E.
      * exfalso. apply (split_not_nil sep a E).
      * reflexivity.
Qed.

Lemma lines_of_nil : lines_of [] = [].
Proof. reflexivity. Qed.

Lemma lines_of_app_nl a b :
  lines_of (a ++ newline :: b) = lines_of a ++ lines_of b.
Proof.
  unfold lines_of. rewrite split_app, map_app, filter_app. reflexivity.
Qed.

Lemma trim_cons_space c s : is_space c = true -> trim (c :: s) = trim s.
Proof. intro H. unfold trim. cbn [trimStart]. rewrite H. reflexivity. Qed.

Lemma lines_of_cons_space c s :
  is_space c = true -> lines_of (c :: s) = lines_of s.
Proof.
  intro H. destruct (eqc c newline) eqn:E.
  - apply eqc_eq in E. subst c.
    change (newline :: s) with ([] ++ newline :: s).
    rewrite lines_of_app_nl. reflexivity.
  - destruct (split_cons_other newline c s E) as (w & ws & E1 & E2).
    unfold lines_of. rewrite E1, E2. cbn [map].
    rewrite (trim_cons_space c w H). reflexivity.
Qed.

Lemma lines_of_spaces_app : forall ws s,
  forallb is_space ws = true -> lines_of (ws ++ s) = lines_of s.
Proof.
  induction ws as [|c ws IH]; intros s H; [reflexivity|].
  cbn [forallb] in H. apply andb_true_iff in H. destruct H as [Hc Hw].
  cbn [app]. rewrite (lines_of_cons_space c _ Hc). apply IH, Hw.
Qed.

Lemma lines_of_spaces ws : forallb is_space ws = true -> lines_of ws = [].
Proof.
  intro H. rewrite <- (app_nil_r ws). rewrite lines_of_spaces_app by exact H.
  reflexivity.
Qed.

Lemma trimEnd_snoc_space s c : is_space c = true -> trimEnd (s ++ [c]) = trimEnd s.
Proof.
  intro H. unfold trimEnd. rewrite rev_app_distr. cbn [rev app trimStart].
  rewrite H. reflexivity.
Qed.

Lemma trimStart_snoc_space : forall s c,
  is_space c = true ->
  trimStart (s ++ [c]) = match trimStart s with [] => [] | t => t ++ [c] end.
Proof.
  induction s as [|d s IH]; intros c H.
  - cbn [app trimStart]. rewrite H. reflexivity.
  - cbn [app trimStart]. destruct (is_space d); [apply IH, H|reflexivity].
Qed.

Lemma trim_snoc_space s c : is_space c = true -> trim (s ++ [c]) = trim s.
Proof.
  intro H. unfold trim. rewrite (trimStart_snoc_space s c H).
  destruct (trimStart s) as [|d t]; [reflexivity|].
  apply trimEnd_snoc_space, H.
Qed.

Lemma split_snoc_other sep c : forall s,
  eqc c sep = false ->
  exists init w, split sep s = init ++ [w]
                 /\ split sep (s ++ [c]) = init ++ [w ++ [c]].
Proof.
  intros s H. induction s as [|d s IH].
  - exists [], []. cbn [app split]. rewrite H. split; reflexivity.
  - destruct IH as (init & w & E1 & E2). cbn [app split].
    destruct (eqc d sep).
    + exists ([] :: init), w. rewrite E1, E2. split; reflexivity.
    + rewrite E1, E2. destruct init as [|i init]; cbn [app].
      * exists [], (d :: w). split; reflexivity.
      * exists ((d :: i) :: init), w. split; reflexivity.
Qed.

Lemma lines_of_snoc_space s c :
  is_space c = true -> lines_of (s ++ [c]) = lines_of s.
Proof.
  intro H. destruct (eqc c newline) eqn:E.
  - apply eqc_eq in E. subst c. rewrite lines_of_app_nl, lines_of_nil.
    apply app_nil_r.
  - destruct (split_snoc_other newline c s E) as (init & w & E1 & E2).
    unfold lines_of. rewrite E1, E2, !map_app. cbn [map].
    rewrite (trim_snoc_space w c H). reflexivity.
Qed.

Lemma lines_of_app_spaces : forall ws s,
  forallb is_space ws = true -> lines_of (s ++ ws) = lines_of s.
Proof.
  induction ws as [|c ws IH]; intros s H; [rewrite app_nil_r; reflexivity|].
  cbn [forallb] in H. apply andb_true_iff in H. destruct H as [Hc Hw].
  replace (s ++ c :: ws) with ((s ++ [c]) ++ ws)
    by (rewrite <- app_assoc; reflexivity).
  rewrite (IH _ Hw). apply lines_of_snoc_space, Hc.
Qed.

(** Trimming a text changes none of its lines. *)
Lemma lines_of_trim s : lines_of (trim s) = lines_of s.
Proof.
  unfold trim.
  destruct (trimStart_split s) as (ws & E & Hws).
  destruct (trimEnd_split (trimStart s)) as (ws' & E' & Hws').
  rewrite E at 2. rewrite (lines_of_spaces_app ws _ Hws).
  rewrite E' at 2. rewrite (lines_of_app_spaces ws' _ Hws'). reflexivity.
Qed.

(** *** The lines of a text without runs of blanks *)

Section SparseLines.
Variable C : ascii -> bool.
Hypothesis C_space : C space = true.
Hypothesis C_newline : C newline = false.

Lemma sparse_split : forall s a,
  sparse C a s = true ->
  exists w ws, split newline s = w :: ws
               /\ sparse C a w = true
               /\ forallb (sparse C false) ws = true.
Proof.
  induction s as [|c s IH]; intros a H.
  - exists [], []. repeat split; reflexivity.
  - cbn [split]. destruct (eqc c newline) eqn:E.
    + apply eqc_eq in E. subst c. cbn [sparse] in H. rewrite C_newline in H.
      destruct (IH false H) as (w & ws & -> & Hw & Hws).
      exists [], (w :: ws). cbn [forallb]. rewrite Hw, Hws.
      repeat split; reflexivity.
    + cbn [sparse] in H. destruct (C c) eqn:Ec.
      * apply andb_true_iff in H. destruct H as [H Ht].
        destruct (IH true Ht) as (w & ws & -> & Hw & Hws).
        exists (c :: w), ws. cbn [sparse]. rewrite Ec, H, Hw, Hws.
        repeat split; reflexivity.
      * destruct (IH false H) as (w & ws & -> & Hw & Hws).
        exists (c :: w), ws. cbn [sparse]. rewrite Ec, Hw, Hws.
        repeat split; reflexivity.
Qed.

Lemma sparse_lines s :
  sparse C false s = true -> forallb (sparse C false) (lines_of s) = true.
Proof.
  intro H. destruct (sparse_split s false H) as (w & ws & E & Hw & Hws).
  unfold lines_of. rewrite E.
  assert (Hall : forallb (sparse C false) (w :: ws) = true)
    by (cbn [forallb]; rewrite Hw, Hws; reflexivity).
  clear E Hw Hws. rewrite forallb_forall in *. intros x Hx.
  apply filter_In in Hx. destruct Hx as [Hx _].
  apply in_map_iff in Hx. destruct Hx as (y & <- & Hy).
  apply (sparse_trim C), Hall, Hy.
Qed.

End SparseLines.

End SparseFacts.

(* ================================================================== *)
(** ** Facts about the white-space steps of cleanup *)

Module SqueezeFacts.
Import Chars Js Regex Parser Analysis Shapes.
Import StringFacts RegexFacts ParserFacts RunFacts RuleFacts LineFacts CleanupFacts WordRuleFacts
  SparseFacts.

(** *** What a run quantifier has passed *)

Lemma star_chr_inv C g k : forall fuel s out,
  star_loop g (rmatch (Chr C)) k fuel s = Some out ->
  exists run s1, rest s = run ++ rest s1 /\ caps s1 = caps s
                 /\ forallb C run = true /\ k s1 = Some out.
Proof.
  induction fuel as [|fuel IH]; intros s out H; cbn [star_loop] in H.
  - exists [], s. repeat split; assumption.
  - assert (Hk : k s = Some out ->
                 exists run s1, rest s = run ++ rest s1 /\ caps s1 = caps s
                                /\ forallb C run = true /\ k s1 = Some out)
      by (intro Hs; exists [], s; repeat split; assumption).
    assert (Hagain : forall o,
      rmatch (Chr C)
        (fun s' => if length (rest s') <? length (rest s)
                   then star_loop g (rmatch (Chr C)) k fuel s' else None) s
      = Some o ->
      exists run s1, rest s = run ++ rest s1 /\ caps s1 = caps s
                     /\ forallb C run = true /\ k s1 = Some o).
    { intros o Ho. cbn [rmatch] in Ho.
      destruct (rest s) as [|c t] eqn:Er; [discriminate|].
      destruct (C c) eqn:Ec; [|discriminate]. cbn [rest] in Ho.
      destruct (length t <? length (c :: t)); [|discriminate].
      apply IH in Ho. destruct Ho as (run & s1 & E1 & E2 & E3 & E4).
      cbn [rest caps] in E1, E2.
      exists (c :: run), s1. cbn [forallb app]. rewrite Ec, E3, E1.
      repeat split; assumption. }
    destruct g; unfold orelse in H.
    + match type of H with
      | match ?b with _ => _ end = _ => destruct b eqn:E
      end.
      * inversion H; subst. apply Hagain. reflexivity.
      * auto.
    + destruct (k s) eqn:E.
      * inversion H; subst. apply Hk. reflexivity.
      * auto.
Qed.

(** *** Blank lines *)

(** A match of [\n\s*\n]: two line feeds and the white space between. *)
Lemma blank_lines_match p l s' :
  exec re_blank_lines p l = Some s' ->
  exists w, l = newline :: w ++ newline :: rest s'
            /\ forallb is_space w = true.
Proof.
  unfold exec, re_blank_lines. cbn [seq rmatch]. intro H.
  apply rmatch_ch_inv in H. destruct H as (t & El & H). cbn [rest caps] in *.
  unfold star, space_class in H. cbn [rmatch rest] in H.
  apply star_chr_inv in H.
  destruct H as (w & s1 & E1 & _ & Hw & H). cbn [rest] in E1.
  apply rmatch_ch_inv in H. destruct H as (r & Er & H).
  injection H as <-. cbn [rest].
  exists w. rewrite El, E1, Er. split; [reflexivity|exact Hw].
Qed.

Lemma blank_lines_match_text p l s' :
  exec re_blank_lines p l = Some s' ->
  exists w, l = newline :: w ++ newline :: rest s'
            /\ forallb is_space w = true
            /\ consumed l (rest s') = newline :: w ++ [newline].
Proof.
  intro H. destruct (blank_lines_match p l s' H) as (w & E & Hw).
  exists w. split; [exact E|]. split; [exact Hw|].
  rewrite E at 1.
  replace (newline :: w ++ newline :: rest s')
    with ((newline :: w ++ [newline]) ++ rest s')
    by (cbn [app]; rewrite <- app_assoc; reflexivity).
  apply consumed_app.
Qed.

(** Removing blank lines changes none of the lines. *)
Lemma lines_of_blank_lines_from : forall n l cur p,
  length l <= n ->
  lines_of (cur ++ scan re_blank_lines (Template [newline]) p l 0)
  = lines_of (cur ++ l).
Proof.
  induction n as [|n IH]; intros l cur p Hn.
  - destruct l; [|cbn [length] in Hn; lia]. cbn [scan].
    destruct (exec re_blank_lines p []) as [s'|] eqn:E; [|reflexivity].
    apply blank_lines_match in E. destruct E as (w & E & _). discriminate.
  - destruct l as [|c t].
    + cbn [scan].
      destruct (exec re_blank_lines p []) as [s'|] eqn:E; [|reflexivity].
      apply blank_lines_match in E. destruct E as (w & E & _). discriminate.
    + cbn [length] in Hn. cbn [scan].
      destruct (exec re_blank_lines p (c :: t)) as [s'|] eqn:E.
      * destruct (blank_lines_match_text _ _ _ E) as (w & El & Hw & Em).
        rewrite Em. injection El as -> Et.
        change (substitute (Template [newline]) (newline :: w ++ [newline])
                  (caps s')) with [newline].
        cbn [length]. subst t.
        replace (w ++ newline :: rest s') with ((w ++ [newline]) ++ rest s')
          by (rewrite <- app_assoc; reflexivity).
        rewrite scan_skip. cbn [app].
        rewrite lines_of_app_nl.
        rewrite <- app_assoc. cbn [app].
        rewrite !lines_of_app_nl, (lines_of_spaces w Hw). cbn [app].
        f_equal.
        apply (IH (rest s') [] _).
        rewrite length_app in Hn. cbn [length] in Hn. lia.
      * replace (cur ++ c :: scan re_blank_lines (Template [newline]) (Some c) t 0)
          with ((cur ++ [c]) ++ scan re_blank_lines (Template [newline]) (Some c) t 0)
          by (rewrite <- app_assoc; reflexivity).
        replace (cur ++ c :: t) with ((cur ++ [c]) ++ t)
          by (rewrite <- app_assoc; reflexivity).
        apply IH. lia.
Qed.

Lemma lines_of_blank_lines s :
  lines_of (replace_all re_blank_lines (Template [newline]) s) = lines_of s.
Proof. apply (lines_of_blank_lines_from (length s) s [] None (le_n _)). Qed.

(** *** Squeezing runs line by line *)

Lemma trim_app_spaces : forall ws s,
  forallb is_space ws = true -> trim (s ++ ws) = trim s.
Proof.
  induction ws as [|c ws IH]; intros s H; [rewrite app_nil_r; reflexivity|].
  cbn [forallb] in H. apply andb_true_iff in H. destruct H as [Hc Hw].
  replace (s ++ c :: ws) with ((s ++ [c]) ++ ws)
    by (rewrite <- app_assoc; reflexivity).
  rewrite (IH _ Hw). apply trim_snoc_space, Hc.
Qed.

Lemma trim_spaces_app ws s :
  forallb is_space ws = true -> trim (ws ++ s) = trim s.
Proof.
  intro H. unfold trim. rewrite (trimStart_spaces ws s H). reflexivity.
Qed.

Section Squeeze.
Variable C : ascii -> bool.
Hypothesis C_space : C space = true.
Hypothesis C_newline : C newline = false.
Hypothesis C_is_space : forall c, C c = true -> is_space c = true.

Lemma C_not_newline c : C c = true -> eqc c newline = false.
Proof.
  intro H. destruct (eqc c newline) eqn:E; [|reflexivity].
  apply eqc_eq in E. subst c. congruence.
Qed.

Lemma split_squeeze : forall s b,
  exists w ws, split newline s = w :: ws
    /\ split newline (squeeze C b s)
       = squeeze C b w :: map (squeeze C false) ws.
Proof.
  induction s as [|c s IH]; intro b.
  - exists [], []. split; reflexivity.
  - cbn [squeeze]. destruct (C c) eqn:Ec.
    + pose proof (C_not_newline c Ec) as En.
      destruct (IH true) as (w & ws & E1 & E2).
      exists (c :: w), ws. cbn [split]. rewrite En, E1. split; [reflexivity|].
      cbn [squeeze]. rewrite Ec. destruct b; [exact E2|].
      cbn [split]. rewrite (C_not_newline space C_space), E2. reflexivity.
    + destruct (IH false) as (w & ws & E1 & E2).
      cbn [split]. destruct (eqc c newline) eqn:En.
      * exists [], (w :: ws). rewrite E1, E2. split; reflexivity.
      * exists (c :: w), ws. rewrite E1, E2. split; [reflexivity|].
        cbn [squeeze]. rewrite Ec. reflexivity.
Qed.

Lemma squeeze_spaces : forall ws b,
  forallb is_space ws = true -> forallb is_space (squeeze C b ws) = true.
Proof.
  induction ws as [|c ws IH]; intros b H; [reflexivity|].
  cbn [forallb] in H. apply andb_true_iff in H. destruct H as [Hc Hw].
  cbn [squeeze]. destruct (C c).
  - destruct b; [apply IH, Hw|]. cbn [forallb].
    rewrite (C_is_space space C_space). apply IH, Hw.
  - cbn [forallb]. rewrite Hc. apply IH, Hw.
Qed.

Lemma squeeze_spaces_app : forall ws b y,
  forallb is_space ws = true ->
  exists ws' b', forallb is_space ws' = true
                 /\ squeeze C b (ws ++ y) = ws' ++ squeeze C b' y.
Proof.
  induction ws as [|c ws IH]; intros b y H.
  - exists [], b. split; reflexivity.
  - cbn [forallb] in H. apply andb_true_iff in H. destruct H as [Hc Hw].
    cbn [app squeeze]. destruct (C c).
    + destruct b.
      * apply IH, Hw.
      * destruct (IH true y Hw) as (ws' & b' & H1 & H2).
        exists (space :: ws'), b'. cbn [forallb app].
        rewrite (C_is_space space C_space), H1, H2. split; reflexivity.
    + destruct (IH false y Hw) as (ws' & b' & H1 & H2).
      exists (c :: ws'), b'. cbn [forallb app]. rewrite Hc, H1, H2.
      split; reflexivity.
Qed.

Lemma squeeze_sparse_app : forall x a y,
  sparse C a x = true ->
  exists b', squeeze C a (x ++ y) = x ++ squeeze C b' y.
Proof.
  induction x as [|c x IH]; intros a y H.
  - exists a. reflexivity.
  - cbn [sparse] in H. cbn [app squeeze]. destruct (C c).
    + apply andb_true_iff in H. destruct H as [H Ht].
      apply andb_true_iff in H. destruct H as [Hc Ha].
      apply negb_true_iff in Ha. subst a. apply eqc_eq in Hc. subst c.
      destruct (IH true y Ht) as (b' & ->). exists b'. reflexivity.
    + destruct (IH false y H) as (b' & ->). exists b'. reflexivity.
Qed.

Lemma squeeze_head c t b :
  C c = false -> squeeze C b (c :: t) = squeeze C false (c :: t).
Proof. intro H. cbn [squeeze]. rewrite H. reflexivity. Qed.

(** Squeezing the runs of a piece does not change its trimmed form when
    that form has no run. *)
Lemma trim_squeeze p b :
  sparse C false (trim p) = true -> trim (squeeze C b p) = trim p.
Proof.
  intro H. unfold trim in *.
  destruct (trimStart_split p) as (ws & E & Hws).
  destruct (trimEnd_split (trimStart p)) as (ws' & E' & Hws').
  pose proof (trimStart_head p) as Hh.
  set (core := trimEnd (trimStart p)) in *.
  assert (Ep : p = ws ++ core ++ ws') by (rewrite <- E'; exact E).
  fold (trim (squeeze C b p)). rewrite Ep.
  destruct (squeeze_spaces_app ws b (core ++ ws') Hws) as (w1 & b1 & Hw1 & ->).
  rewrite (trim_spaces_app w1 _ Hw1).
  destruct core as [|c core'] eqn:Ec.
  - cbn [app]. rewrite (trim_all_space _ (squeeze_spaces ws' b1 Hws')).
    reflexivity.
  - assert (Hc : is_space c = false).
    { rewrite E' in Hh. cbn [app] in Hh. exact Hh. }
    assert (HCc : C c = false).
    { destruct (C c) eqn:X; [|reflexivity].
      apply C_is_space in X. congruence. }
    cbn [app]. rewrite (squeeze_head c _ b1 HCc).
    change (c :: core' ++ ws') with ((c :: core') ++ ws').
    destruct (squeeze_sparse_app (c :: core') false ws' H) as (b2 & ->).
    rewrite (trim_app_spaces _ _ (squeeze_spaces ws' b2 Hws')).
    rewrite <- Ec. apply no_edge_space_trim. subst core.
    apply (trim_no_edge_space p).
Qed.

Lemma lines_of_squeeze s b :
  forallb (sparse C false) (lines_of s) = true ->
  lines_of (squeeze C b s) = lines_of s.
Proof.
  intro H. destruct (split_squeeze s b) as (w & ws & E1 & E2).
  unfold lines_of in *. rewrite E1 in *. rewrite E2.
  assert (Hp : forall q, In q (w :: ws) -> sparse C false (trim q) = true).
  { intros q Hq. destruct (trim q) as [|c t] eqn:Et; [reflexivity|].
    rewrite forallb_forall in H. apply H. apply filter_In. split.
    - rewrite <- Et. apply in_map, Hq.
    - reflexivity. }
  cbn [map]. rewrite (trim_squeeze w b (Hp w (or_introl eq_refl))).
  rewrite map_map.
  rewrite (map_ext_in (fun x => trim (squeeze C false x)) trim ws).
  - reflexivity.
  - intros q Hq. apply trim_squeeze, Hp. right. exact Hq.
Qed.

End Squeeze.

Lemma is_blank_space : is_blank space = true.
Proof. reflexivity. Qed.

Lemma is_blank_newline : is_blank newline = false.
Proof. reflexivity. Qed.

Lemma is_blank_is_space c : is_blank c = true -> is_space c = true.
Proof.
  unfold is_blank. intro H. apply orb_true_iff in H.
  destruct H as [H|H]; apply eqc_eq in H; subst c; reflexivity.
Qed.

Lemma replace_blanks_squeeze s :
  replace_all re_blanks (tpl " ") s = squeeze is_blank false s.
Proof.
  unfold replace_all, re_blanks, blank_class.
  change (tpl " ") with (Template [space]).
  apply (scan_squeeze is_blank (length s)). lia.
Qed.

(** *** The lines of a cleaned statement *)

Lemma lines_of_cleanup t :
  matches_in re_table_options t = false ->
  forallb (sparse is_blank false) (lines_of t) = true ->
  lines_of (cleanup t) = lines_of t.
Proof.
  intros Ho Hs. unfold cleanup.
  rewrite (replace_all_no_match _ _ _ Ho).
  rewrite lines_of_trim, lines_of_blank_lines, replace_blanks_squeeze.
  apply (lines_of_squeeze is_blank is_blank_space is_blank_newline
           is_blank_is_space), Hs.
Qed.

Lemma blank_lines_nonempty p l s' :
  exec re_blank_lines p l = Some s' -> consumed l (rest s') <> [].
Proof.
  intro H. destruct (blank_lines_match_text _ _ _ H) as (w & _ & _ & ->).
  discriminate.
Qed.

(** What [cleanup] returns has no run of blanks, and neither have its
    lines. *)
Lemma cleanup_sparse q : sparse is_blank false (cleanup q) = true.
Proof.
  unfold cleanup. apply (sparse_trim is_blank).
  unfold replace_all at 1.
  apply (scan_sparse is_blank re_blank_lines newline eq_refl eq_refl
           blank_lines_nonempty _ 0 None false).
  rewrite replace_blanks_squeeze.
  apply (sparse_squeeze is_blank is_blank_space).
Qed.

Lemma cleanup_lines_sparse q :
  forallb (sparse is_blank false) (lines_of (cleanup q)) = true.
Proof.
  apply (sparse_lines is_blank is_blank_newline), cleanup_sparse.
Qed.

End SqueezeFacts.

(* ================================================================== *)
(** ** Facts about words inside lines *)

Module OccurrenceFacts.
Import Chars Js Regex Parser Analysis Shapes.
Import StringFacts RegexFacts ParserFacts RunFacts RuleFacts LineFacts CleanupFacts WordRuleFacts
  SparseFacts SqueezeFacts.

(** *** Words inside lines *)

Lemma startsWith_nil_r s : startsWith s [] = true.
Proof. destruct s; reflexivity. Qed.

Lemma startsWith_app_nl : forall w x r,
  forallb (fun d => negb (eqc d newline)) w = true ->
  startsWith (x ++ newline :: r) w = startsWith x w.
Proof.
  induction w as [|d w IH]; intros x r H.
  - rewrite !startsWith_nil_r. reflexivity.
  - cbn [forallb] in H. apply andb_true_iff in H. destruct H as [Hd Hw].
    apply negb_true_iff in Hd. destruct x as [|y x].
    + cbn [app startsWith]. rewrite Hd. reflexivity.
    + cbn [app startsWith]. rewrite (IH x r Hw). reflexivity.
Qed.

Lemma startsWith_iff s w :
  startsWith s w = true <-> exists r, s = w ++ r.
Proof.
  split.
  - intro H. exists (skipn (length w) s). apply startsWith_split, H.
  - intros (r & ->). apply startsWith_app.
Qed.

Lemma includes_iff s w :
  includes s w = true <-> exists a b, s = a ++ w ++ b.
Proof.
  split; [apply includes_app_elim|].
  intros (a & b & ->). apply includes_app_intro.
Qed.

Lemma bool_iff (a b : bool) : (a = true <-> b = true) -> a = b.
Proof. destruct a, b; intros [H1 H2]; auto; symmetry; auto. Qed.

Lemma includes_cons_space c s w :
  is_space c = true -> solid w = true ->
  includes (c :: s) w = includes s w.
Proof.
  intros Hc Hw. cbn [includes]. destruct w as [|d w]; [discriminate|].
  cbn [solid] in Hw. apply andb_true_iff in Hw. destruct Hw as [Hw _].
  apply andb_true_iff in Hw. destruct Hw as [Hd _].
  apply negb_true_iff in Hd.
  cbn [startsWith]. destruct (eqc d c) eqn:E; [|reflexivity].
  apply eqc_eq in E. subst d. congruence.
Qed.

Lemma includes_spaces_app : forall ws s w,
  forallb is_space ws = true -> solid w = true ->
  includes (ws ++ s) w = includes s w.
Proof.
  induction ws as [|c ws IH]; intros s w H Hw; [reflexivity|].
  cbn [forallb] in H. apply andb_true_iff in H. destruct H as [Hc Hws].
  cbn [app]. rewrite (includes_cons_space c _ w Hc Hw). apply IH; assumption.
Qed.

Lemma solid_last w :
  solid w = true -> exists u e, w = u ++ [e] /\ is_space e = false.
Proof.
  destruct w as [|c w]; [discriminate|]. cbn [solid]. intro H.
  apply andb_true_iff in H. destruct H as [H _].
  apply andb_true_iff in H. destruct H as [_ H]. apply negb_true_iff in H.
  destruct (exists_last (l := c :: w) ltac:(discriminate)) as (u & e & E).
  exists u, e. split; [exact E|]. rewrite E in H.
  rewrite last_snoc in H. exact H.
Qed.

Lemma includes_snoc_space s c w :
  is_space c = true -> solid w = true ->
  includes (s ++ [c]) w = includes s w.
Proof.
  intros Hc Hw. apply bool_iff. rewrite !includes_iff. split.
  - intros (a & b & E). destruct (solid_last w Hw) as (u & e & -> & He).
    destruct (exists_last (l := b)) as (b' & x & Eb).
    + intro Hb. subst b. rewrite app_nil_r in E.
      rewrite app_assoc in E. apply app_inj_tail in E. destruct E as [_ E].
      subst e. congruence.
    + subst b. rewrite !app_assoc in E. apply app_inj_tail in E.
      destruct E as [E _]. exists a, b'. rewrite E, !app_assoc. reflexivity.
  - intros (a & b & ->). exists a, (b ++ [c]).
    rewrite <- !app_assoc. reflexivity.
Qed.

Lemma includes_app_spaces : forall ws s w,
  forallb is_space ws = true -> solid w = true ->
  includes (s ++ ws) w = includes s w.
Proof.
  induction ws as [|c ws IH]; intros s w H Hw; [rewrite app_nil_r; reflexivity|].
  cbn [forallb] in H. apply andb_true_iff in H. destruct H as [Hc Hws].
  replace (s ++ c :: ws) with ((s ++ [c]) ++ ws)
    by (rewrite <- app_assoc; reflexivity).
  rewrite (IH _ w Hws Hw). apply includes_snoc_space; assumption.
Qed.

Lemma includes_trim p w : solid w = true -> includes (trim p) w = includes p w.
Proof.
  intro Hw. unfold trim.
  destruct (trimStart_split p) as (ws & E & Hws).
  destruct (trimEnd_split (trimStart p)) as (ws' & E' & Hws').
  rewrite E at 2. rewrite (includes_spaces_app ws _ w Hws Hw).
  rewrite E' at 2. rewrite (includes_app_spaces ws' _ w Hws' Hw). reflexivity.
Qed.

Lemma solid_no_newline w :
  solid w = true -> forallb (fun d => negb (eqc d newline)) w = true.
Proof.
  destruct w as [|c w]; [discriminate|]. cbn [solid]. intro H.
  apply andb_true_iff in H. apply H.
Qed.

Lemma includes_nil_l w : w <> [] -> includes [] w = false.
Proof. destruct w; [congruence|reflexivity]. Qed.

Lemma includes_split : forall t w,
  solid w = true ->
  includes t w = existsb (fun p => includes p w) (split newline t).
Proof.
  intros t w Hw. pose proof (solid_no_newline w Hw) as Hn.
  assert (Hne : w <> []) by (destruct w; [discriminate|discriminate]).
  induction t as [|c t IH].
  - cbn [split existsb]. rewrite orb_false_r. reflexivity.
  - cbn [split]. destruct (eqc c newline) eqn:E.
    + apply eqc_eq in E. subst c. cbn [existsb].
      rewrite (includes_nil_l w Hne). cbn [orb]. rewrite <- IH.
      apply includes_cons_space; [reflexivity|exact Hw].
    + destruct (split newline t) as [|p ps] eqn:Es.
      * exfalso. apply (split_not_nil newline t Es).
      * cbn [existsb] in *. cbn [includes]. rewrite IH.
        rewrite orb_assoc. f_equal.
        cbn [includes]. f_equal.
        (* the first piece is a prefix of the text *)
        assert (Hp : t = p \/ exists r, t = p ++ newline :: r).
        { clear IH. revert p ps Es. induction t as [|d t IHt]; intros p ps Es.
          - cbn [split] in Es. injection Es as <- <-. left. reflexivity.
          - cbn [split] in Es. destruct (eqc d newline) eqn:Ed.
            + injection Es as <- <-. right. exists t. apply eqc_eq in Ed.
              subst d. reflexivity.
            + destruct (split newline t) as [|p' ps'] eqn:Es'.
              * exfalso. apply (split_not_nil newline t Es').
              * injection Es as <- <-.
                destruct (IHt p' ps' eq_refl) as [->|(r & ->)].
                -- left. reflexivity.
                -- right. exists r. reflexivity. }
        destruct Hp as [->|(r & ->)]; [reflexivity|].
        change (c :: p ++ newline :: r) with ((c :: p) ++ newline :: r).
        apply startsWith_app_nl, Hn.
Qed.

Lemma existsb_filter_truthy (f : str -> bool) l :
  f [] = false -> existsb f (filter truthy l) = existsb f l.
Proof.
  intro H. induction l as [|x l IH]; [reflexivity|].
  cbn [filter existsb]. destruct x as [|c x]; cbn [truthy].
  - rewrite H, IH. reflexivity.
  - cbn [existsb]. rewrite IH. reflexivity.
Qed.

(** A solid word occurs in a text exactly when it occurs in one of its
    lines. *)
Lemma includes_lines t w :
  solid w = true ->
  includes t w = existsb (fun l => includes l w) (lines_of t).
Proof.
  intro Hw. unfold lines_of.
  rewrite existsb_filter_truthy
    by (apply includes_nil_l; destruct w; discriminate).
  rewrite (includes_split t w Hw).
  induction (split newline t) as [|p ps IH]; [reflexivity|].
  cbn [map existsb]. rewrite IH, (includes_trim p w Hw). reflexivity.
Qed.

(** *** Letter case and lines *)

Lemma to_lower_kinds :
  forallb (fun c => Bool.eqb (is_space (to_lower c)) (is_space c)
                    && Bool.eqb (eqc (to_lower c) newline) (eqc c newline))
          all_chars = true.
Proof. vm_compute. reflexivity. Qed.

Lemma to_lower_space c : is_space (to_lower c) = is_space c.
Proof.
  pose proof to_lower_kinds as H. rewrite forallb_forall in H.
  specialize (H c (in_all_chars c)). apply andb_true_iff in H.
  destruct H as [H _]. apply eqb_prop in H. exact H.
Qed.

Lemma to_lower_newline c : eqc (to_lower c) newline = eqc c newline.
Proof.
  pose proof to_lower_kinds as H. rewrite forallb_forall in H.
  specialize (H c (in_all_chars c)). apply andb_true_iff in H.
  destruct H as [_ H]. apply eqb_prop in H. exact H.
Qed.

Section MapLines.
Variable f : ascii -> ascii.
Hypothesis f_space : forall c, is_space (f c) = is_space c.
Hypothesis f_newline : forall c, eqc (f c) newline = eqc c newline.

Lemma split_map : forall s,
  split newline (map f s) = map (map f) (split newline s).
Proof.
  induction s as [|c s IH]; [reflexivity|].
  cbn [map split]. rewrite f_newline, IH.
  destruct (eqc c newline); [reflexivity|].
  destruct (split newline s); reflexivity.
Qed.

Lemma trimStart_map : forall s, trimStart (map f s) = map f (trimStart s).
Proof.
  induction s as [|c s IH]; [reflexivity|].
  cbn [map trimStart]. rewrite f_space.
  destruct (is_space c); [exact IH|reflexivity].
Qed.

Lemma trim_map s : trim (map f s) = map f (trim s).
Proof.
  unfold trim, trimEnd.
  rewrite trimStart_map, <- map_rev, trimStart_map, map_rev. reflexivity.
Qed.

Lemma lines_of_map s : lines_of (map f s) = map (map f) (lines_of s).
Proof.
  unfold lines_of. rewrite split_map.
  induction (split newline s) as [|p ps IH]; [reflexivity|].
  cbn [map filter]. rewrite trim_map, IH.
  destruct (trim p); reflexivity.
Qed.

End MapLines.

Lemma lines_of_toLowerCase s :
  lines_of (toLowerCase s) = map toLowerCase (lines_of s).
Proof. apply (lines_of_map to_lower to_lower_space to_lower_newline). Qed.

(** A solid word occurs in the lower-case form of a text exactly when it
    occurs in the lower-case form of one of its lines. *)
Lemma includes_lower_lines t w :
  solid w = true ->
  includes (toLowerCase t) w
  = existsb (fun l => includes (toLowerCase l) w) (lines_of t).
Proof.
  intro Hw. rewrite (includes_lines _ w Hw), lines_of_toLowerCase.
  induction (lines_of t) as [|l ls IH]; [reflexivity|].
  cbn [map existsb]. rewrite IH. reflexivity.
Qed.

(** *** The first line of a trimmed text *)

Lemma startsWith_app_spaces ws x w :
  forallb is_space ws = true -> solid w = true ->
  startsWith (x ++ ws) w = startsWith x w.
Proof.
  intros Hws Hw. apply bool_iff. rewrite !startsWith_iff. split.
  - intros (r & E). destruct (solid_last w Hw) as (u & e & -> & He).
    rewrite <- app_assoc in E. cbn [app] in E.
    apply app_eq_app in E. destruct E as (l & [[E1 E2]|[E1 E2]]).
    + destruct l as [|y l].
      * rewrite app_nil_r in E1. subst x. cbn [app] in E2.
        destruct ws as [|d ws]; [discriminate|]. injection E2 as <- _.
        cbn [forallb] in Hws. apply andb_true_iff in Hws.
        destruct Hws as [Hd _]. congruence.
      * cbn [app] in E2. injection E2 as <- E2.
        exists l. rewrite E1, <- app_assoc. reflexivity.
    + exfalso. subst u.
      assert (Hin : In e ws).
      { rewrite E2. apply in_or_app. right. left. reflexivity. }
      rewrite forallb_forall in Hws. specialize (Hws e Hin). congruence.
  - intros (r & ->). exists (r ++ ws). rewrite <- app_assoc. reflexivity.
Qed.

Lemma first_piece sep : forall t p ps,
  split sep t = p :: ps ->
  (t = p /\ ps = []) \/ exists r, t = p ++ sep :: r /\ ps = split sep r.
Proof.
  induction t as [|d t IHt]; intros p ps Es.
  - cbn [split] in Es. injection Es as <- <-. left. split; reflexivity.
  - cbn [split] in Es. destruct (eqc d sep) eqn:Ed.
    + injection Es as <- <-. right. exists t. apply eqc_eq in Ed.
      subst d. split; reflexivity.
    + destruct (split sep t) as [|p' ps'] eqn:Es'.
      * exfalso. apply (split_not_nil sep t Es').
      * injection Es as <- <-.
        destruct (IHt p' ps' eq_refl) as [[-> ->]|(r & -> & ->)].
        -- left. split; reflexivity.
        -- right. exists r. split; reflexivity.
Qed.

Lemma trimEnd_not_nil c s : is_space c = false -> trimEnd (c :: s) <> [].
Proof.
  intros Hc E. destruct (trimEnd_split (c :: s)) as (ws & Es & Hws).
  rewrite E in Es. cbn [app] in Es. subst ws.
  cbn [forallb] in Hws. rewrite Hc in Hws. discriminate.
Qed.

(** A trimmed text starts with its first line. *)
Lemma first_line t :
  no_edge_space t = true -> t <> [] ->
  exists l ls ws r,
    lines_of t = l :: ls /\ forallb is_space ws = true
    /\ (t = l ++ ws \/ t = (l ++ ws) ++ newline :: r).
Proof.
  intros He Hne. destruct t as [|c t]; [congruence|].
  cbn [no_edge_space] in He. apply andb_true_iff in He.
  destruct He as [Hc _]. apply negb_true_iff in Hc.
  destruct (split newline (c :: t)) as [|p ps] eqn:Es.
  { exfalso. apply (split_not_nil newline _ Es). }
  assert (Hp : exists p', p = c :: p').
  { cbn [split] in Es. destruct (eqc c newline) eqn:En.
    - apply eqc_eq in En. subst c. discriminate.
    - destruct (split newline t); injection Es as <- _; eauto. }
  destruct Hp as (p' & ->).
  assert (Et : trim (c :: p') = trimEnd (c :: p')).
  { unfold trim. rewrite (trimStart_fixed c p' Hc). reflexivity. }
  destruct (trimEnd_split (c :: p')) as (ws & Ews & Hws).
  destruct (trimEnd (c :: p')) as [|d l] eqn:El.
  { exfalso. apply (trimEnd_not_nil c p' Hc El). }
  exists (d :: l), (filter truthy (map trim ps)), ws.
  destruct (first_piece newline _ _ _ Es) as [[E1 E2]|(r & E1 & E2)].
  - exists []. split; [|split; [exact Hws|]].
    + unfold lines_of. rewrite Es. cbn [map filter]. rewrite Et.
      reflexivity.
    + left. rewrite E1. exact Ews.
  - exists r. split; [|split; [exact Hws|]].
    + unfold lines_of. rewrite Es. cbn [map filter]. rewrite Et.
      reflexivity.
    + right. rewrite E1, Ews. reflexivity.
Qed.

Lemma toLowerCase_app a b :
  toLowerCase (a ++ b) = toLowerCase a ++ toLowerCase b.
Proof. apply map_app. Qed.

Lemma toLowerCase_spaces ws :
  forallb is_space ws = true -> forallb is_space (toLowerCase ws) = true.
Proof.
  intro H. unfold toLowerCase. rewrite forallb_forall in *.
  intros x Hx. apply in_map_iff in Hx. destruct Hx as (y & <- & Hy).
  rewrite to_lower_space. apply H, Hy.
Qed.

(** Whether a trimmed text starts with a solid word is decided by its
    first line. *)
Lemma startsWith_first_line t w :
  no_edge_space t = true -> solid w = true ->
  startsWith (toLowerCase t) w
  = match lines_of t with
    | [] => false
    | l :: _ => startsWith (toLowerCase l) w
    end.
Proof.
  intros He Hw. destruct t as [|c t].
  - cbn. destruct w; [discriminate|reflexivity].
  - destruct (first_line (c :: t) He ltac:(discriminate))
      as (l & ls & ws & r & El & Hws & [E|E]); rewrite El, E.
    + rewrite toLowerCase_app.
      apply startsWith_app_spaces; [apply toLowerCase_spaces, Hws|exact Hw].
    + rewrite toLowerCase_app. cbn [toLowerCase map].
      change (to_lower newline) with newline.
      rewrite (startsWith_app_nl w _ _ (solid_no_newline w Hw)).
      fold (toLowerCase (l ++ ws)). rewrite toLowerCase_app.
      apply startsWith_app_spaces; [apply toLowerCase_spaces, Hws|exact Hw].
Qed.

(** *** Line breaks of a trimmed text *)

Lemma includes_char_false c : forall s,
  includes s [c] = false -> forallb (fun d => negb (eqc d c)) s = true.
Proof.
  induction s as [|d s IH]; intro H; [reflexivity|].
  cbn [includes startsWith] in H. apply orb_false_iff in H.
  destruct H as [H1 H2]. rewrite andb_true_r in H1.
  cbn [forallb]. rewrite (IH H2), andb_true_r.
  unfold eqc in *. rewrite Ascii.eqb_sym. rewrite H1. reflexivity.
Qed.

Lemma one_line_lines t :
  includes t [newline] = false -> length (lines_of t) <= 1.
Proof.
  intro H. unfold lines_of.
  rewrite (split_no_sep newline t (includes_char_false newline t H)).
  cbn [map filter]. destruct (truthy (trim t)); cbn [length]; lia.
Qed.

Lemma lines_of_text : forall x, has not_space x = true -> lines_of x <> [].
Proof.
  induction x as [|c x IH]; intro H; [discriminate|].
  destruct (is_space c) eqn:Ec.
  - rewrite (lines_of_cons_space c x Ec). apply IH.
    cbn [has existsb] in H. unfold not_space at 1 in H. rewrite Ec in H.
    exact H.
  - destruct (eqc c newline) eqn:En.
    { apply eqc_eq in En. subst c. discriminate. }
    destruct (split_cons_other newline c x En) as (w & ws & _ & E).
    unfold lines_of. rewrite E. cbn [map filter].
    unfold trim. rewrite (trimStart_fixed c w Ec).
    destruct (trimEnd (c :: w)) eqn:Et; [|discriminate].
    exfalso. apply (trimEnd_not_nil c w Ec Et).
Qed.

Lemma last_in (d : ascii) : forall l, l <> [] -> In (last l d) l.
Proof.
  induction l as [|x l IH]; intro H; [congruence|].
  destruct l as [|y l]; [left; reflexivity|].
  right. apply IH. discriminate.
Qed.

Lemma last_app_cons (d : ascii) y b : forall a,
  last (a ++ y :: b) d = last (y :: b) d.
Proof.
  induction a as [|x a IH]; [reflexivity|].
  cbn [app]. destruct (a ++ y :: b) eqn:E.
  - destruct a; discriminate.
  - rewrite <- E, <- IH. rewrite E. reflexivity.
Qed.

Lemma two_lines t :
  no_edge_space t = true -> includes t [newline] = true ->
  2 <= length (lines_of t).
Proof.
  intros He Hn. apply includes_app_elim in Hn. destruct Hn as (a & b & E).
  cbn [app] in E. subst t. rewrite lines_of_app_nl, length_app.
  assert (Ha : lines_of a <> []).
  { apply lines_of_text. destruct a as [|c a].
    - discriminate.
    - cbn [app no_edge_space] in He. apply andb_true_iff in He.
      destruct He as [Hc _]. cbn [has existsb]. unfold not_space at 1.
      rewrite Hc. reflexivity. }
  assert (Hb : lines_of b <> []).
  { apply lines_of_text.
    assert (Hl : exists d, is_space (last (a ++ newline :: b) d) = false).
    { destruct a as [|c a]; cbn [app no_edge_space] in He;
        apply andb_true_iff in He; destruct He as [_ Hl];
        apply negb_true_iff in Hl; eauto. }
    destruct Hl as (d & Hl).
    destruct b as [|y b].
    - rewrite last_snoc in Hl. discriminate.
    - rewrite last_app_cons in Hl.
      change (last (newline :: y :: b) d) with (last (y :: b) d) in Hl.
      unfold has. apply existsb_exists. exists (last (y :: b) d).
      split; [apply last_in; discriminate|].
      unfold not_space. rewrite Hl. reflexivity. }
  destruct (lines_of a); [congruence|]. destruct (lines_of b); [congruence|].
  cbn [length]. lia.
Qed.

End OccurrenceFacts.

(* ================================================================== *)
(** ** Facts about a second pass over an output *)

Module SecondPassFacts.
Import Chars Js Regex Parser Analysis Shapes.
Import StringFacts RegexFacts ParserFacts RunFacts RuleFacts LineFacts CleanupFacts WordRuleFacts
  SparseFacts SqueezeFacts OccurrenceFacts.

(** *** Statements with the same lines take the same path *)

Lemma same_lines_same_path q q2 :
  no_edge_space q = true -> no_edge_space q2 = true ->
  lines_of q2 = lines_of q ->
  startsWith (toLowerCase q2) (js "create table")
  = startsWith (toLowerCase q) (js "create table")
  /\ includes (toLowerCase q2) (js "group_concat")
     = includes (toLowerCase q) (js "group_concat")
  /\ (one_line_shape q = false -> one_line_shape q2 = false).
Proof.
  intros He He2 El. split; [|split].
  - rewrite !startsWith_first_line by (assumption || reflexivity).
    rewrite El. reflexivity.
  - rewrite !includes_lower_lines by reflexivity. rewrite El. reflexivity.
  - unfold one_line_shape. intro H.
    rewrite (includes_lower_lines q2 (js "case when") eq_refl).
    rewrite (includes_lower_lines q2 (js "group by") eq_refl).
    rewrite (includes_lower_lines q (js "case when") eq_refl) in H.
    rewrite (includes_lower_lines q (js "group by") eq_refl) in H.
    rewrite El.
    destruct (existsb _ (lines_of q)); [rewrite andb_false_r; reflexivity|].
    destruct (existsb _ (lines_of q)); [rewrite andb_false_r; reflexivity|].
    rewrite !andb_true_r in *. apply negb_false_iff in H.
    apply negb_false_iff.
    destruct (includes q2 [newline]) eqn:E; [reflexivity|].
    pose proof (one_line_lines q2 E) as H1.
    pose proof (two_lines q He H) as H2. rewrite El in H1. lia.
Qed.

(** *** The second pass over a formatted statement *)

Lemma multi_line_second_pass q :
  no_edge_space q = true ->
  forallb (sparse is_blank false) (lines_of q) = true ->
  startsWith (toLowerCase q) (js "create table") = false ->
  includes (toLowerCase q) (js "group_concat") = false ->
  one_line_shape q = false ->
  matches_in re_table_options (formatSQL q) = false ->
  format (cleanup (formatSQL q)) = Returned (formatSQL q).
Proof.
  intros He Hs Hct Hgc Hone Hopt.
  assert (El : lines_of (formatSQL q) = lines_of q).
  { unfold formatSQL. unfold one_line_shape in Hone. rewrite Hone.
    apply lines_of_formatSQL_loop, lines_of_clean. }
  assert (El2 : lines_of (cleanup (formatSQL q)) = lines_of q).
  { rewrite lines_of_cleanup; [exact El|exact Hopt|]. rewrite El. exact Hs. }
  destruct (same_lines_same_path q (cleanup (formatSQL q)) He
              (trim_no_edge_space _) El2) as (H1 & H2 & H3).
  unfold format. rewrite H1, Hct, H2, Hgc. f_equal.
  specialize (H3 Hone). unfold formatSQL at 1.
  unfold one_line_shape in H3. rewrite H3, El2.
  unfold formatSQL. unfold one_line_shape in Hone. rewrite Hone. reflexivity.
Qed.

Lemma one_line_second_pass q :
  one_line_shape q = true ->
  no_mapped_construct (formatSQL q) = true ->
  startsWith (toLowerCase (formatSQL q)) (js "create table") = false ->
  format (cleanup (formatSQL q)) = Returned (formatSQL q).
Proof.
  intros Hone Hm Hct. set (s := formatSQL q) in *.
  assert (Hc : compact s = true).
  { subst s. unfold formatSQL. unfold one_line_shape in Hone. rewrite Hone.
    apply squeezed_compact. }
  unfold no_mapped_construct in Hm.
  apply andb_true_iff in Hm. destruct Hm as [Hm Hdot].
  apply andb_true_iff in Hm. destruct Hm as [Hm Hgc].
  apply andb_true_iff in Hm. destruct Hm as [Hm Hopt].
  apply negb_true_iff in Hdot, Hgc, Hopt.
  rewrite (cleanup_compact s Hopt Hc). unfold format. rewrite Hct.
  destruct (includes (toLowerCase s) (js "group_concat")).
  - unfold handleGroupConcat.
    rewrite (replace_all_no_match _ _ _ Hgc), (replace_all_no_match _ _ _ Hdot).
    reflexivity.
  - rewrite (formatSQL_compact s Hc). reflexivity.
Qed.

(** *** The last step *)

Lemma marker_includes_rollup s :
  includes s rollup_marker = true -> includes s rollup = true.
Proof.
  intro H. apply (includes_trans s rollup_marker rollup H). reflexivity.
Qed.

Lemma warn_rollup_clean r :
  includes (snd (warn_rollup r)) rollup = false -> warn_rollup r = ([], r).
Proof.
  unfold warn_rollup. destruct (includes r rollup) eqn:E; [|reflexivity].
  cbn [snd]. intro H. exfalso.
  pose proof (scan_lit_includes rollup rollup_marker rollup_not_empty r None E)
    as Hm.
  apply marker_includes_rollup in Hm. unfold replace_all, lit in H.
  change (js "WITH ROLLUP") with rollup in H.
  change (expand rollup_marker []) with rollup_marker in Hm.
  congruence.
Qed.

Lemma no_mapped_rules s :
  no_mapped_construct s = true -> apply_mappings functionMappings s = s.
Proof.
  intro Hm. unfold no_mapped_construct in Hm.
  apply andb_true_iff in Hm. destruct Hm as [Hm _].
  apply andb_true_iff in Hm. destruct Hm as [Hm _].
  apply andb_true_iff in Hm. destruct Hm as [Hm _].
  apply apply_mappings_fixed. intros m Hin.
  rewrite forallb_forall in Hm. specialize (Hm m Hin).
  apply negb_true_iff in Hm. apply replace_all_no_match, Hm.
Qed.

Lemma no_mapped_options s :
  no_mapped_construct s = true -> matches_in re_table_options s = false.
Proof.
  intro Hm. unfold no_mapped_construct in Hm.
  apply andb_true_iff in Hm. destruct Hm as [Hm _].
  apply andb_true_iff in Hm. destruct Hm as [Hm _].
  apply andb_true_iff in Hm. destruct Hm as [_ Hm].
  apply negb_true_iff in Hm. exact Hm.
Qed.

(** *** Statements without blank lines *)

Lemma newline_is_space c : eqc c newline = true -> is_space c = true.
Proof. intro H. apply eqc_eq in H. subst c. reflexivity. Qed.

Lemma eqc_sym a b : eqc a b = eqc b a.
Proof. unfold eqc. apply Ascii.eqb_sym. Qed.

Lemma star_chr_step C k fuel p c t cs :
  star_loop true (rmatch (Chr C)) k (S fuel) (MState p (c :: t) cs)
  = if C c
    then orelse (star_loop true (rmatch (Chr C)) k fuel (MState (Some c) t cs))
                (k (MState p (c :: t) cs))
    else k (MState p (c :: t) cs).
Proof.
  change (star_loop true (rmatch (Chr C)) k (S fuel) (MState p (c :: t) cs))
    with (orelse
            (rmatch (Chr C)
               (fun s' => if length (rest s') <? length (c :: t)
                          then star_loop true (rmatch (Chr C)) k fuel s'
                          else None) (MState p (c :: t) cs))
            (k (MState p (c :: t) cs))).
  cbn [rmatch rest caps]. destruct (C c); [|reflexivity].
  replace (length t <? length (c :: t)) with true; [reflexivity|].
  symmetry. apply Nat.ltb_lt. cbn [length]. lia.
Qed.

(** Where the greedy [\s*] before a line feed stops: at the last line
    feed of the white space. *)
Lemma spaces_then_newline_some : forall t fuel p cs,
  length t <= fuel -> leading_newline t = true ->
  star_loop true (rmatch (Chr is_space)) (rmatch (ch newline) Some) fuel
    (MState p t cs) <> None.
Proof.
  induction t as [|c t IH]; intros fuel p cs Hf Hl; [discriminate|].
  cbn [leading_newline] in Hl. cbn [length] in Hf.
  destruct fuel as [|fuel]; [lia|].
  rewrite star_chr_step.
  destruct (eqc c newline) eqn:En.
  - rewrite (newline_is_space c En).
    destruct (star_loop true _ _ fuel _); [discriminate|].
    unfold orelse. cbn [ch rmatch rest]. rewrite eqc_sym, En. discriminate.
  - destruct (is_space c); [|discriminate].
    pose proof (IH fuel (Some c) cs ltac:(lia) Hl) as H.
    destruct (star_loop true _ _ fuel _); [discriminate|congruence].
Qed.

Lemma spaces_then_newline_max : forall fuel t p cs out,
  length t <= fuel ->
  star_loop true (rmatch (Chr is_space)) (rmatch (ch newline) Some) fuel
    (MState p t cs) = Some out ->
  leading_newline (rest out) = false.
Proof.
  induction fuel as [|fuel IH]; intros t p cs out Hf H.
  - destruct t; [|cbn [length] in Hf; lia]. discriminate.
  - destruct t as [|c t]; [discriminate|].
    cbn [length] in Hf. rewrite star_chr_step in H.
    destruct (is_space c) eqn:Ec.
    + destruct (star_loop true (rmatch (Chr is_space))
                  (rmatch (ch newline) Some) fuel (MState (Some c) t cs))
        as [o|] eqn:E.
      * unfold orelse in H. injection H as <-.
        apply (IH t (Some c) cs o ltac:(lia) E).
      * unfold orelse in H. cbn [ch rmatch rest] in H.
        destruct (eqc newline c); [|discriminate].
        injection H as <-. cbn [rest].
        destruct (leading_newline t) eqn:El; [|reflexivity].
        exfalso.
        apply (spaces_then_newline_some t fuel (Some c) cs ltac:(lia) El E).
    + cbn [ch rmatch rest] in H.
      destruct (eqc newline c) eqn:En; [|discriminate].
      rewrite eqc_sym in En. apply newline_is_space in En. congruence.
Qed.

Lemma blank_lines_match_max p l s' :
  exec re_blank_lines p l = Some s' -> leading_newline (rest s') = false.
Proof.
  unfold exec, re_blank_lines. cbn [seq rmatch]. intro H.
  apply rmatch_ch_inv in H. destruct H as (t & El & H). cbn [rest caps] in *.
  unfold star, space_class in H. cbn [rmatch rest] in H.
  apply (spaces_then_newline_max _ _ _ _ _ (le_n _) H).
Qed.

Lemma blank_lines_match_some p t :
  leading_newline t = true -> exec re_blank_lines p (newline :: t) <> None.
Proof.
  intro H. unfold exec, re_blank_lines. cbn [seq rmatch ch rest caps].
  change (eqc newline newline) with true. cbv iota.
  unfold star, space_class. cbn [rmatch rest].
  apply spaces_then_newline_some; [lia|exact H].
Qed.

Lemma blank_lines_nil p : exec re_blank_lines p [] = None.
Proof. reflexivity. Qed.

Lemma no_blank_line_scan : forall n l p a,
  length l <= n ->
  (a = true -> leading_newline l = false) ->
  no_blank_line a (scan re_blank_lines (Template [newline]) p l 0) = true.
Proof.
  induction n as [|n IH]; intros l p a Hn Ha.
  - destruct l; [|cbn [length] in Hn; lia]. reflexivity.
  - destruct l as [|c t]; [reflexivity|].
    cbn [length] in Hn. cbn [scan].
    destruct (exec re_blank_lines p (c :: t)) as [s'|] eqn:E.
    + pose proof (blank_lines_match_max _ _ _ E) as Hmax.
      destruct (blank_lines_match_text _ _ _ E) as (w & El & Hw & Em).
      rewrite Em. injection El as -> Et.
      change (substitute (Template [newline]) (newline :: w ++ [newline])
                (caps s')) with [newline].
      cbn [length]. subst t.
      replace (w ++ newline :: rest s') with ((w ++ [newline]) ++ rest s')
        by (rewrite <- app_assoc; reflexivity).
      rewrite scan_skip. cbn [app no_blank_line].
      change (eqc newline newline) with true. cbv iota.
      destruct a.
      * specialize (Ha eq_refl). discriminate.
      * cbn [negb andb]. apply IH; [|intros _; exact Hmax].
        rewrite length_app in Hn. cbn [length] in Hn. lia.
    + cbn [no_blank_line]. destruct (eqc c newline) eqn:En.
      * apply eqc_eq in En. subst c. destruct a.
        -- specialize (Ha eq_refl). discriminate.
        -- cbn [negb andb]. apply IH; [lia|]. intros _.
           destruct (leading_newline t) eqn:El; [|reflexivity].
           exfalso. apply (blank_lines_match_some p t El E).
      * destruct (is_space c) eqn:Ec.
        -- apply IH; [lia|]. intro Hat. specialize (Ha Hat).
           cbn [leading_newline] in Ha. rewrite En, Ec in Ha. exact Ha.
        -- apply IH; [lia|]. discriminate.
Qed.

Lemma no_blank_line_weaken : forall s a,
  no_blank_line a s = true -> no_blank_line false s = true.
Proof.
  induction s as [|c s IH]; intros a H; [reflexivity|].
  cbn [no_blank_line] in *. destruct (eqc c newline).
  - apply andb_true_iff in H. apply H.
  - destruct (is_space c); [apply (IH a H)|exact H].
Qed.

Lemma no_blank_line_app_l : forall x y a,
  no_blank_line a (x ++ y) = true -> no_blank_line a x = true.
Proof.
  induction x as [|c x IH]; intros y a H; [reflexivity|].
  cbn [app no_blank_line] in *. destruct (eqc c newline).
  - apply andb_true_iff in H. destruct H as [H1 H2]. rewrite H1.
    apply (IH y true H2).
  - destruct (is_space c); [apply (IH y a H)|apply (IH y false H)].
Qed.

Lemma no_blank_line_app_r : forall x y a,
  no_blank_line a (x ++ y) = true -> no_blank_line false y = true.
Proof.
  induction x as [|c x IH]; intros y a H.
  - apply (no_blank_line_weaken y a H).
  - cbn [app no_blank_line] in H. destruct (eqc c newline).
    + apply andb_true_iff in H. destruct H as [_ H]. apply (IH y true H).
    + destruct (is_space c); [apply (IH y a H)|apply (IH y false H)].
Qed.

Lemma no_blank_line_trim s :
  no_blank_line false s = true -> no_blank_line false (trim s) = true.
Proof.
  intro H. unfold trim.
  destruct (trimStart_split s) as (ws & E & _).
  destruct (trimEnd_split (trimStart s)) as (ws' & E' & _).
  rewrite E in H. apply no_blank_line_app_r in H. rewrite E' in H.
  apply no_blank_line_app_l in H. exact H.
Qed.

Lemma cleanup_no_blank_line q : no_blank_line false (cleanup q) = true.
Proof.
  unfold cleanup. apply no_blank_line_trim. unfold replace_all at 1.
  apply (no_blank_line_scan _ _ None false (le_n _)). discriminate.
Qed.

Lemma spaces_to_newline_blank : forall w r,
  forallb is_space w = true -> no_blank_line true (w ++ newline :: r) = false.
Proof.
  induction w as [|c w IH]; intros r H.
  - cbn [app no_blank_line]. change (eqc newline newline) with true.
    reflexivity.
  - cbn [forallb] in H. apply andb_true_iff in H. destruct H as [Hc Hw].
    cbn [app no_blank_line]. destruct (eqc c newline); [reflexivity|].
    rewrite Hc. apply IH, Hw.
Qed.

Lemma no_blank_line_no_match : forall l a p,
  no_blank_line a l = true -> has_match re_blank_lines p l = false.
Proof.
  induction l as [|c t IH]; intros a p H.
  - reflexivity.
  - cbn [has_match].
    destruct (exec re_blank_lines p (c :: t)) as [s'|] eqn:E.
    + exfalso. destruct (blank_lines_match _ _ _ E) as (w & El & Hw).
      rewrite El in H. cbn [no_blank_line] in H.
      change (eqc newline newline) with true in H. cbv iota in H.
      apply andb_true_iff in H. destruct H as [_ H].
      rewrite (spaces_to_newline_blank w _ Hw) in H. discriminate.
    + cbn [no_blank_line] in H. destruct (eqc c newline).
      * apply andb_true_iff in H. destruct H as [_ H]. apply (IH true _ H).
      * destruct (is_space c); [apply (IH a _ H)|apply (IH false _ H)].
Qed.

(** A statement in the form that [cleanup] gives is not changed by the
    white-space steps of [cleanup]. *)
Lemma cleanup_fixed s :
  matches_in re_table_options s = false ->
  sparse is_blank false s = true ->
  no_blank_line false s = true ->
  no_edge_space s = true ->
  cleanup s = s.
Proof.
  intros Ho Hs Hb He. unfold cleanup.
  rewrite (replace_all_no_match _ _ _ Ho), replace_blanks_squeeze.
  rewrite (squeeze_sparse is_blank s false Hs).
  rewrite (replace_all_no_match re_blank_lines _ s
             (no_blank_line_no_match s false None Hb)).
  apply no_edge_space_trim, He.
Qed.

(** *** Letter case and the form of a statement *)

Lemma to_upper_kinds :
  forallb (fun c => Bool.eqb (is_space (to_upper c)) (is_space c)
                    && Bool.eqb (eqc (to_upper c) newline) (eqc c newline)
                    && Bool.eqb (is_blank (to_upper c)) (is_blank c)
                    && Bool.eqb (eqc (to_upper c) space) (eqc c space)
                    && eqc (to_lower (to_upper c)) (to_lower c))
          all_chars = true.
Proof. vm_compute. reflexivity. Qed.

Lemma to_upper_kind c :
  is_space (to_upper c) = is_space c
  /\ eqc (to_upper c) newline = eqc c newline
  /\ is_blank (to_upper c) = is_blank c
  /\ eqc (to_upper c) space = eqc c space
  /\ to_lower (to_upper c) = to_lower c.
Proof.
  pose proof to_upper_kinds as H. rewrite forallb_forall in H.
  specialize (H c (in_all_chars c)).
  repeat (apply andb_true_iff in H; destruct H as [H ?]).
  repeat match goal with
         | X : Bool.eqb _ _ = true |- _ => apply eqb_prop in X
         | X : eqc _ _ = true |- _ => apply eqc_eq in X
         end.
  auto.
Qed.

Lemma sparse_upper : forall s a,
  sparse is_blank a (toUpperCase s) = sparse is_blank a s.
Proof.
  induction s as [|c s IH]; intro a; [reflexivity|].
  cbn [toUpperCase map sparse].
  destruct (to_upper_kind c) as (_ & _ & -> & -> & _).
  fold (toUpperCase s). rewrite !IH. reflexivity.
Qed.

Lemma no_blank_line_upper : forall s a,
  no_blank_line a (toUpperCase s) = no_blank_line a s.
Proof.
  induction s as [|c s IH]; intro a; [reflexivity|].
  cbn [toUpperCase map no_blank_line].
  destruct (to_upper_kind c) as (-> & -> & _).
  fold (toUpperCase s). rewrite !IH. reflexivity.
Qed.

Lemma last_map (f : ascii -> ascii) : forall s d,
  last (map f s) (f d) = f (last s d).
Proof.
  induction s as [|c s IH]; intro d; [reflexivity|].
  cbn [map]. destruct s as [|e s]; [reflexivity|].
  change (last (f c :: map f (e :: s)) (f d)) with (last (map f (e :: s)) (f d)).
  rewrite IH. reflexivity.
Qed.

Lemma no_edge_space_upper s :
  no_edge_space (toUpperCase s) = no_edge_space s.
Proof.
  destruct s as [|c s]; [reflexivity|].
  unfold toUpperCase. cbn [map no_edge_space].
  change (to_upper c :: map to_upper s) with (map to_upper (c :: s)).
  rewrite last_map.
  destruct (to_upper_kind c) as (-> & _).
  destruct (to_upper_kind (last (c :: s) c)) as (-> & _). reflexivity.
Qed.

Lemma toLowerCase_upper s : toLowerCase (toUpperCase s) = toLowerCase s.
Proof.
  unfold toLowerCase, toUpperCase. rewrite map_map. apply map_ext.
  intro c. apply (to_upper_kind c).
Qed.

Lemma handleGroupConcat_upper q :
  toUpperCase (handleGroupConcat q) = toUpperCase q.
Proof.
  unfold handleGroupConcat.
  rewrite (replace_all_case_only _ _ _ group_concat_dot_case_only).
  apply (replace_all_case_only _ _ _ group_concat_case_only).
Qed.

Lemma group_concat_second_pass y :
  let q := cleanup y in
  includes (toLowerCase q) (js "group_concat") = true ->
  no_mapped_construct (handleGroupConcat q) = true ->
  startsWith (toLowerCase (handleGroupConcat q)) (js "create table") = false ->
  format (cleanup (handleGroupConcat q)) = Returned (handleGroupConcat q).
Proof.
  intros q Hgc Hm Hct. set (s := handleGroupConcat q) in *.
  pose proof (handleGroupConcat_upper q) as Hu. fold s in Hu.
  assert (Hs : sparse is_blank false s = true).
  { rewrite <- sparse_upper, Hu, sparse_upper. apply cleanup_sparse. }
  assert (Hb : no_blank_line false s = true).
  { rewrite <- no_blank_line_upper, Hu, no_blank_line_upper.
    apply cleanup_no_blank_line. }
  assert (He : no_edge_space s = true).
  { rewrite <- no_edge_space_upper, Hu, no_edge_space_upper.
    apply trim_no_edge_space. }
  rewrite (cleanup_fixed s (no_mapped_options s Hm) Hs Hb He).
  unfold format. rewrite Hct.
  assert (Hl : toLowerCase s = toLowerCase q).
  { rewrite <- toLowerCase_upper, Hu, toLowerCase_upper. reflexivity. }
  rewrite Hl, Hgc.
  unfold no_mapped_construct in Hm.
  apply andb_true_iff in Hm. destruct Hm as [Hm Hdot].
  apply andb_true_iff in Hm. destruct Hm as [Hm Hg].
  apply negb_true_iff in Hdot, Hg.
  unfold handleGroupConcat at 1.
  rewrite (replace_all_no_match _ _ _ Hg), (replace_all_no_match _ _ _ Hdot).
  reflexivity.
Qed.

(** *** The second pass over a table definition *)

Lemma formatCreateTable_of_lines t ws name after cols cl :
  lines_of t = (js "CREATE TABLE" ++ ws ++ name ++ after) :: cols ++ [cl] ->
  ws <> [] -> forallb is_space ws = true ->
  name <> [] -> forallb is_word name = true ->
  stops is_word after = true ->
  forallb column_line cols = true ->
  closing_line cl = true ->
  last_is_new cols = true ->
  formatCreateTable t
  = Returned
      (join [newline]
         ((js "CREATE TABLE " ++ name ++ js " (")
          :: columns cols ++ [js "    );"])).
Proof.
  intros El Hw0 Hw Hn0 Hn Ha Hc Hcl Hl.
  unfold formatCreateTable. rewrite El.
  set (header := js "CREATE TABLE" ++ ws ++ name ++ after) in *.
  assert (Hs : startsWith header (js "CREATE TABLE") = true)
    by apply startsWith_app.
  cbn [formatCreateTable_loop]. rewrite Hs.
  unfold header at 1. rewrite (header_search ws name after) by assumption.
  pose proof (columns_loop header cl cols Hs Hc Hcl Hl cols [] eq_refl) as HL.
  unfold str in *. rewrite HL. reflexivity.
Qed.

Lemma well_formed_last_is_new init lst e :
  eqc ","%char e = false ->
  last_is_new (map (fun c => c ++ js ",") init ++ [lst ++ [e]]) = true.
Proof.
  intro Hcomma.
  unfold last_is_new. rewrite rev_app_distr. cbn [rev app].
  apply negb_true_iff. apply not_true_is_false. intro H.
  apply existsb_exists in H. destruct H as (x & Hx & Ex).
  apply str_eqb_eq in Ex. subst x. apply in_rev in Hx.
  apply in_map_iff in Hx. destruct Hx as (y & Ey & _).
  apply (f_equal (@rev ascii)) in Ey.
  rewrite !rev_app_distr in Ey. cbn [rev app js list_ascii_of_string] in Ey.
  injection Ey as Ey _. subst e. unfold eqc in Hcomma.
  rewrite Ascii.eqb_refl in Hcomma. discriminate.
Qed.

Lemma lines_of_join_trim l :
  forallb no_newline l = true ->
  lines_of (join [newline] l) = filter truthy (map trim l).
Proof.
  intro H. destruct l as [|a l]; [reflexivity|].
  unfold lines_of. rewrite split_join; [reflexivity|discriminate|exact H].
Qed.

Lemma word_not_blank c : is_word c = true -> is_blank c = false.
Proof.
  intro H. destruct (is_blank c) eqn:E; [|reflexivity].
  apply is_blank_is_space in E. apply word_not_space in H. congruence.
Qed.

Lemma sparse_word : forall name y,
  forallb is_word name = true ->
  sparse is_blank false (name ++ y) = sparse is_blank false y.
Proof.
  induction name as [|c name IH]; intros y H; [reflexivity|].
  cbn [forallb] in H. apply andb_true_iff in H. destruct H as [Hc Hn].
  cbn [app sparse]. rewrite (word_not_blank c Hc). apply IH, Hn.
Qed.

Lemma no_newline_word : forall name,
  forallb is_word name = true -> no_newline name = true.
Proof.
  intros name H. unfold no_newline. rewrite forallb_forall in *.
  intros c Hc. specialize (H c Hc). apply negb_true_iff.
  destruct (eqc c newline) eqn:E; [|reflexivity].
  apply eqc_eq in E. subst c. discriminate.
Qed.

Lemma no_newline_app a b :
  no_newline a = true -> no_newline b = true -> no_newline (a ++ b) = true.
Proof.
  unfold no_newline. intros Ha Hb. rewrite forallb_app, Ha, Hb. reflexivity.
Qed.

Section TableLayout.
Variables (name : str) (cols : list str).
Hypothesis name_not_nil : name <> [].
Hypothesis name_word : forallb is_word name = true.
Hypothesis cols_ok : forallb column_line cols = true.

Lemma header_ends :
  header_of name = ("C"%char :: js "REATE TABLE " ++ name ++ js " ") ++ ["("%char].
Proof.
  unfold header_of. cbn [js list_ascii_of_string app].
  rewrite <- app_assoc. reflexivity.
Qed.

Lemma header_clean : clean_line (header_of name) = true.
Proof.
  unfold clean_line. apply andb_true_iff. split.
  - apply andb_true_iff. split; [reflexivity|].
    rewrite header_ends. cbn [app no_edge_space].
    change ("C"%char :: (js "REATE TABLE " ++ name ++ js " ") ++ ["("%char])
      with (("C"%char :: js "REATE TABLE " ++ name ++ js " ") ++ ["("%char]).
    rewrite last_snoc. reflexivity.
  - unfold header_of. apply no_newline_app; [reflexivity|].
    apply no_newline_app; [apply no_newline_word, name_word|reflexivity].
Qed.

Lemma column_clean c : In c cols -> clean_line c = true.
Proof.
  intro H. pose proof cols_ok as Hc. rewrite forallb_forall in Hc.
  apply (column_line_parts c (Hc c H)).
Qed.

Lemma layout_no_newline :
  forallb no_newline
    (header_of name :: map (app (js "    ")) cols ++ [js "    );"]) = true.
Proof.
  cbn [forallb]. apply andb_true_iff. split.
  - apply (clean_line_parts _ header_clean).
  - rewrite forallb_app. apply andb_true_iff. split; [|reflexivity].
    rewrite forallb_forall. intros x Hx. apply in_map_iff in Hx.
    destruct Hx as (c & <- & Hc).
    apply no_newline_app; [reflexivity|].
    apply (clean_line_parts c (column_clean c Hc)).
Qed.

Lemma map_trim_indented : forall l,
  (forall c, In c l -> clean_line c = true) ->
  filter truthy (map trim (map (app (js "    ")) l)) = l.
Proof.
  induction l as [|c l IH]; intro H; [reflexivity|].
  cbn [map filter].
  destruct (clean_line_parts c (H c (or_introl eq_refl))) as (Hne & He & _).
  rewrite (trim_indented (js "    ") c eq_refl He).
  destruct c; [congruence|]. cbn [truthy]. f_equal.
  apply IH. intros x Hx. apply H. right. exact Hx.
Qed.

Lemma layout_lines :
  lines_of (table_layout_of name cols) = header_of name :: cols ++ [js ");"].
Proof.
  unfold table_layout_of. fold (header_of name).
  pose proof layout_no_newline as Hnn. unfold str in *.
  rewrite (lines_of_join_trim _ Hnn).
  cbn [map filter].
  rewrite (no_edge_space_trim _
             (proj1 (proj2 (clean_line_parts _ header_clean)))).
  change (truthy (header_of name)) with true. cbv iota. f_equal.
  rewrite map_app, filter_app. f_equal.
  apply map_trim_indented, column_clean.
Qed.

Hypothesis cols_sparse : forallb (sparse is_blank false) cols = true.

Lemma layout_lines_sparse :
  forallb (sparse is_blank false) (lines_of (table_layout_of name cols)) = true.
Proof.
  rewrite layout_lines. cbn [forallb]. apply andb_true_iff. split.
  - unfold header_of. cbn [js list_ascii_of_string app].
    change (sparse is_blank false
              ("C"%char :: "R"%char :: "E"%char :: "A"%char :: "T"%char
               :: "E"%char :: " "%char :: "T"%char :: "A"%char :: "B"%char
               :: "L"%char :: "E"%char :: " "%char :: name ++ js " ("))
      with (sparse is_blank true (name ++ js " (")).
    destruct name as [|c n] eqn:E; [congruence|].
    cbn [forallb] in name_word. apply andb_true_iff in name_word.
    cbn [app sparse]. rewrite (word_not_blank c (proj1 name_word)).
    rewrite (sparse_word n _ (proj2 name_word)). reflexivity.
  - rewrite forallb_app, cols_sparse. reflexivity.
Qed.

End TableLayout.

(** A table definition in the layout of [formatCreateTable] comes back
    from the cleanup and the formatter as it is. *)
Lemma table_second_pass name init lst e :
  let cols := map (fun c => c ++ js ",") init ++ [lst ++ [e]] in
  name <> [] -> forallb is_word name = true ->
  forallb column_line cols = true ->
  forallb (sparse is_blank false) cols = true ->
  is_space e = false -> eqc ","%char e = false ->
  matches_in re_table_options (table_layout_of name cols) = false ->
  format (cleanup (table_layout_of name cols))
  = Returned (table_layout_of name cols).
Proof.
  intros cols Hn0 Hn Hc Hs He Hcomma Ho.
  set (s := table_layout_of name cols).
  pose proof (layout_lines name cols Hn Hc) as El. fold s in El.
  assert (El2 : lines_of (cleanup s) = header_of name :: cols ++ [js ");"]).
  { rewrite (lines_of_cleanup s Ho); [exact El|].
    apply (layout_lines_sparse name cols Hn0 Hn Hc Hs). }
  assert (Hct : startsWith (toLowerCase (cleanup s)) (js "create table") = true).
  { rewrite (startsWith_first_line (cleanup s) (js "create table")
               (trim_no_edge_space _) eq_refl).
    rewrite El2. reflexivity. }
  unfold format. rewrite Hct.
  assert (Hw : js " " <> []) by discriminate.
  rewrite (formatCreateTable_of_lines (cleanup s) (js " ") name (js " (")
             cols (js ");") El2 Hw eq_refl Hn0 Hn eq_refl Hc eq_refl
             (well_formed_last_is_new init lst e Hcomma)).
  subst cols. unfold str in *.
  rewrite (columns_well_formed e He Hcomma init lst). reflexivity.
Qed.

(** *** Both passes together *)

Lemma returned_statement x s :
  mysqlToSQLiteParser x = Returned s ->
  includes s rollup = false ->
  rewritten x = Returned s.
Proof.
  unfold mysqlToSQLiteParser, mysqlToSQLiteParser_console.
  destruct (rewritten x) as [r|]; [|discriminate].
  destruct (warn_rollup r) as [w q'] eqn:E. cbn [snd]. intros H Hr.
  injection H as ->.
  assert (Hs : snd (warn_rollup r) = s) by (rewrite E; reflexivity).
  rewrite <- Hs in Hr. rewrite (warn_rollup_clean r Hr) in E.
  injection E as _ ->. reflexivity.
Qed.

Lemma second_pass s :
  no_mapped_construct s = true ->
  includes s rollup = false ->
  format (cleanup s) = Returned s ->
  mysqlToSQLiteParser s = Returned s.
Proof.
  intros Hm Hr Hf.
  unfold mysqlToSQLiteParser, mysqlToSQLiteParser_console, rewritten.
  rewrite (no_mapped_rules s Hm), Hf. unfold warn_rollup. rewrite Hr.
  reflexivity.
Qed.

End SecondPassFacts.

(* ================================================================== *)
(** ** Facts about statements without upper-case letters *)

Module LowerCaseFacts.
Import Chars Js Regex Parser Analysis Shapes.
Import StringFacts RegexFacts ParserFacts RunFacts RuleFacts LineFacts CleanupFacts WordRuleFacts
  SparseFacts SqueezeFacts OccurrenceFacts SecondPassFacts.

(** *** Replacements that keep the text character by character *)

Lemma Forall2_refl (R : ascii -> ascii -> Prop) :
  (forall c, R c c) -> forall l, Forall2 R l l.
Proof. intros H l. induction l; constructor; auto. Qed.

Lemma scan_related (R : ascii -> ascii -> Prop) r rp :
  (forall c, R c c) ->
  (forall p l s', exec r p l = Some s' ->
     Forall2 R (substitute rp (consumed l (rest s')) (caps s'))
               (consumed l (rest s'))) ->
  forall l n p, Forall2 R (scan r rp p l n) (skipn n l).
Proof.
  intros Hrefl Hm. induction l as [|c t IH]; intros n p.
  - cbn [scan]. destruct n; [|constructor].
    destruct (exec r p []) as [s'|] eqn:E; [|constructor].
    specialize (Hm _ _ _ E). unfold consumed in Hm.
    cbn [length Nat.sub firstn] in Hm. exact Hm.
  - cbn [scan]. destruct n as [|n]; [|apply IH].
    destruct (exec r p (c :: t)) as [s'|] eqn:E.
    + pose proof (exec_text _ _ _ _ E) as Et.
      specialize (Hm _ _ _ E).
      destruct (consumed (c :: t) (rest s')) as [|x m] eqn:Em.
      * inversion Hm. cbn [app length skipn]. constructor; [apply Hrefl|].
        apply (IH 0).
      * cbn [length]. cbn [app] in Et. injection Et as -> Et.
        cbn [skipn]. rewrite Et at 2.
        change (x :: m ++ rest s') with ((x :: m) ++ rest s').
        apply Forall2_app; [exact Hm|].
        specialize (IH (length m) (Some x)). rewrite Et in IH at 2.
        rewrite skipn_app, skipn_all, Nat.sub_diag in IH. exact IH.
    + cbn [skipn]. constructor; [apply Hrefl|]. apply (IH 0).
Qed.

Lemma upcased_refl c : upcased c c.
Proof. left. reflexivity. Qed.

Lemma upcased_word : forall v u,
  toUpperCase v = u -> (forall o, In o u -> In o (js "GROUP_CONCAT")) ->
  Forall2 upcased u v.
Proof.
  induction v as [|c v IH]; intros u E Hin.
  - cbn in E. subst u. constructor.
  - cbn [toUpperCase map] in E. subst u. constructor.
    + right. split; [reflexivity|]. apply Hin. left. reflexivity.
    + apply IH; [reflexivity|]. intros o Ho. apply Hin. right. exact Ho.
Qed.

Lemma group_concat_upcased p l s' :
  exec re_group_concat p l = Some s' ->
  Forall2 upcased
    (substitute (Callback group_concat_callback) (consumed l (rest s'))
       (caps s'))
    (consumed l (rest s')).
Proof.
  intro H. destruct (group_concat_match _ _ _ H) as (v & U & ->).
  cbn [substitute]. unfold group_concat_callback.
  change (js "GROUP_CONCAT(") with (js "GROUP_CONCAT" ++ js "(").
  rewrite <- !app_assoc. apply Forall2_app.
  - apply (upcased_word v _ U). auto.
  - apply Forall2_refl, upcased_refl.
Qed.

Lemma group_concat_dot_upcased p l s' :
  exec re_group_concat_dot p l = Some s' ->
  Forall2 upcased
    (substitute (Template (js "GROUP_CONCAT($1)")) (consumed l (rest s'))
       (caps s'))
    (consumed l (rest s')).
Proof.
  intro H. destruct (group_concat_dot_match _ _ _ H) as (v & U & ->).
  cbn [substitute].
  change (expand (js "GROUP_CONCAT($1)") (caps s'))
    with (js "GROUP_CONCAT" ++ "("%char :: group 1 (caps s') ++ [")"%char]).
  apply Forall2_app.
  - apply (upcased_word v _ U). auto.
  - apply Forall2_refl, upcased_refl.
Qed.

Lemma to_upper_idem_all :
  forallb (fun c => eqc (to_upper (to_upper c)) (to_upper c)) all_chars = true.
Proof. vm_compute. reflexivity. Qed.

Lemma to_upper_idem c : to_upper (to_upper c) = to_upper c.
Proof.
  pose proof to_upper_idem_all as H. rewrite forallb_forall in H.
  apply eqc_eq, H, in_all_chars.
Qed.

Lemma upcased_trans a b c : upcased a b -> upcased b c -> upcased a c.
Proof.
  intros [->|[-> Ha]] Hbc; [exact Hbc|].
  destruct Hbc as [->|[-> Hb]].
  - right. split; [reflexivity|exact Ha].
  - right. rewrite to_upper_idem in *. split; [reflexivity|exact Ha].
Qed.

Lemma Forall2_trans (R : ascii -> ascii -> Prop) :
  (forall a b c, R a b -> R b c -> R a c) ->
  forall x y, Forall2 R x y -> forall z, Forall2 R y z -> Forall2 R x z.
Proof.
  intros HR x y H. induction H as [|a b la lb Hab _ IH]; intros z Hz.
  - inversion Hz. constructor.
  - inversion Hz as [|b' c lb' lc Hbc Hbl]; subst. constructor.
    + apply (HR a b c Hab Hbc).
    + apply IH, Hbl.
Qed.

Lemma handleGroupConcat_upcased q : Forall2 upcased (handleGroupConcat q) q.
Proof.
  unfold handleGroupConcat.
  apply (Forall2_trans upcased upcased_trans _
           (replace_all re_group_concat (Callback group_concat_callback) q)).
  - apply (scan_related upcased re_group_concat_dot
             (Template (js "GROUP_CONCAT($1)")) upcased_refl
             group_concat_dot_upcased _ 0 None).
  - apply (scan_related upcased re_group_concat
             (Callback group_concat_callback) upcased_refl
             group_concat_upcased q 0 None).
Qed.

(** What the relation keeps. *)
Lemma upcased_forallb P :
  (forall o, In o (js "GROUP_CONCAT") -> P o = true) ->
  forall out q, Forall2 upcased out q ->
  forallb P q = true -> forallb P out = true.
Proof.
  intros HP out q H. induction H as [|o c lo lc Hoc _ IH]; intro Hq.
  - reflexivity.
  - cbn [forallb] in *. apply andb_true_iff in Hq. destruct Hq as [Hc Hl].
    rewrite (IH Hl), andb_true_r.
    destruct Hoc as [->|[-> Hin]]; [exact Hc|apply HP, Hin].
Qed.

Lemma upcased_fixed : forall w w',
  (forall c, In c w -> to_upper c = c) -> Forall2 upcased w' w -> w' = w.
Proof.
  intros w w' Hw H. induction H as [|o c lo lc Hoc _ IH]; [reflexivity|].
  f_equal.
  - destruct Hoc as [->|[-> _]]; [reflexivity|]. apply Hw. left. reflexivity.
  - apply IH. intros x Hx. apply Hw. right. exact Hx.
Qed.

Lemma upcased_includes w out q :
  (forall c, In c w -> to_upper c = c) ->
  Forall2 upcased out q -> includes q w = true -> includes out w = true.
Proof.
  intros Hw H Hi. apply includes_app_elim in Hi. destruct Hi as (a & b & ->).
  apply Forall2_app_inv_r in H. destruct H as (a' & r & _ & H & ->).
  apply Forall2_app_inv_r in H. destruct H as (w' & b' & H & _ & ->).
  rewrite (upcased_fixed w w' Hw H). apply includes_app_intro.
Qed.

(** *** The characters other than white space *)

Lemma ink_app a b : ink (a ++ b) = ink a ++ ink b.
Proof. apply filter_app. Qed.

Lemma ink_spaces : forall ws, forallb is_space ws = true -> ink ws = [].
Proof.
  induction ws as [|c ws IH]; intro H; [reflexivity|].
  cbn [forallb] in H. apply andb_true_iff in H. destruct H as [Hc Hw].
  cbn [ink filter]. unfold not_space at 1. rewrite Hc. apply IH, Hw.
Qed.

Lemma ink_trim s : ink (trim s) = ink s.
Proof.
  unfold trim.
  destruct (trimStart_split s) as (ws & E & Hws).
  destruct (trimEnd_split (trimStart s)) as (ws' & E' & Hws').
  rewrite E at 2. rewrite ink_app, (ink_spaces ws Hws).
  rewrite E' at 2. rewrite ink_app, (ink_spaces ws' Hws'), app_nil_r.
  reflexivity.
Qed.

Lemma ink_cons_space c s : is_space c = true -> ink (c :: s) = ink s.
Proof. intro H. cbn [ink filter]. unfold not_space at 1. rewrite H. reflexivity. Qed.

Lemma ink_cons_text c s : is_space c = false -> ink (c :: s) = c :: ink s.
Proof. intro H. cbn [ink filter]. unfold not_space at 1. rewrite H. reflexivity. Qed.

Lemma ink_squeeze C :
  (forall c, C c = true -> is_space c = true) -> C space = true ->
  forall s b, ink (squeeze C b s) = ink s.
Proof.
  intros HC Hsp. induction s as [|c s IH]; intro b; [reflexivity|].
  cbn [squeeze]. destruct (C c) eqn:Ec.
  - rewrite (ink_cons_space c s (HC c Ec)).
    destruct b; [apply IH|].
    rewrite (ink_cons_space space _ (HC space Hsp)). apply IH.
  - destruct (is_space c) eqn:Es.
    + rewrite !ink_cons_space by exact Es. apply IH.
    + rewrite !ink_cons_text by exact Es. rewrite IH. reflexivity.
Qed.

Lemma ink_split : forall s, ink s = concat (map ink (split newline s)).
Proof.
  induction s as [|c s IH]; [reflexivity|].
  cbn [split]. destruct (eqc c newline) eqn:E.
  - apply eqc_eq in E. subst c. cbn [map concat app]. rewrite <- IH.
    reflexivity.
  - destruct (split newline s) as [|w ws] eqn:Es.
    + exfalso. apply (split_not_nil newline s Es).
    + cbn [map concat] in *. change (c :: s) with ([c] ++ s).
      change (c :: w) with ([c] ++ w). rewrite !ink_app, IH, app_assoc.
      reflexivity.
Qed.

Lemma ink_lines s : ink s = concat (map ink (lines_of s)).
Proof.
  rewrite ink_split. unfold lines_of.
  induction (split newline s) as [|p ps IH]; [reflexivity|].
  cbn [map concat filter]. rewrite IH.
  destruct (trim p) as [|c t] eqn:Et; cbn [truthy].
  - rewrite <- (ink_trim p), Et. reflexivity.
  - cbn [map concat]. rewrite <- Et, ink_trim. reflexivity.
Qed.

Lemma is_space_is_space c : is_space c = true -> is_space c = true.
Proof. auto. Qed.

Lemma replace_spaces_squeeze s :
  replace_all re_spaces (Template (js " ")) s = squeeze is_space false s.
Proof.
  unfold replace_all, re_spaces, space_class.
  apply (scan_squeeze is_space (length s)). lia.
Qed.

Lemma ink_cleanup t :
  matches_in re_table_options t = false -> ink (cleanup t) = ink t.
Proof.
  intro Ho. unfold cleanup. rewrite (replace_all_no_match _ _ _ Ho).
  rewrite ink_trim, ink_lines, lines_of_blank_lines, <- ink_lines.
  rewrite replace_blanks_squeeze.
  apply (ink_squeeze is_blank is_blank_is_space is_blank_space).
Qed.

Lemma ink_formatSQL q : ink (formatSQL q) = ink q.
Proof.
  destruct (one_line_shape q) eqn:Ho.
  - unfold formatSQL. unfold one_line_shape in Ho. rewrite Ho.
    rewrite ink_trim, replace_spaces_squeeze.
    apply (ink_squeeze is_space is_space_is_space eq_refl).
  - rewrite ink_lines, (ink_lines q). f_equal. f_equal.
    unfold formatSQL. unfold one_line_shape in Ho. rewrite Ho.
    apply lines_of_formatSQL_loop, lines_of_clean.
Qed.

Lemma upper_not_space c : is_upper c = true -> is_space c = false.
Proof.
  intro H. apply word_not_space. unfold is_word. rewrite H. reflexivity.
Qed.

Lemma has_upper_ink : forall s, has_upper (ink s) = has_upper s.
Proof.
  induction s as [|c s IH]; [reflexivity|].
  unfold has_upper, has in *. cbn [existsb].
  destruct (is_space c) eqn:Ec.
  - rewrite (ink_cons_space c s Ec), IH.
    destruct (is_upper c) eqn:Eu; [|reflexivity].
    apply upper_not_space in Eu. congruence.
  - rewrite (ink_cons_text c s Ec). cbn [existsb]. rewrite IH. reflexivity.
Qed.

Lemma ink_upper : forall s, ink (toUpperCase s) = toUpperCase (ink s).
Proof.
  induction s as [|c s IH]; [reflexivity|].
  cbn [toUpperCase map]. fold (toUpperCase s).
  destruct (is_space c) eqn:Ec.
  - rewrite (ink_cons_space c s Ec). rewrite ink_cons_space; [exact IH|].
    destruct (to_upper_kind c) as (-> & _). exact Ec.
  - rewrite (ink_cons_text c s Ec). rewrite ink_cons_text.
    + rewrite IH. reflexivity.
    + destruct (to_upper_kind c) as (-> & _). exact Ec.
Qed.

Lemma includes_has P : forall s w,
  includes s w = true -> has P w = true -> has P s = true.
Proof.
  intros s w H Hw. apply includes_app_elim in H. destruct H as (a & b & ->).
  unfold has in *. rewrite !existsb_app, Hw, orb_true_r. reflexivity.
Qed.

Lemma lower_case_no_rollup s : has_upper s = false -> includes s rollup = false.
Proof.
  intro H. destruct (includes s rollup) eqn:E; [|reflexivity].
  unfold has_upper in H.
  rewrite (includes_has is_upper s rollup E eq_refl) in H. discriminate.
Qed.

Lemma has_false_forallb (P : ascii -> bool) : forall s,
  has P s = false -> forallb (fun c => negb (P c)) s = true.
Proof.
  induction s as [|c s IH]; intro H; [reflexivity|].
  unfold has in *. cbn [existsb forallb] in *.
  apply orb_false_iff in H. destruct H as [Hc Hs].
  rewrite Hc, (IH Hs). reflexivity.
Qed.

Lemma forallb_has_false (P : ascii -> bool) : forall s,
  forallb (fun c => negb (P c)) s = true -> has P s = false.
Proof.
  induction s as [|c s IH]; intro H; [reflexivity|].
  unfold has in *. cbn [existsb forallb] in *.
  apply andb_true_iff in H. destruct H as [Hc Hs].
  apply negb_true_iff in Hc. rewrite Hc, (IH Hs). reflexivity.
Qed.

Lemma no_upper_no_w s :
  has_upper s = false -> forallb (fun c => negb (eqc c "W"%char)) s = true.
Proof.
  intro H. apply has_false_forallb in H. rewrite forallb_forall in *.
  intros c Hc. specialize (H c Hc). apply negb_true_iff in H.
  apply negb_true_iff. destruct (eqc c "W"%char) eqn:E; [|reflexivity].
  apply eqc_eq in E. subst c. discriminate.
Qed.

Lemma no_w_no_rollup s :
  forallb (fun c => negb (eqc c "W"%char)) s = true ->
  includes s rollup = false.
Proof.
  intro H. apply (forallb_has_false (fun c => eqc c "W"%char)) in H.
  destruct (includes s rollup) eqn:E; [|reflexivity].
  rewrite (includes_has (fun c => eqc c "W"%char) s rollup E eq_refl) in H.
  discriminate.
Qed.

Lemma group_concat_no_w q :
  forallb (fun c => negb (eqc c "W"%char)) q = true ->
  forallb (fun c => negb (eqc c "W"%char)) (handleGroupConcat q) = true.
Proof.
  apply (upcased_forallb (fun c => negb (eqc c "W"%char))).
  - intros o Ho. cbn in Ho.
    repeat (destruct Ho as [<-|Ho]; [reflexivity|]). destruct Ho.
  - apply handleGroupConcat_upcased.
Qed.

Lemma table_options_need_upper : needs is_upper re_table_options = true.
Proof. vm_compute. reflexivity. Qed.

Lemma lower_case_no_options s :
  has_upper s = false -> matches_in re_table_options s = false.
Proof.
  intro H. apply (needs_no_match is_upper _ table_options_need_upper), H.
Qed.

Lemma no_auto_increment_rules x :
  forallb (fun m => negb (matches_in (regex m) x)) auto_increment_mappings
  = true ->
  apply_mappings auto_increment_mappings x = x.
Proof.
  intro H. apply apply_mappings_fixed. intros m Hin.
  rewrite forallb_forall in H. specialize (H m Hin).
  apply negb_true_iff in H. apply replace_all_no_match, H.
Qed.

(** A statement without upper-case letters, in which no auto-increment
    rule matches and which is not taken as a table definition, is
    returned with its characters other than white space. *)
Lemma lower_case_statement x :
  has_upper x = false ->
  forallb (fun m => negb (matches_in (regex m) x)) auto_increment_mappings
  = true ->
  startsWith (toLowerCase (cleanup x)) (js "create table") = false ->
  exists out,
    mysqlToSQLiteParser x = Returned out
    /\ toUpperCase (ink out) = toUpperCase (ink x)
    /\ (includes (toLowerCase (cleanup x)) (js "group_concat") = false ->
        ink out = ink x).
Proof.
  intros Hu Hai Hct.
  assert (Hm : apply_mappings functionMappings x = x).
  { rewrite apply_mappings_split.
    rewrite (case_sensitive_fixed is_upper x case_sensitive_need_upper Hu).
    apply no_auto_increment_rules, Hai. }
  pose proof (ink_cleanup x (lower_case_no_options x Hu)) as Hq.
  unfold mysqlToSQLiteParser, mysqlToSQLiteParser_console, rewritten.
  rewrite Hm. unfold format. rewrite Hct.
  destruct (includes (toLowerCase (cleanup x)) (js "group_concat")) eqn:Hg.
  - set (r := handleGroupConcat (cleanup x)).
    assert (Hr : toUpperCase (ink r) = toUpperCase (ink x)).
    { rewrite <- !ink_upper. unfold r. rewrite handleGroupConcat_upper.
      rewrite !ink_upper, Hq. reflexivity. }
    assert (Hn : includes r rollup = false).
    { apply no_w_no_rollup, group_concat_no_w, no_upper_no_w.
      rewrite <- has_upper_ink, Hq, has_upper_ink. exact Hu. }
    unfold warn_rollup. rewrite Hn. cbn [snd]. exists r.
    split; [reflexivity|]. split; [exact Hr|discriminate].
  - set (r := formatSQL (cleanup x)).
    assert (Hr : ink r = ink x) by (unfold r; rewrite ink_formatSQL; exact Hq).
    assert (Hn : includes r rollup = false).
    { apply lower_case_no_rollup. rewrite <- has_upper_ink, Hr, has_upper_ink.
      exact Hu. }
    unfold warn_rollup. rewrite Hn. cbn [snd]. exists r.
    split; [reflexivity|]. split; [rewrite Hr; reflexivity|intros _; exact Hr].
Qed.

End LowerCaseFacts.

(* ================================================================== *)
(** ** Facts about the auto-increment rules *)

Module AutoIncrementFacts.
Import Chars Js Regex Parser Analysis Shapes.
Import StringFacts RegexFacts ParserFacts RunFacts RuleFacts LineFacts CleanupFacts WordRuleFacts
  SparseFacts SqueezeFacts OccurrenceFacts SecondPassFacts LowerCaseFacts.

(** A template without [$] is written as it is. *)
Lemma expand_plain cs : forall t,
  forallb (fun c => negb (is_code 36 c)) t = true -> expand t cs = t.
Proof.
  induction t as [|c t IH]; intro H; [reflexivity|].
  cbn [forallb] in H. apply andb_true_iff in H. destruct H as [Hc Ht].
  apply negb_true_iff in Hc. cbn [expand]. rewrite Hc, (IH Ht). reflexivity.
Qed.

(** When the pattern matches at some position of the text, the global
    replacement by a constant writes that constant at least once. *)
Lemma scan_hit_includes r t b :
  forallb (fun c => negb (is_code 36 c)) t = true ->
  forall a p,
    exec r (last_char a p) b <> None ->
    includes (scan r (Template t) p (a ++ b) 0) t = true.
Proof.
  intros Ht. induction a as [|c a IH]; intros p He.
  - cbn [app last_char fold_left] in *.
    destruct (exec r p b) as [s'|] eqn:E; [|congruence].
    destruct b as [|d b].
    + cbn [scan]. rewrite E. cbn [substitute]. rewrite (expand_plain _ _ Ht).
      apply includes_starts. rewrite <- (app_nil_r t) at 1. apply startsWith_app.
    + cbn [scan]. rewrite E. cbn [substitute]. rewrite (expand_plain _ _ Ht).
      apply includes_starts, startsWith_app.
  - cbn [app scan].
    destruct (exec r p (c :: a ++ b)) as [s'|] eqn:E.
    + cbn [substitute]. rewrite (expand_plain _ _ Ht).
      apply includes_starts, startsWith_app.
    + apply includes_cons, IH. exact He.
Qed.

Lemma replace_hit_includes r t a b :
  forallb (fun c => negb (is_code 36 c)) t = true ->
  exec r (last_char a None) b <> None ->
  includes (replace_all r (Template t) (a ++ b)) t = true.
Proof. intros Ht He. apply scan_hit_includes; assumption. Qed.

(** A literal under the [i] flag accepts every spelling of it. *)
Lemma rmatch_liti_of : forall w v k p r cs,
  toUpperCase v = toUpperCase w ->
  rmatch (liti_of w) k (MState p (v ++ r) cs) = k (MState (last_char v p) r cs).
Proof.
  induction w as [|c w IH]; intros v k p r cs H.
  - destruct v; [reflexivity|discriminate].
  - destruct v as [|d v]; [discriminate|].
    cbn [toUpperCase map] in H. injection H as Hd Hv.
    assert (Hc : eqc_ci c d = true).
    { unfold eqc_ci. rewrite Hd. apply Ascii.eqb_refl. }
    destruct w as [|c' w].
    + destruct v; [|discriminate].
      cbn [liti_of chi rmatch rest app caps]. rewrite Hc. reflexivity.
    + change (liti_of (c :: c' :: w)) with (Seq (chi c) (liti_of (c' :: w))).
      cbn [rmatch chi rest app caps]. rewrite Hc.
      rewrite (IH v _ _ _ _ Hv). reflexivity.
Qed.

Lemma orelse_default {A} (a : option A) x : orelse a (Some x) <> None.
Proof. destruct a; discriminate. Qed.

Lemma underscore_spelling c : to_upper c = "_"%char -> c = "_"%char.
Proof.
  pose proof (in_all_chars c) as Hin. revert c Hin.
  assert (H : forallb (fun c => implb (eqc (to_upper c) "_"%char)
                                      (eqc c "_"%char))
                all_chars = true) by (vm_compute; reflexivity).
  rewrite forallb_forall in H. intros c Hin Hu. specialize (H c Hin).
  rewrite Hu in H. apply Ascii.eqb_eq. exact H.
Qed.

(** A spelling of [AUTO_INCREMENT] in any letter case. *)
Lemma spelling_parts v :
  toUpperCase v = js "AUTO_INCREMENT" ->
  exists a b, v = a ++ "_"%char :: b
    /\ toUpperCase a = js "AUTO" /\ toUpperCase b = js "INCREMENT".
Proof.
  intro H.
  do 14 (destruct v as [|? v]; [discriminate|]).
  destruct v; [|discriminate].
  cbn [toUpperCase map js list_ascii_of_string] in H.
  injection H as H1 H2 H3 H4 H5 H6 H7 H8 H9 H10 H11 H12 H13 H14.
  apply underscore_spelling in H5. subst.
  eexists [_; _; _; _], [_; _; _; _; _; _; _; _; _].
  split; [reflexivity|]. cbn [toUpperCase map].
  split.
  - rewrite H1, H2, H3, H4. reflexivity.
  - rewrite H6, H7, H8, H9, H10, H11, H12, H13, H14. reflexivity.
Qed.

(** The first auto-increment rule matches at every spelling. *)
Lemma auto_increment_rule_matches p v post :
  toUpperCase v = js "AUTO_INCREMENT" ->
  exec (regex (mapping_at 25)) p (v ++ post) <> None.
Proof.
  intro H. destruct (spelling_parts v H) as (a & b & -> & Ha & Hb).
  unfold mapping_at. cbn [nth functionMappings regex]. unfold exec.
  cbn [seq]. unfold liti.
  rewrite <- app_assoc. cbn [rmatch].
  rewrite (rmatch_liti_of (js "AUTO") a) by exact Ha.
  unfold opt. cbn [rmatch app rest caps ch].
  change (eqc "_"%char "_"%char) with true. cbv iota.
  rewrite (rmatch_liti_of (js "INCREMENT") b) by exact Hb.
  cbn [rmatch orelse].
  match goal with |- orelse (orelse ?x _) _ <> None =>
    destruct x; cbn [orelse]; discriminate end.
Qed.

(** The target text is itself matched by the second rule. *)
Lemma target_matched_again p tail :
  exec (regex (mapping_at 26)) p (js "PRIMARY KEY AUTOINCREMENT" ++ tail)
  <> None.
Proof.
  unfold mapping_at. cbn [nth functionMappings regex]. unfold exec.
  cbn [seq]. unfold liti. cbn [rmatch].
  change (js "PRIMARY KEY AUTOINCREMENT" ++ tail)
    with (js "PRIMARY" ++ " "%char :: [] ++ js "KEY AUTOINCREMENT" ++ tail).
  rewrite (rmatch_liti_of (js "PRIMARY") (js "PRIMARY")) by reflexivity.
  unfold space_class.
  match goal with |- ?x <> None =>
    assert (Hx : exists out, x = Some out); [|destruct Hx as (out & ->); discriminate] end.
  eexists. apply plus_run; [reflexivity|reflexivity|reflexivity|].
  cbn [rmatch].
  change (js "KEY AUTOINCREMENT" ++ tail)
    with (js "KEY" ++ " "%char :: [] ++ js "AUTOINCREMENT" ++ tail).
  rewrite (rmatch_liti_of (js "KEY") (js "KEY")) by reflexivity.
  apply plus_run; [reflexivity|reflexivity|reflexivity|].
  change (js "AUTOINCREMENT" ++ tail)
    with (js "AUTO" ++ js "INCREMENT" ++ tail).
  cbn [rmatch].
  rewrite (rmatch_liti_of (js "AUTO") (js "AUTO")) by reflexivity.
  unfold opt. cbn [rmatch].
  change (js "INCREMENT" ++ tail) with ("I"%char :: js "NCREMENT" ++ tail).
  cbn [rest ch caps]. change (eqc "_"%char "I"%char) with false. cbv iota.
  cbn [orelse].
  change ("I"%char :: js "NCREMENT" ++ tail) with (js "INCREMENT" ++ tail).
  rewrite (rmatch_liti_of (js "INCREMENT") (js "INCREMENT")) by reflexivity.
  reflexivity.
Qed.

(** In any context and in any letter case, the two auto-increment rules
    leave the target syntax in the text. *)
Lemma auto_increment_rewritten pre v post :
  toUpperCase v = js "AUTO_INCREMENT" ->
  includes (apply_mappings auto_increment_mappings (pre ++ v ++ post))
           (js "PRIMARY KEY AUTOINCREMENT") = true.
Proof.
  intro H. unfold auto_increment_mappings.
  cbn [skipn functionMappings apply_mappings fold_left].
  unfold apply_mapping. cbn [regex replacement].
  pose proof (replace_hit_includes (regex (mapping_at 25))
                (js "PRIMARY KEY AUTOINCREMENT") pre (v ++ post) eq_refl
                (auto_increment_rule_matches _ v post H)) as H1.
  apply includes_app_elim in H1. destruct H1 as (a & b & E).
  unfold mapping_at in E. cbn [nth functionMappings regex] in E.
  unfold tpl. change (js "PRIMARY KEY AUTOINCREMENT") with (js "PRIMARY KEY AUTOINCREMENT") in *.
  rewrite E.
  apply (replace_hit_includes (regex (mapping_at 26))
           (js "PRIMARY KEY AUTOINCREMENT") a _ eq_refl).
  apply target_matched_again.
Qed.

End AutoIncrementFacts.

(* ================================================================== *)
(** ** The specification, claim by claim *)

Module Claims.
Import Chars Js Regex Parser Analysis Shapes.
Import StringFacts RegexFacts ParserFacts RunFacts RuleFacts LineFacts CleanupFacts WordRuleFacts
  SparseFacts SqueezeFacts OccurrenceFacts SecondPassFacts LowerCaseFacts AutoIncrementFacts.

(** C1: a table definition whose name is quoted with backticks makes
    [line.match(...)] return [null]; reading [[1]] of it throws, so
    [translate] does not return a string there. *)
Theorem quoted_table_name_throws :
  translate "CREATE TABLE `users` (id INT);" = TypeError
  /\ translate "CREATE TABLE" = TypeError.
Proof. split; vm_compute; reflexivity. Qed.




(** C3: the two orders of the auto-increment clause give different
    outputs: the first auto-increment rule rewrites the [AUTO_INCREMENT]
    of [PRIMARY KEY AUTO_INCREMENT] on its own and [PRIMARY KEY] is
    doubled. *)
Theorem auto_increment_order_matters :
  translate "id INTEGER AUTO_INCREMENT PRIMARY KEY"
    = Returned (js "id INTEGER PRIMARY KEY AUTOINCREMENT")
  /\ translate "id INTEGER PRIMARY KEY AUTO_INCREMENT"
    = Returned (js "id INTEGER PRIMARY KEY PRIMARY KEY AUTOINCREMENT").
Proof. split; vm_compute; reflexivity. Qed.

(** C4: the [CONCAT] rule, which has no word boundary, matches inside
    [GROUP_CONCAT(DISTINCT a.b)] and removes the call. *)
Theorem group_concat_distinct_loses_call :
  translate "SELECT GROUP_CONCAT(DISTINCT a.b) FROM t"
    = Returned (js "SELECT GROUP_DISTINCT a.b FROM t").
Proof. vm_compute; reflexivity. Qed.

(** C5: the bare-join rule matches the [JOIN] of the [LEFT JOIN] that the
    rule before it has just written. *)
Theorem left_join_rematched :
  translate "SELECT * FROM a LEFT JOIN b ON a.id = b.id"
    = Returned (js "SELECT * FROM a LEFT INNER JOIN b ON a.id = b.id")
  /\ translate "SELECT * FROM a RIGHT OUTER JOIN b ON a.id = b.id"
    = Returned (js "SELECT * FROM a LEFT INNER JOIN b ON a.id = b.id").
Proof. split; vm_compute; reflexivity. Qed.

(** C6, as the code has it: a one-capture rule [NAME\((.*?)\)] (the rules
    for [CONCAT], [SUBSTRING], [YEAR], [MONTH], [DAY], [CEIL] and [FLOOR])
    captures the text between the opening parenthesis and the first closing
    parenthesis after it on the same line, opening parentheses included; the
    [YEAR] rule then rewrites exactly that span. *)
Theorem capture_ends_at_first_rparen (name : string) (p : option ascii)
  (args tail : str) :
  forallb plain_char args = true ->
  exec (call1 name) p (js name ++ "("%char :: args ++ ")"%char :: tail)
    = Some (MState (Some ")"%char) tail [(1, args)])
  /\ apply_mapping (js "YEAR(" ++ args ++ ")"%char :: tail) (mapping_at 6)
     = js "CAST(strftime('%Y', " ++ args ++ js ") AS INTEGER)"
       ++ scan (call1 "YEAR") (tpl "CAST(strftime('%Y', $1) AS INTEGER)")
            (Some ")"%char) tail 0.
Proof.
  intro Hargs. split; [apply exec_call1, Hargs|].
  unfold apply_mapping, mapping_at. cbn [nth functionMappings regex replacement].
  unfold replace_all.
  change (js "YEAR(" ++ args ++ ")"%char :: tail)
    with (js "YEAR" ++ "("%char :: args ++ ")"%char :: tail).
  rewrite replace_call1 by exact Hargs.
  cbn. rewrite <- app_assoc. reflexivity.
Qed.

Lemma capture_ends_at_first_rparen_witness :
  exec (call1 "YEAR") None (js "YEAR(MAX(d))")
  = Some (MState (Some ")"%char) (js ")") [(1, js "MAX(d")]).
Proof.
  exact (proj1 (capture_ends_at_first_rparen "YEAR" None (js "MAX(d") (js ")")
                  eq_refl)).
Defined.

(** C6 at [YEAR(MAX(d))] and [CONCAT(UPPER(a), b)]: the capture stops at
    the first closing parenthesis, inside the nested call, and not at the
    matching one. *)
Lemma nested_call_truncated :
  (exists s', exec (call1 "YEAR") None (js "YEAR(MAX(d))") = Some s'
              /\ group 1 (caps s') = js "MAX(d"
              /\ group 1 (caps s') <> js "MAX(d)")
  /\ translate "SELECT YEAR(MAX(d)) FROM t"
     = Returned (js "SELECT CAST(strftime('%Y', MAX(d) AS INTEGER)) FROM t")
  /\ translate "SELECT CONCAT(UPPER(a), b) FROM t"
     = Returned (js "SELECT UPPER(a, b) FROM t").
Proof.
  split; [|split; vm_compute; reflexivity].
  eexists. split; [vm_compute; reflexivity|].
  split; [reflexivity | discriminate].
Qed.

(** C7, as the code has it: [translate("SELECT CONCAT(a,' ',b) FROM t")]
    contains [a || ' ' || b] and no [CONCAT]; and for every non-empty list
    [l] of arguments that contain no comma, closing parenthesis or line
    break, the [CONCAT] rule rewrites the call of [l] to the same
    arguments, in number and order, joined with [||]. *)
Theorem concat_joins_arguments (l : list str) (tail : str) :
  l <> [] ->
  forallb (forallb arg_char) l = true ->
  translate "SELECT CONCAT(a,' ',b) FROM t"
    = Returned (js "SELECT a || ' ' || b FROM t")
  /\ includes (js "SELECT a || ' ' || b FROM t") (js "a || ' ' || b") = true
  /\ includes (js "SELECT a || ' ' || b FROM t") (js "CONCAT") = false
  /\ apply_mapping (js "CONCAT(" ++ join (js ",") l ++ ")"%char :: tail)
       (mapping_at 0)
     = join (js " || ") l
       ++ scan (call1 "CONCAT") (Callback concat_args) (Some ")"%char) tail 0.
Proof.
  intros Hne Hl.
  split; [vm_compute; reflexivity|].
  split; [vm_compute; reflexivity|].
  split; [vm_compute; reflexivity|].
  unfold apply_mapping, mapping_at. cbn [nth functionMappings regex replacement].
  unfold replace_all.
  change (js "CONCAT(" ++ join (js ",") l ++ ")"%char :: tail)
    with (js "CONCAT" ++ "("%char :: join (js ",") l ++ ")"%char :: tail).
  rewrite replace_call1 by (apply join_args_plain, Hl).
  cbn [substitute]. unfold concat_args. cbn [group capture Nat.eqb].
  rewrite (split_join_args l Hne Hl). reflexivity.
Qed.

Lemma concat_joins_arguments_witness :
  apply_mapping (js "CONCAT(a,' ',b) FROM t") (mapping_at 0)
  = js "a || ' ' || b FROM t".
Proof.
  pose proof (concat_joins_arguments [js "a"; js "' '"; js "b"] (js " FROM t"))
    as H.
  destruct H as (_ & _ & _ & H); [discriminate | reflexivity |].
  exact H.
Defined.

(** C7 at [CONCAT('a,b', c)]: the rule splits the captured text at every
    comma, the one inside the quoted first argument included, so that the
    call of two arguments is rewritten to three operands and the first
    argument is not in the output. *)
Lemma concat_splits_quoted_argument :
  apply_mapping (js "CONCAT('a,b', c)") (mapping_at 0) = js "'a || b' ||  c"
  /\ js "'a || b' ||  c" <> join (js " || ") [js "'a,b'"; js " c"]
  /\ translate "SELECT CONCAT('a,b', c) FROM t"
     = Returned (js "SELECT 'a || b' || c FROM t")
  /\ includes (js "SELECT 'a || b' || c FROM t") (js "'a,b'") = false.
Proof.
  split; [vm_compute; reflexivity|].
  split; [discriminate|].
  split; vm_compute; reflexivity.
Qed.

(** C8: with the closing [");"] at the end of the last column line, that
    column is dropped and the line before it keeps its comma. *)
Theorem closing_paren_on_column_line :
  translate ("CREATE TABLE t (" ++ nl ++ "id INT(11)," ++ nl
             ++ "name VARCHAR(20));")
    = Returned (js ("CREATE TABLE t (" ++ nl ++ "    id INTEGER," ++ nl
                    ++ "    );")).
Proof. vm_compute; reflexivity. Qed.

(** C9: a statement that contains [WITH ROLLUP] and whose output has
    neither the marker nor a warning: the table formatter keeps only the
    name of the header line, and the check for [WITH ROLLUP] reads what
    the formatter has left. *)
Theorem rollup_lost_before_check :
  includes (js "CREATE TABLE t AS SELECT a FROM u GROUP BY a WITH ROLLUP")
           rollup = true
  /\ mysqlToSQLiteParser_console
       (js "CREATE TABLE t AS SELECT a FROM u GROUP BY a WITH ROLLUP")
     = ([], Returned (js "CREATE TABLE t ("))
  /\ includes (js "CREATE TABLE t (") rollup_marker = false.
Proof. repeat split; vm_compute; reflexivity. Qed.

(** C10: a statement that spells the mapped type [int(11)] in lower case
    and whose output has lost it.  The rules leave the lower-case
    spelling as it is, and rewrite [auto_increment]; the table formatter
    then takes the line, which ends in [);], for the closing line and
    writes [    );] in its place. *)
Theorem lower_case_type_lost_on_closing_line :
  apply_mappings functionMappings (js "create table t (a int(11));")
  = js "create table t (a int(11));"
  /\ translate "create table t (a int(11));" = Returned (js "    );")
  /\ includes (js "    );") (js "int(11)") = false
  /\ apply_mappings functionMappings
       (js "create table t (id int auto_increment);")
     = js "create table t (id int PRIMARY KEY AUTOINCREMENT);"
  /\ translate "create table t (id int auto_increment);"
     = Returned (js "    );").
Proof. repeat split; vm_compute; reflexivity. Qed.

End Claims.

(* ================================================================== *)
(** ** Further properties of the translator *)

Module Properties.
Import Chars Js Regex Parser Analysis Shapes.
Import StringFacts RegexFacts ParserFacts RunFacts RuleFacts LineFacts CleanupFacts WordRuleFacts
  SparseFacts SqueezeFacts OccurrenceFacts SecondPassFacts LowerCaseFacts AutoIncrementFacts.

(** *** The rules of functionMappings *)

(** X1: the one-argument rules other than [CONCAT] and [YEAR]: for
    an argument without a closing parenthesis or a line break,
    [SUBSTRING(a)] becomes [substr(a)], [MONTH(a)] and [DAY(a)] become
    [CAST(strftime('%m', a) AS INTEGER)] and the same with [%d],
    [CEIL(a)] becomes [CAST(ROUND(a + 0.5) AS INTEGER)] and [FLOOR(a)]
    becomes [CAST(a AS INTEGER)]. *)
Theorem single_argument_rules (a tail : str) :
  forallb plain_char a = true ->
  apply_mapping (js "SUBSTRING(" ++ a ++ js ")" ++ tail) (mapping_at 1)
  = js "substr(" ++ a ++ js ")" ++ apply_mapping tail (mapping_at 1)
  /\ apply_mapping (js "MONTH(" ++ a ++ js ")" ++ tail) (mapping_at 7)
     = js "CAST(strftime('%m', " ++ a ++ js ") AS INTEGER)"
       ++ apply_mapping tail (mapping_at 7)
  /\ apply_mapping (js "DAY(" ++ a ++ js ")" ++ tail) (mapping_at 8)
     = js "CAST(strftime('%d', " ++ a ++ js ") AS INTEGER)"
       ++ apply_mapping tail (mapping_at 8)
  /\ apply_mapping (js "CEIL(" ++ a ++ js ")" ++ tail) (mapping_at 10)
     = js "CAST(ROUND(" ++ a ++ js " + 0.5) AS INTEGER)"
       ++ apply_mapping tail (mapping_at 10)
  /\ apply_mapping (js "FLOOR(" ++ a ++ js ")" ++ tail) (mapping_at 11)
     = js "CAST(" ++ a ++ js " AS INTEGER)"
       ++ apply_mapping tail (mapping_at 11).
Proof.
  intro Ha.
  repeat split; unfold apply_mapping, mapping_at, replace_all;
    cbn [nth functionMappings regex replacement].
  - change (js "SUBSTRING(" ++ a ++ js ")" ++ tail)
      with (js "SUBSTRING" ++ "("%char :: a ++ ")"%char :: tail).
    rewrite (replace_call1 _ _ _ _ _ Ha).
    rewrite (scan_after_nonword _ _ ")"%char _ eq_refl).
    set (rest := replace_all _ _ tail). cbn. norm_app. reflexivity.
  - change (js "MONTH(" ++ a ++ js ")" ++ tail)
      with (js "MONTH" ++ "("%char :: a ++ ")"%char :: tail).
    rewrite (replace_call1 _ _ _ _ _ Ha).
    rewrite (scan_after_nonword _ _ ")"%char _ eq_refl).
    set (rest := replace_all _ _ tail). cbn. norm_app. reflexivity.
  - change (js "DAY(" ++ a ++ js ")" ++ tail)
      with (js "DAY" ++ "("%char :: a ++ ")"%char :: tail).
    rewrite (replace_call1 _ _ _ _ _ Ha).
    rewrite (scan_after_nonword _ _ ")"%char _ eq_refl).
    set (rest := replace_all _ _ tail). cbn. norm_app. reflexivity.
  - change (js "CEIL(" ++ a ++ js ")" ++ tail)
      with (js "CEIL" ++ "("%char :: a ++ ")"%char :: tail).
    rewrite (replace_call1 _ _ _ _ _ Ha).
    rewrite (scan_after_nonword _ _ ")"%char _ eq_refl).
    set (rest := replace_all _ _ tail). cbn. norm_app. reflexivity.
  - change (js "FLOOR(" ++ a ++ js ")" ++ tail)
      with (js "FLOOR" ++ "("%char :: a ++ ")"%char :: tail).
    rewrite (replace_call1 _ _ _ _ _ Ha).
    rewrite (scan_after_nonword _ _ ")"%char _ eq_refl).
    set (rest := replace_all _ _ tail). cbn. norm_app. reflexivity.
Qed.

Lemma single_argument_rules_witness :
  apply_mapping (js "FLOOR(x / 2) FROM t") (mapping_at 11)
  = js "CAST(x / 2 AS INTEGER)" ++ apply_mapping (js " FROM t") (mapping_at 11).
Proof.
  exact (proj2 (proj2 (proj2 (proj2
    (single_argument_rules (js "x / 2") (js " FROM t") eq_refl))))).
Defined.

(** X2: the two-argument rules keep both arguments, in order: for
    arguments without a comma, a closing parenthesis or a line break,
    [DATEDIFF(a,b)] becomes [CAST((JULIANDAY(a) - JULIANDAY(b)) AS INTEGER)],
    [MOD(a,b)] becomes [(a % b)], [IFNULL(a,b)] becomes [COALESCE(a, b)]
    and [NULLIF(a,b)] becomes [CASE WHEN a = b THEN NULL ELSE a END], and
    the rule goes on with the text after the call. *)
Theorem two_argument_rules (a b tail : str) :
  forallb arg_char a = true -> forallb arg_char b = true ->
  apply_mapping (js "DATEDIFF(" ++ a ++ js "," ++ b ++ js ")" ++ tail)
    (mapping_at 5)
  = js "CAST((JULIANDAY(" ++ a ++ js ") - JULIANDAY(" ++ b
    ++ js ")) AS INTEGER)" ++ apply_mapping tail (mapping_at 5)
  /\ apply_mapping (js "MOD(" ++ a ++ js "," ++ b ++ js ")" ++ tail)
       (mapping_at 13)
     = js "(" ++ a ++ js " % " ++ b ++ js ")"
       ++ apply_mapping tail (mapping_at 13)
  /\ apply_mapping (js "IFNULL(" ++ a ++ js "," ++ b ++ js ")" ++ tail)
       (mapping_at 15)
     = js "COALESCE(" ++ a ++ js ", " ++ b ++ js ")"
       ++ apply_mapping tail (mapping_at 15)
  /\ apply_mapping (js "NULLIF(" ++ a ++ js "," ++ b ++ js ")" ++ tail)
       (mapping_at 17)
     = js "CASE WHEN " ++ a ++ js " = " ++ b ++ js " THEN NULL ELSE " ++ a
       ++ js " END" ++ apply_mapping tail (mapping_at 17).
Proof.
  intros Ha Hb.
  repeat split; unfold apply_mapping, mapping_at;
    cbn [nth functionMappings regex replacement].
  - change (js "DATEDIFF(" ++ a ++ js "," ++ b ++ js ")" ++ tail)
      with (js "DATEDIFF" ++ "("%char :: a ++ ","%char :: b ++ ")"%char :: tail).
    rewrite (replace_call2 _ _ _ _ _ Ha Hb).
    set (rest := replace_all _ _ tail). cbn. norm_app. reflexivity.
  - change (js "MOD(" ++ a ++ js "," ++ b ++ js ")" ++ tail)
      with (js "MOD" ++ "("%char :: a ++ ","%char :: b ++ ")"%char :: tail).
    rewrite (replace_call2 _ _ _ _ _ Ha Hb).
    set (rest := replace_all _ _ tail). cbn. norm_app. reflexivity.
  - change (js "IFNULL(" ++ a ++ js "," ++ b ++ js ")" ++ tail)
      with (js "IFNULL" ++ "("%char :: a ++ ","%char :: b ++ ")"%char :: tail).
    rewrite (replace_call2 _ _ _ _ _ Ha Hb).
    set (rest := replace_all _ _ tail). cbn. norm_app. reflexivity.
  - change (js "NULLIF(" ++ a ++ js "," ++ b ++ js ")" ++ tail)
      with (js "NULLIF" ++ "("%char :: a ++ ","%char :: b ++ ")"%char :: tail).
    rewrite (replace_call2 _ _ _ _ _ Ha Hb).
    set (rest := replace_all _ _ tail). cbn. norm_app. reflexivity.
Qed.

Lemma two_argument_rules_witness :
  apply_mapping (js "IFNULL(x,0) FROM t") (mapping_at 15)
  = js "COALESCE(x, 0)" ++ apply_mapping (js " FROM t") (mapping_at 15).
Proof.
  exact (proj1 (proj2 (proj2
    (two_argument_rules (js "x") (js "0") (js " FROM t") eq_refl eq_refl)))).
Defined.

(** X3: [IF(c,a,b)] becomes [CASE WHEN c THEN a ELSE b END] for
    arguments without a comma, a closing parenthesis or a line break. *)
Theorem if_rule (c a b tail : str) :
  forallb arg_char c = true -> forallb arg_char a = true ->
  forallb arg_char b = true ->
  apply_mapping
    (js "IF(" ++ c ++ js "," ++ a ++ js "," ++ b ++ js ")" ++ tail)
    (mapping_at 16)
  = js "CASE WHEN " ++ c ++ js " THEN " ++ a ++ js " ELSE " ++ b ++ js " END"
    ++ apply_mapping tail (mapping_at 16).
Proof.
  intros Hc Ha Hb. unfold apply_mapping, mapping_at.
  cbn [nth functionMappings regex replacement].
  change (js "IF(" ++ c ++ js "," ++ a ++ js "," ++ b ++ js ")" ++ tail)
    with (js "IF" ++ "("%char :: c ++ ","%char :: a ++ ","%char :: b
          ++ ")"%char :: tail).
  rewrite (replace_call3 _ _ _ _ _ _ Hc Ha Hb).
  set (rest := replace_all _ _ tail). cbn. norm_app. reflexivity.
Qed.

Lemma if_rule_witness :
  apply_mapping (js "IF(a>0,b,c) FROM t") (mapping_at 16)
  = js "CASE WHEN a>0 THEN b ELSE c END"
    ++ apply_mapping (js " FROM t") (mapping_at 16).
Proof.
  exact (if_rule (js "a>0") (js "b") (js "c") (js " FROM t")
           eq_refl eq_refl eq_refl).
Defined.

(** X4: [DATE_ADD(a, INTERVAL n DAY)] becomes [DATETIME(a, '+n DAY')]
    and [DATE_SUB] the same with [-], for a number [n] of one or more
    digits and any white space around [INTERVAL n]; the white space
    is not kept. *)
Theorem day_interval_rules (a w1 w2 n w3 tail : str) :
  forallb arg_char a = true ->
  forallb is_space w1 = true -> forallb is_space w2 = true ->
  forallb is_space w3 = true ->
  n <> [] -> forallb is_digit n = true ->
  apply_mapping
    (js "DATE_ADD(" ++ a ++ js "," ++ w1 ++ js "INTERVAL" ++ w2 ++ n ++ w3
     ++ js "DAY)" ++ tail) (mapping_at 3)
  = js "DATETIME(" ++ a ++ js ", '+" ++ n ++ js " DAY')"
    ++ apply_mapping tail (mapping_at 3)
  /\ apply_mapping
       (js "DATE_SUB(" ++ a ++ js "," ++ w1 ++ js "INTERVAL" ++ w2 ++ n ++ w3
        ++ js "DAY)" ++ tail) (mapping_at 4)
     = js "DATETIME(" ++ a ++ js ", '-" ++ n ++ js " DAY')"
       ++ apply_mapping tail (mapping_at 4).
Proof.
  intros Ha H1 H2 H3 Hne Hn. destruct n as [|d n]; [congruence|].
  simpl in Hn. apply andb_true_iff in Hn. destruct Hn as [Hd Hn].
  split; unfold apply_mapping, mapping_at;
    cbn [nth functionMappings regex replacement].
  - pose proof (exec_call_interval "DATE_ADD" None a w1 w2 d n w3 tail
                  Ha H1 H2 H3 Hd Hn) as He.
    set (m := js "DATE_ADD" ++ "("%char :: a ++ ","%char :: w1 ++ js "INTERVAL"
              ++ w2 ++ (d :: n) ++ w3 ++ js "DAY") in *.
    assert (E : js "DATE_ADD(" ++ a ++ js "," ++ w1 ++ js "INTERVAL" ++ w2
                ++ (d :: n) ++ w3 ++ js "DAY)" ++ tail
                = (m ++ [")"%char]) ++ tail).
    { subst m. cbn [js list_ascii_of_string]. norm_app. reflexivity. }
    assert (E' : js "DATE_ADD" ++ "("%char :: a ++ ","%char :: w1
                 ++ js "INTERVAL" ++ w2 ++ (d :: n) ++ w3 ++ js "DAY"
                 ++ ")"%char :: tail = (m ++ [")"%char]) ++ tail).
    { subst m. cbn [js list_ascii_of_string]. norm_app. reflexivity. }
    rewrite E' in He. rewrite E.
    rewrite (replace_at_start _ _ _ _ _ ")"%char _
               (snoc_not_nil m _) (last_char_snoc m _ _) eq_refl He).
    set (rest := replace_all _ _ tail). cbn. norm_app. reflexivity.
  - pose proof (exec_call_interval "DATE_SUB" None a w1 w2 d n w3 tail
                  Ha H1 H2 H3 Hd Hn) as He.
    set (m := js "DATE_SUB" ++ "("%char :: a ++ ","%char :: w1 ++ js "INTERVAL"
              ++ w2 ++ (d :: n) ++ w3 ++ js "DAY") in *.
    assert (E : js "DATE_SUB(" ++ a ++ js "," ++ w1 ++ js "INTERVAL" ++ w2
                ++ (d :: n) ++ w3 ++ js "DAY)" ++ tail
                = (m ++ [")"%char]) ++ tail).
    { subst m. cbn [js list_ascii_of_string]. norm_app. reflexivity. }
    assert (E' : js "DATE_SUB" ++ "("%char :: a ++ ","%char :: w1
                 ++ js "INTERVAL" ++ w2 ++ (d :: n) ++ w3 ++ js "DAY"
                 ++ ")"%char :: tail = (m ++ [")"%char]) ++ tail).
    { subst m. cbn [js list_ascii_of_string]. norm_app. reflexivity. }
    rewrite E' in He. rewrite E.
    rewrite (replace_at_start _ _ _ _ _ ")"%char _
               (snoc_not_nil m _) (last_char_snoc m _ _) eq_refl He).
    set (rest := replace_all _ _ tail). cbn. norm_app. reflexivity.
Qed.

Lemma day_interval_rules_witness :
  apply_mapping (js "DATE_ADD(d, INTERVAL 7 DAY) FROM t") (mapping_at 3)
  = js "DATETIME(d, '+7 DAY')" ++ apply_mapping (js " FROM t") (mapping_at 3).
Proof.
  assert (Hn : js "7" <> []) by discriminate.
  exact (proj1 (day_interval_rules (js "d") (js " ") (js " ") (js "7") (js " ")
                  (js " FROM t") eq_refl eq_refl eq_refl eq_refl Hn eq_refl)).
Defined.

(** X5: the [DAY] rule has no word boundary: it rewrites the [DAY(]
    at the end of [JULIANDAY(], which is what the [DATEDIFF] rule
    writes. *)
Theorem day_rule_inside_julianday (a tail : str) :
  forallb plain_char a = true ->
  apply_mapping (js "JULIANDAY(" ++ a ++ js ")" ++ tail) (mapping_at 8)
  = js "JULIANCAST(strftime('%d', " ++ a ++ js ") AS INTEGER)"
    ++ apply_mapping tail (mapping_at 8).
Proof.
  intro Ha. unfold apply_mapping, mapping_at.
  cbn [nth functionMappings regex replacement]. unfold replace_all at 1.
  change (js "JULIANDAY(" ++ a ++ js ")" ++ tail)
    with ("J"%char :: "U"%char :: "L"%char :: "I"%char :: "A"%char :: "N"%char
          :: js "DAY" ++ "("%char :: a ++ ")"%char :: tail).
  do 6 (rewrite scan_step_none by reflexivity).
  rewrite (replace_call1 _ _ _ _ _ Ha).
  rewrite (scan_after_nonword _ _ ")"%char _ eq_refl).
  set (rest := replace_all _ _ tail). cbn. norm_app. reflexivity.
Qed.

Lemma day_rule_inside_julianday_witness :
  apply_mapping (js "JULIANDAY(a) FROM t") (mapping_at 8)
  = js "JULIANCAST(strftime('%d', a) AS INTEGER)"
    ++ apply_mapping (js " FROM t") (mapping_at 8).
Proof.
  exact (day_rule_inside_julianday (js "a") (js " FROM t") eq_refl).
Defined.

(** X6: the rules for the function names that SQLite shares
    ([LENGTH], [UPPER], ..., and [POW], [ABS], [SQRT]) replace a match
    [NAME(] by [$1(], which is the match: they change no statement. *)
Theorem named_function_rules_change_nothing (x : str) :
  apply_mapping x (mapping_at 2) = x /\ apply_mapping x (mapping_at 12) = x.
Proof.
  split; unfold apply_mapping, mapping_at, replace_all;
    cbn [nth functionMappings regex replacement];
    rewrite (scan_writes_back _ _ (call_named_writes_back _)); reflexivity.
Qed.

(** X7: the rules without a capture: [NOW()] becomes
    [DATETIME('now')] and [RAND()] the random expression, whatever
    follows; [TIMESTAMP] and [BINARY] become [DATETIME] and [BLOB] when
    the word ends there. *)
Theorem constant_rules (tail : str) :
  apply_mapping (js "NOW()" ++ tail) (mapping_at 9)
  = js "DATETIME('now')" ++ apply_mapping tail (mapping_at 9)
  /\ apply_mapping (js "RAND()" ++ tail) (mapping_at 14)
     = js "(ABS(RANDOM()) % 1000000 + 1) / 1000000.0"
       ++ apply_mapping tail (mapping_at 14)
  /\ (stops is_word tail = true ->
      apply_mapping (js "TIMESTAMP" ++ tail) (mapping_at 21)
      = js "DATETIME" ++ apply_mapping tail (mapping_at 21)
      /\ apply_mapping (js "BINARY" ++ tail) (mapping_at 22)
         = js "BLOB" ++ apply_mapping tail (mapping_at 22)).
Proof.
  split; [|split].
  - unfold apply_mapping.
    assert (He : exec (regex (mapping_at 9)) None (js "NOW()" ++ tail)
                 = Some (MState (Some ")"%char) tail [])) by reflexivity.
    rewrite (replace_at_start _ _ (js "NOW()") tail [] ")"%char _
               ltac:(discriminate) eq_refl eq_refl He).
    reflexivity.
  - unfold apply_mapping.
    assert (He : exec (regex (mapping_at 14)) None (js "RAND()" ++ tail)
                 = Some (MState (Some ")"%char) tail [])) by reflexivity.
    rewrite (replace_at_start _ _ (js "RAND()") tail [] ")"%char _
               ltac:(discriminate) eq_refl eq_refl He).
    reflexivity.
  - intro Ht. pose proof (stops_word_hd tail Ht) as Hb.
    split; unfold apply_mapping; unfold replace_all at 1.
    + assert (He : exec (regex (mapping_at 21)) None (js "TIMESTAMP" ++ tail)
                   = Some (MState (Some "P"%char) tail [])).
      { unfold mapping_at. cbn [nth functionMappings regex]. unfold exec.
        cbn. rewrite Hb. reflexivity. }
      assert (Hm : js "TIMESTAMP" <> []) by discriminate.
      rewrite (scan_at_match _ _ _ _ _ _ _ Hm He).
      rewrite (scan_from_nonword _ _ timestamp_rule_nonword timestamp_rule_nil)
        by exact Ht.
      reflexivity.
    + assert (He : exec (regex (mapping_at 22)) None (js "BINARY" ++ tail)
                   = Some (MState (Some "Y"%char) tail [])).
      { unfold mapping_at. cbn [nth functionMappings regex]. unfold exec.
        cbn. rewrite Hb. reflexivity. }
      assert (Hm : js "BINARY" <> []) by discriminate.
      rewrite (scan_at_match _ _ _ _ _ _ _ Hm He).
      rewrite (scan_from_nonword _ _ binary_rule_nonword binary_rule_nil)
        by exact Ht.
      reflexivity.
Qed.

Lemma constant_rules_witness :
  apply_mapping (js "TIMESTAMP NOT NULL") (mapping_at 21)
  = js "DATETIME" ++ apply_mapping (js " NOT NULL") (mapping_at 21).
Proof.
  exact (proj1 (proj2 (proj2 (constant_rules (js " NOT NULL"))) eq_refl)).
Defined.

(** X8: a type with a width, or with a precision and a scale,
    becomes the bare target type: the integer types [INTEGER], the
    character types [TEXT], [DECIMAL], [FLOAT] and [DOUBLE] [REAL]. *)
Theorem parameterized_types (pre : string) (n m tail : str) :
  n <> [] -> forallb is_digit n = true ->
  m <> [] -> forallb is_digit m = true ->
  (In pre ["INT"; "TINYINT"; "SMALLINT"; "MEDIUMINT"; "BIGINT"]%string ->
   apply_mapping (js pre ++ js "(" ++ n ++ js ")" ++ tail) (mapping_at 18)
   = js "INTEGER" ++ apply_mapping tail (mapping_at 18))
  /\ (In pre ["CHAR"; "VARCHAR"; "TEXT"]%string ->
      apply_mapping (js pre ++ js "(" ++ n ++ js ")" ++ tail) (mapping_at 19)
      = js "TEXT" ++ apply_mapping tail (mapping_at 19))
  /\ (In pre ["DECIMAL"; "FLOAT"; "DOUBLE"]%string ->
      apply_mapping (js pre ++ js "(" ++ n ++ js "," ++ m ++ js ")" ++ tail)
        (mapping_at 20)
      = js "REAL" ++ apply_mapping tail (mapping_at 20)).
Proof.
  intros Hn0 Hn Hm0 Hm.
  destruct n as [|d n]; [congruence|]. destruct m as [|e m]; [congruence|].
  simpl in Hn, Hm. apply andb_true_iff in Hn, Hm.
  destruct Hn as [Hd Hn]. destruct Hm as [He Hm].
  unfold apply_mapping.
  split; [|split]; intro Hpre.
  - change (js pre ++ js "(" ++ (d :: n) ++ js ")" ++ tail)
      with (js pre ++ "("%char :: (d :: n) ++ ")"%char :: tail).
    rewrite (replace_type _ _ _ _ _ (exec_int_types pre d n tail Hpre Hd Hn)).
    reflexivity.
  - change (js pre ++ js "(" ++ (d :: n) ++ js ")" ++ tail)
      with (js pre ++ "("%char :: (d :: n) ++ ")"%char :: tail).
    rewrite (replace_type _ _ _ _ _ (exec_char_types pre d n tail Hpre Hd Hn)).
    reflexivity.
  - pose proof (exec_real_types pre d n e m tail Hpre Hd Hn He Hm) as Hx.
    replace (js pre ++ js "(" ++ (d :: n) ++ js "," ++ (e :: m) ++ js ")" ++ tail)
      with (js pre ++ "("%char :: ((d :: n) ++ ","%char :: e :: m)
            ++ ")"%char :: tail) by app_eq.
    replace (js pre ++ "("%char :: (d :: n) ++ ","%char :: (e :: m)
             ++ ")"%char :: tail)
      with (js pre ++ "("%char :: ((d :: n) ++ ","%char :: e :: m)
            ++ ")"%char :: tail) in Hx by app_eq.
    rewrite (replace_type _ _ _ _ _ Hx). reflexivity.
Qed.

Lemma parameterized_types_witness :
  apply_mapping (js "BIGINT(20) NOT NULL") (mapping_at 18)
  = js "INTEGER" ++ apply_mapping (js " NOT NULL") (mapping_at 18).
Proof.
  assert (Hn : js "20" <> []) by discriminate.
  assert (Hm : js "2" <> []) by discriminate.
  exact (proj1 (parameterized_types "BIGINT" (js "20") (js "2")
                  (js " NOT NULL") Hn eq_refl Hm eq_refl)
           (or_intror (or_intror (or_intror (or_intror (or_introl eq_refl)))))).
Defined.

(** X9: the function and type rules (the first twenty-one) rewrite
    parenthesised forms only: a statement without an opening parenthesis
    passes through them unchanged, so that a type written without a width
    keeps its name. *)
Theorem no_paren_no_function_rewrite (x : str) :
  has (eqc "("%char) x = false ->
  apply_mappings (firstn 21 functionMappings) x = x.
Proof. apply mappings_fixed, paren_rules_need_paren. Qed.

Lemma no_paren_no_function_rewrite_witness :
  apply_mappings (firstn 21 functionMappings) (js "id INT, name VARCHAR")
  = js "id INT, name VARCHAR".
Proof. apply no_paren_no_function_rewrite. reflexivity. Defined.

(** X10: [LEFT], [RIGHT] and [FULL] joins, with or without [OUTER],
    all become [LEFT JOIN] under the outer-join rule, at the start of the
    text or after a character that is not a word character. *)
Theorem outer_joins_become_left_join (kind : string) (ws outer tail : str) :
  In kind ["LEFT"; "RIGHT"; "FULL"]%string ->
  ws <> [] -> forallb is_space ws = true ->
  (outer = [] \/
   exists ws', ws' <> [] /\ forallb is_space ws' = true
               /\ outer = js "OUTER" ++ ws') ->
  stops is_word tail = true ->
  apply_mapping (js kind ++ ws ++ outer ++ js "JOIN" ++ tail) (mapping_at 23)
  = js "LEFT JOIN" ++ apply_mapping tail (mapping_at 23).
Proof. apply replace_outer_join. Qed.

Lemma outer_joins_become_left_join_witness :
  apply_mapping (js "RIGHT OUTER JOIN b") (mapping_at 23)
  = js "LEFT JOIN" ++ apply_mapping (js " b") (mapping_at 23).
Proof.
  assert (Hw : js " " <> []) by discriminate.
  apply (outer_joins_become_left_join "RIGHT" (js " ") (js "OUTER ") (js " b"));
    [simpl; tauto | exact Hw | reflexivity | | reflexivity].
  right. exists (js " "). repeat split. exact Hw.
Defined.

(** X11: the outer-join rule followed by the inner-join rule turns
    every outer join into [LEFT INNER JOIN]. *)
Theorem outer_joins_end_as_left_inner_join
  (kind : string) (ws outer tail : str) :
  In kind ["LEFT"; "RIGHT"; "FULL"]%string ->
  ws <> [] -> forallb is_space ws = true ->
  (outer = [] \/
   exists ws', ws' <> [] /\ forallb is_space ws' = true
               /\ outer = js "OUTER" ++ ws') ->
  stops is_word tail = true ->
  apply_mappings [mapping_at 23; mapping_at 24]
    (js kind ++ ws ++ outer ++ js "JOIN" ++ tail)
  = js "LEFT INNER JOIN"
    ++ apply_mappings [mapping_at 23; mapping_at 24] tail.
Proof.
  intros Hk Hw0 Hws Ho Ht. unfold apply_mappings. cbn [fold_left].
  unfold apply_mapping.
  rewrite (replace_outer_join kind ws outer tail Hk Hw0 Hws Ho Ht).
  apply replace_left_join, outer_join_rule_keeps_stop, Ht.
Qed.

Lemma outer_joins_end_as_left_inner_join_witness :
  apply_mappings [mapping_at 23; mapping_at 24] (js "FULL JOIN b")
  = js "LEFT INNER JOIN"
    ++ apply_mappings [mapping_at 23; mapping_at 24] (js " b").
Proof.
  assert (Hw : js " " <> []) by discriminate.
  apply (outer_joins_end_as_left_inner_join "FULL" (js " ") [] (js " b"));
    [simpl; tauto | exact Hw | reflexivity | left; reflexivity | reflexivity].
Defined.

(** *** handleGroupConcat *)

(** X12: [handleGroupConcat] changes the letter case of the function
    name and nothing else: its output and its input are equal up to letter
    case, and so of the same length. *)
Theorem handleGroupConcat_changes_case_only (sql : str) :
  toUpperCase (handleGroupConcat sql) = toUpperCase sql
  /\ length (handleGroupConcat sql) = length sql.
Proof.
  assert (H : toUpperCase (handleGroupConcat sql) = toUpperCase sql).
  { unfold handleGroupConcat.
    rewrite (replace_all_case_only _ _ _ group_concat_dot_case_only).
    apply (replace_all_case_only _ _ _ group_concat_case_only). }
  split; [exact H|].
  apply (f_equal (@length ascii)) in H. unfold toUpperCase in H.
  rewrite !length_map in H. exact H.
Qed.

(** *** formatSQL *)

(** X13: on the multi-line path [formatSQL] changes indentation and
    blank lines only: the trimmed non-empty lines of its output are those
    of its input. *)
Theorem formatSQL_keeps_lines (sql : str) :
  one_line_shape sql = false ->
  lines_of (formatSQL sql) = lines_of sql.
Proof.
  intro H. unfold formatSQL. unfold one_line_shape in H. rewrite H.
  apply lines_of_formatSQL_loop, lines_of_clean.
Qed.

Lemma formatSQL_keeps_lines_witness :
  lines_of (formatSQL (js ("SELECT a," ++ nl ++ "  b" ++ nl ++ nl ++ "FROM t")))
  = lines_of (js ("SELECT a," ++ nl ++ "  b" ++ nl ++ nl ++ "FROM t")).
Proof. apply formatSQL_keeps_lines. reflexivity. Defined.

(** X14: the indentation loop of [formatSQL]: every line is emitted
    as it is or behind four spaces, never deeper; a line that starts with
    a clause keyword is not indented, and neither is the first line. *)
Theorem formatSQL_indentation (sql : str) :
  Forall2 indented_as (formatSQL_loop (lines_of sql) 0) (lines_of sql)
  /\ hd_error (formatSQL_loop (lines_of sql) 0) = hd_error (lines_of sql).
Proof.
  split; [apply formatSQL_loop_indent; lia|].
  destruct (lines_of sql) as [|x xs]; [reflexivity|].
  cbn [formatSQL_loop hd_error]. destruct (starts_clause x); reflexivity.
Qed.

(** X15: on the one-line path [formatSQL] gives the compact form
    (single spaces between other characters, none at either end) and is
    idempotent. *)
Theorem formatSQL_one_line_compact (sql : str) :
  one_line_shape sql = true ->
  compact (formatSQL sql) = true
  /\ formatSQL (formatSQL sql) = formatSQL sql.
Proof.
  intro H.
  assert (Hc : compact (formatSQL sql) = true).
  { unfold formatSQL. unfold one_line_shape in H. rewrite H.
    apply squeezed_compact. }
  split; [exact Hc|apply formatSQL_compact, Hc].
Qed.

Lemma formatSQL_one_line_compact_witness :
  compact (formatSQL (js "  SELECT   a  FROM t ")) = true
  /\ formatSQL (formatSQL (js "  SELECT   a  FROM t "))
     = formatSQL (js "  SELECT   a  FROM t ").
Proof. apply formatSQL_one_line_compact. reflexivity. Defined.

(** *** formatCreateTable *)

(** X16: the removal of the trailing comma takes the final comma of
    a line away and leaves a line alone that ends with another character
    (not white space, as in every trimmed line). *)
Theorem strip_comma_final (l : str) (e : ascii) :
  strip_comma (l ++ js ",") = l
  /\ (is_space e = false -> eqc ","%char e = false ->
      strip_comma (l ++ [e]) = l ++ [e]).
Proof.
  split.
  - apply strip_from_final_comma.
  - intros He Hc. apply strip_from_no_comma; assumption.
Qed.

Lemma strip_comma_final_witness :
  strip_comma (js "name TEXT") = js "name TEXT".
Proof.
  exact (proj2 (strip_comma_final (js "name TEX") "T"%char) eq_refl eq_refl).
Defined.

(** X17: of the header line only the table name is kept: whatever
    follows the name on that line, the opening parenthesis and column
    definitions included, is replaced by [ (]. *)
Theorem header_keeps_name_only (ws name after : str) :
  ws <> [] -> forallb is_space ws = true ->
  name <> [] -> forallb is_word name = true ->
  stops is_word after = true ->
  clean_line (js "CREATE TABLE" ++ ws ++ name ++ after) = true ->
  formatCreateTable (js "CREATE TABLE" ++ ws ++ name ++ after)
  = Returned (js "CREATE TABLE " ++ name ++ js " (").
Proof.
  intros Hw0 Hw Hn0 Hn Ha Hh. unfold formatCreateTable.
  change (js "CREATE TABLE" ++ ws ++ name ++ after)
    with (join [newline] [js "CREATE TABLE" ++ ws ++ name ++ after]) at 1 2.
  rewrite lines_of_join by (cbn [forallb]; rewrite Hh; reflexivity).
  cbn [formatCreateTable_loop]. rewrite startsWith_app.
  rewrite (header_search ws name after) by assumption. reflexivity.
Qed.

Lemma header_keeps_name_only_witness :
  formatCreateTable (js "CREATE TABLE t (id INT, name TEXT);")
  = Returned (js "CREATE TABLE t (").
Proof.
  assert (Hw : js " " <> []) by discriminate.
  assert (Hn : js "t" <> []) by discriminate.
  exact (header_keeps_name_only (js " ") (js "t") (js " (id INT, name TEXT);")
           Hw eq_refl Hn eq_refl eq_refl eq_refl).
Defined.

(** X18: the layout of a table definition written line by line: the
    header is reduced to the name, every column line is put behind four
    spaces with exactly one comma after all but the last, and the closing
    line becomes [    );]. *)
Theorem table_layout (ws name after : str) (cols : list str) (cl : str) :
  ws <> [] -> forallb is_space ws = true ->
  name <> [] -> forallb is_word name = true ->
  stops is_word after = true ->
  clean_line (js "CREATE TABLE" ++ ws ++ name ++ after) = true ->
  forallb column_line cols = true ->
  closing_line cl = true ->
  last_is_new cols = true ->
  formatCreateTable
    (join [newline]
       ((js "CREATE TABLE" ++ ws ++ name ++ after) :: cols ++ [cl]))
  = Returned
      (join [newline]
         ((js "CREATE TABLE " ++ name ++ js " (")
          :: columns cols ++ [js "    );"])).
Proof. apply formatCreateTable_lines. Qed.

Lemma table_layout_witness :
  formatCreateTable
    (js ("CREATE TABLE t (" ++ nl ++ "id INTEGER," ++ nl ++ "name TEXT,"
         ++ nl ++ ");"))
  = Returned
      (js ("CREATE TABLE t (" ++ nl ++ "    id INTEGER," ++ nl
           ++ "    name TEXT" ++ nl ++ "    );")).
Proof.
  assert (Hw : js " " <> []) by discriminate.
  assert (Hn : js "t" <> []) by discriminate.
  exact (table_layout (js " ") (js "t") (js " (")
           [js "id INTEGER,"; js "name TEXT,"] (js ");")
           Hw eq_refl Hn eq_refl eq_refl eq_refl eq_refl eq_refl eq_refl).
Defined.

(** X19: a well-formed table definition, with a comma at the end of
    every column line but the last, is only re-indented. *)
Theorem well_formed_table_reindented
  (ws name after : str) (init : list str) (lst : str) (e : ascii) (cl : str) :
  let cols := map (fun c => c ++ js ",") init ++ [lst ++ [e]] in
  ws <> [] -> forallb is_space ws = true ->
  name <> [] -> forallb is_word name = true ->
  stops is_word after = true ->
  clean_line (js "CREATE TABLE" ++ ws ++ name ++ after) = true ->
  forallb column_line cols = true ->
  closing_line cl = true ->
  is_space e = false -> eqc ","%char e = false ->
  formatCreateTable
    (join [newline]
       ((js "CREATE TABLE" ++ ws ++ name ++ after) :: cols ++ [cl]))
  = Returned
      (join [newline]
         ((js "CREATE TABLE " ++ name ++ js " (")
          :: map (app (js "    ")) cols ++ [js "    );"])).
Proof.
  intros cols Hw0 Hw Hn0 Hn Ha Hh Hc Hcl He Hcomma. subst cols.
  unfold str in *.
  rewrite <- (columns_well_formed e He Hcomma init lst).
  apply formatCreateTable_lines; try assumption.
  unfold last_is_new. rewrite rev_app_distr. cbn [rev app].
  apply negb_true_iff. apply not_true_is_false. intro H.
  apply existsb_exists in H. destruct H as (x & Hx & Ex).
  apply str_eqb_eq in Ex. subst x. apply in_rev in Hx.
  apply in_map_iff in Hx. destruct Hx as (y & Ey & _).
  apply (f_equal (@rev ascii)) in Ey.
  rewrite !rev_app_distr in Ey. cbn [rev app js list_ascii_of_string] in Ey.
  injection Ey as Ey _. subst e. unfold eqc in Hcomma.
  rewrite Ascii.eqb_refl in Hcomma. discriminate.
Qed.

Lemma well_formed_table_reindented_witness :
  formatCreateTable
    (js ("CREATE TABLE t (" ++ nl ++ "id INTEGER," ++ nl ++ "name TEXT"
         ++ nl ++ ");"))
  = Returned
      (js ("CREATE TABLE t (" ++ nl ++ "    id INTEGER," ++ nl
           ++ "    name TEXT" ++ nl ++ "    );")).
Proof.
  assert (Hw : js " " <> []) by discriminate.
  assert (Hn : js "t" <> []) by discriminate.
  exact (well_formed_table_reindented (js " ") (js "t") (js " (")
           [js "id INTEGER"] (js "name TEX") "T"%char (js ");")
           Hw eq_refl Hn eq_refl eq_refl eq_refl eq_refl eq_refl
           eq_refl eq_refl).
Defined.

(** *** mysqlToSQLiteParser *)

(** X20: the first cleanup step removes a table option with its
    value: [ENGINE=], [DEFAULT CHARSET=] or [COLLATE=] followed by one
    or more word characters. *)
Theorem table_options_removed (key : string) (w tail : str) :
  In key ["ENGINE="; "DEFAULT CHARSET="; "COLLATE="]%string ->
  w <> [] -> forallb is_word w = true -> stops is_word tail = true ->
  replace_all re_table_options (Template []) (js key ++ w ++ tail)
  = replace_all re_table_options (Template []) tail.
Proof.
  intros Hk Hne Hw Ht. destruct w as [|c w]; [congruence|].
  simpl in Hw. apply andb_true_iff in Hw. destruct Hw as [Hc Hw].
  pose proof (exec_table_option key c w tail Hk Hc Hw Ht) as He.
  assert (Hm : js key ++ c :: w <> []) by (destruct (js key); discriminate).
  unfold replace_all at 1.
  replace (js key ++ (c :: w) ++ tail) with ((js key ++ c :: w) ++ tail) in *
    by (rewrite <- app_assoc; reflexivity).
  rewrite (scan_at_match _ _ _ _ _ _ _ Hm He).
  rewrite (scan_from_nonword _ _ table_options_nonword table_options_nil)
    by exact Ht.
  reflexivity.
Qed.

Lemma table_options_removed_witness :
  replace_all re_table_options (Template []) (js "ENGINE=InnoDB;")
  = replace_all re_table_options (Template []) (js ";").
Proof.
  exact (table_options_removed "ENGINE=" (js "InnoDB") (js ";")
           (or_introl eq_refl) ltac:(discriminate) eq_refl eq_refl).
Defined.

(** X24: the last step of [mysqlToSQLiteParser]: in what it returns
    [WITH ROLLUP] occurs only inside marker comments; when the statement
    it reads contains [WITH ROLLUP], the result contains the marker and
    one warning is written, and otherwise the statement is returned as it
    is and nothing is written. *)
Theorem last_step_marks_rollup (q : str) :
  (forall i, occurs_at rollup (snd (warn_rollup q)) i ->
             inside_marker (snd (warn_rollup q)) i)
  /\ (includes q rollup = true ->
      includes (snd (warn_rollup q)) rollup_marker = true
      /\ fst (warn_rollup q) = [rollup_warning])
  /\ (includes q rollup = false -> warn_rollup q = ([], q)).
Proof.
  unfold warn_rollup. destruct (includes q rollup) eqn:E; cbn [snd fst].
  - split; [|split].
    + intros i. apply (rollup_scan_safe (length q) q None i (le_n _)).
    + intros _. split; [|reflexivity].
      exact (scan_lit_includes rollup rollup_marker rollup_not_empty q None E).
    + discriminate.
  - split; [|split].
    + intros i Hi. unfold occurs_at in Hi.
      rewrite no_occurrence in Hi by exact E. discriminate.
    + discriminate.
    + reflexivity.
Qed.

(** X21: the cleanup steps leave no tab in the statement and no white
    space at either end of it, so that trimming again changes nothing. *)
Theorem cleanup_normalises (q : str) :
  forallb not_tab (cleanup q) = true
  /\ no_edge_space (cleanup q) = true
  /\ trim (cleanup q) = cleanup q.
Proof.
  split; [|split].
  - unfold cleanup. apply forallb_trim. unfold replace_all.
    apply scan_forallb; [intros; reflexivity|].
    unfold re_blanks, blank_class.
    change (tpl " ") with (Template [space]).
    rewrite (scan_squeeze is_blank (length (scan re_table_options (Template []) None q 0)))
      by lia.
    apply squeeze_blank_no_tab.
  - apply trim_no_edge_space.
  - apply trim_idempotent.
Qed.

(** X22: a statement of white space only, the empty statement
    included, translates to the empty statement. *)
Theorem blank_statement_translates_to_empty (x : str) :
  forallb is_space x = true ->
  mysqlToSQLiteParser x = Returned [].
Proof.
  intro H. unfold mysqlToSQLiteParser, mysqlToSQLiteParser_console, rewritten.
  rewrite (mappings_fixed not_space functionMappings x rules_need_text
             (all_space_has_no_text x H)).
  rewrite (cleanup_all_space x H). reflexivity.
Qed.

Lemma blank_statement_translates_to_empty_witness :
  mysqlToSQLiteParser (js (" " ++ nl ++ "  ")) = Returned [].
Proof. apply blank_statement_translates_to_empty. reflexivity. Defined.

(** X23: [mysqlToSQLiteParser] throws exactly when the rewritten and
    cleaned statement starts with [create table] in any letter case and
    one of its lines starts with [CREATE TABLE] but has no name
    ([\s+\w+]) after those words. *)
Theorem throws_iff_nameless_header (x : str) :
  let q := cleanup (apply_mappings functionMappings x) in
  mysqlToSQLiteParser x = TypeError
  <-> startsWith (toLowerCase q) (js "create table") = true
      /\ existsb nameless_header (lines_of q) = true.
Proof.
  intro q. unfold mysqlToSQLiteParser, mysqlToSQLiteParser_console, rewritten.
  fold q. unfold format.
  destruct (startsWith (toLowerCase q) (js "create table")).
  - unfold formatCreateTable.
    rewrite <- (formatCreateTable_loop_throws (lines_of q) (lines_of q) false).
    destruct (formatCreateTable_loop (lines_of q) (lines_of q) false).
    + destruct (warn_rollup _). cbn [snd]. split; [discriminate|].
      intros [_ H]. discriminate.
    + cbn [snd]. split; auto.
  - destruct (includes (toLowerCase q) (js "group_concat"));
      destruct (warn_rollup _); cbn [snd];
      (split; [discriminate|intros [H _]; discriminate]).
Qed.

Lemma throws_iff_nameless_header_witness :
  mysqlToSQLiteParser (js "CREATE TABLE `users` (id INT);") = TypeError.
Proof.
  apply (proj2 (throws_iff_nameless_header
                  (js "CREATE TABLE `users` (id INT);"))).
  split; vm_compute; reflexivity.
Defined.

(** *** Letter case and fixed points *)

(** X25: the twenty-five rules written without the [i] flag match
    upper-case spellings only: each of their matches contains an
    upper-case letter, so a statement [x] without upper-case letters
    passes through them unchanged and only the two auto-increment rules
    can rewrite it. *)
Theorem lower_case_passes_rules (x : str) :
  has_upper x = false ->
  (forall m p l s', In m case_sensitive_mappings ->
     exec (regex m) p l = Some s' ->
     has_upper (consumed l (rest s')) = true)
  /\ apply_mappings case_sensitive_mappings x = x
  /\ apply_mappings functionMappings x
     = apply_mappings auto_increment_mappings x.
Proof.
  intros Hx.
  assert (Hfix : apply_mappings case_sensitive_mappings x = x)
    by (apply (case_sensitive_fixed is_upper);
        [apply case_sensitive_need_upper | exact Hx]).
  split; [|split].
  - intros m p l s' Hm He.
    pose proof case_sensitive_need_upper as Hall.
    rewrite forallb_forall in Hall.
    apply (exec_has is_upper _ _ _ _ (Hall m Hm) He).
  - exact Hfix.
  - rewrite apply_mappings_split, Hfix. reflexivity.
Qed.

Lemma lower_case_passes_rules_witness :
  apply_mappings functionMappings (js "select ifnull(x,0) from t")
  = apply_mappings auto_increment_mappings (js "select ifnull(x,0) from t").
Proof.
  exact (proj2 (proj2 (lower_case_passes_rules
                         (js "select ifnull(x,0) from t") eq_refl))).
Defined.

(** X26: a statement without upper-case letters, in which neither
    auto-increment rule matches and which is not formatted as a table
    definition, is returned with the same characters other than white
    space, in the same order; when [handleGroupConcat] runs, up to the
    letter case of the name it writes. *)
Theorem lower_case_statement_kept (x : str) :
  has_upper x = false ->
  forallb (fun m => negb (matches_in (regex m) x)) auto_increment_mappings
  = true ->
  startsWith (toLowerCase (cleanup x)) (js "create table") = false ->
  exists out,
    mysqlToSQLiteParser x = Returned out
    /\ toUpperCase (ink out) = toUpperCase (ink x)
    /\ (includes (toLowerCase (cleanup x)) (js "group_concat") = false ->
        ink out = ink x).
Proof. apply lower_case_statement. Qed.

Lemma lower_case_statement_kept_witness :
  exists out,
    mysqlToSQLiteParser
      (js "select ifnull(x,0), concat(a,b), cast(y as int(11)) from t")
    = Returned out
    /\ toUpperCase (ink out)
       = toUpperCase
           (ink (js "select ifnull(x,0), concat(a,b), cast(y as int(11)) from t"))
    /\ (includes
          (toLowerCase
             (cleanup
                (js "select ifnull(x,0), concat(a,b), cast(y as int(11)) from t")))
          (js "group_concat") = false ->
        ink out
        = ink (js "select ifnull(x,0), concat(a,b), cast(y as int(11)) from t")).
Proof.
  apply (lower_case_statement_kept
           (js "select ifnull(x,0), concat(a,b), cast(y as int(11)) from t"));
    vm_compute; reflexivity.
Defined.

(** X27: written in any letter case [v] and between any texts,
    [AUTO_INCREMENT] is found by the two auto-increment rules, which
    leave [PRIMARY KEY AUTOINCREMENT] in the text; on its own, [v] is
    translated to exactly that. *)
Theorem auto_increment_in_any_case (pre v post : str) :
  toUpperCase v = js "AUTO_INCREMENT" ->
  includes (apply_mappings auto_increment_mappings (pre ++ v ++ post))
           (js "PRIMARY KEY AUTOINCREMENT") = true
  /\ mysqlToSQLiteParser v = Returned (js "PRIMARY KEY AUTOINCREMENT").
Proof.
  intro Hv. split; [apply auto_increment_rewritten, Hv|].
  assert (Hcs : apply_mappings case_sensitive_mappings v = v).
  { apply (case_sensitive_fixed (foreign_to (js "AUTO_INCREMENT"))).
    - apply case_sensitive_need_foreign.
    - rewrite <- Hv. apply has_foreign_spelling. }
  assert (Hai : apply_mappings auto_increment_mappings v
                = js "PRIMARY KEY AUTOINCREMENT").
  { pose proof auto_increment_spellings as Hall.
    rewrite forallb_forall in Hall.
    apply str_eqb_eq, Hall. rewrite <- Hv. apply in_spellings. }
  unfold mysqlToSQLiteParser, mysqlToSQLiteParser_console, rewritten.
  rewrite apply_mappings_split, Hcs, Hai.
  vm_compute. reflexivity.
Qed.

Lemma auto_increment_in_any_case_witness :
  includes
    (apply_mappings auto_increment_mappings
       (js "id int " ++ js "Auto_Increment" ++ js ", name text"))
    (js "PRIMARY KEY AUTOINCREMENT") = true
  /\ mysqlToSQLiteParser (js "Auto_Increment")
     = Returned (js "PRIMARY KEY AUTOINCREMENT").
Proof.
  exact (auto_increment_in_any_case (js "id int ") (js "Auto_Increment")
           (js ", name text") eq_refl).
Defined.

(** X28: a statement in the compact one-line form of the plain strategy,
    in which no pattern of the rule table, of the table options or of
    [handleGroupConcat] matches, which has no [WITH ROLLUP] and does not
    begin a table definition, is returned as it is. *)
Theorem compact_statement_is_fixed_point (s : str) :
  no_mapped_construct s = true ->
  includes s rollup = false ->
  compact s = true ->
  startsWith (toLowerCase s) (js "create table") = false ->
  mysqlToSQLiteParser s = Returned s.
Proof.
  intros Hm Hr Hc Ht. apply (second_pass s Hm Hr).
  pose proof (no_mapped_options s Hm) as Hopt.
  rewrite (cleanup_compact s Hopt Hc). unfold format. rewrite Ht.
  unfold no_mapped_construct in Hm.
  apply andb_true_iff in Hm. destruct Hm as [Hm Hdot].
  apply andb_true_iff in Hm. destruct Hm as [Hm Hgc].
  apply negb_true_iff in Hdot, Hgc.
  destruct (includes (toLowerCase s) (js "group_concat")).
  - unfold handleGroupConcat.
    rewrite (replace_all_no_match _ _ _ Hgc), (replace_all_no_match _ _ _ Hdot).
    reflexivity.
  - rewrite (formatSQL_compact s Hc). reflexivity.
Qed.

Lemma compact_statement_is_fixed_point_witness :
  mysqlToSQLiteParser (js "SELECT a || ' ' || b FROM t")
  = Returned (js "SELECT a || ' ' || b FROM t").
Proof.
  apply compact_statement_is_fixed_point; vm_compute; reflexivity.
Defined.

End Properties.
